(** * Ndc.FormBuilder: the conditional rule engine, its DSL, the store and
    the condition bridge, embedded in Rocq.

    Source files embedded here:
    - [v1/conditions/condition-engine.ts]   ([evaluateConditions], [applyEffect])
    - [v1/conditions/condition-types.ts]    ([ConditionEffect], [ConditionRule])
    - [v1/conditions/condition-dsl.ts]      ([EffectBuilder], [ElseEffectBuilder], [when])
    - [v1/conditions/condition-graph.ts]    ([traceReads], [linkDependency])
    - [v1/conditions/condition-bridge.tsx]  ([ConditionBridge]: [run], [walkSubtree], ...)
    - [core/meta/meta-types.ts], [core/validation/validatable.ts],
      [core/validation/validation-state.ts]
    - [react/ndc-form.tsx]                  (the store, [api] and [metaApi],
                                             the listener maps of the notifier)

    Conventions.  A JavaScript object used as a record keyed by field path
    whose key order is observed ([Object.keys]) is an association list in
    insertion order (keys that are array indices, which JavaScript lists
    first, are not told apart); one that is only read by key is a [gmap].
    Numbers are IEEE binary64 ([float]).  Listeners are not run: every call
    of a [notify*] function is appended to a log.  Loops whose number of
    iterations is not a bound of the input's structure take a [fuel]. *)

From Stdlib Require Import Floats Ascii String.
From stdpp Require Import base option list strings gmap.

Open Scope string_scope.
Open Scope list_scope.

#[local] Set Warnings "-clear-no-such-hyp".

(* ================================================================== *)
(** ** JavaScript values *)
(* ================================================================== *)

Inductive jsval : Type :=
| VUndefined
| VNull
| VBool (b : bool)
| VNumber (x : float)
| VString (s : string)
| VObject (ref : nat).

(** [a === b] *)
Definition strict_eq (a b : jsval) : bool :=
  match a, b with
  | VUndefined, VUndefined => true
  | VNull, VNull => true
  | VBool x, VBool y => Bool.eqb x y
  | VNumber x, VNumber y => PrimFloat.eqb x y
  | VString x, VString y => String.eqb x y
  | VObject x, VObject y => Nat.eqb x y
  | _, _ => false
  end.

(** [Boolean(v)] *)
Definition ToBoolean (v : jsval) : bool :=
  match v with
  | VUndefined | VNull => false
  | VBool b => b
  | VNumber x => negb (PrimFloat.eqb x 0 || PrimFloat.is_nan x)
  | VString s => negb (String.eqb s "")
  | VObject _ => true
  end.

(** A JavaScript object whose own string keys are listed in insertion order. *)
Definition JsObject (A : Type) : Type := list (string * A).

Fixpoint obj_lookup {A} (o : JsObject A) (k : string) : option A :=
  match o with
  | [] => None
  | (k', v) :: o' => if String.eqb k' k then Some v else obj_lookup o' k
  end.

(** [o[k] = v]: overwrite in place, or append a new key. *)
Fixpoint obj_set {A} (o : JsObject A) (k : string) (v : A) : JsObject A :=
  match o with
  | [] => [(k, v)]
  | (k', v') :: o' =>
      if String.eqb k' k then (k', v) :: o' else (k', v') :: obj_set o' k v
  end.

(** [delete o[k]] *)
Fixpoint obj_delete {A} (o : JsObject A) (k : string) : JsObject A :=
  match o with
  | [] => []
  | (k', v') :: o' =>
      if String.eqb k' k then obj_delete o' k else (k', v') :: obj_delete o' k
  end.

(** [{ ...a, ...b }] on objects *)
Definition obj_spread {A} (a b : JsObject A) : JsObject A :=
  foldl (λ o kv, obj_set o kv.1 kv.2) a b.

(** [Object.keys(o)] *)
Definition obj_keys {A} (o : JsObject A) : list string := map fst o.

(** [FieldValueMap]: the flat value map. *)
Definition FieldValueMap : Type := JsObject jsval.

(** [values[k]]: [undefined] for a missing key. *)
Definition obj_get (o : FieldValueMap) (k : string) : jsval :=
  default VUndefined (obj_lookup o k).

(** A JavaScript [Set<string>]: insertion ordered, no duplicates. *)
Definition set_add (s : list string) (x : string) : list string :=
  if bool_decide (x ∈ s) then s else s ++ [x].

(* ================================================================== *)
(** ** Dotted paths *)
(* ================================================================== *)

(** [s.split(".")] *)
Fixpoint split_dot (s : string) : list string :=
  match s with
  | EmptyString => [EmptyString]
  | String c s' =>
      if Ascii.eqb c "."%char then EmptyString :: split_dot s'
      else match split_dot s' with
           | [] => [String c EmptyString]
           | p :: ps => String c p :: ps
           end
  end.

(** [parts.join(".")] *)
Fixpoint join_dot (parts : list string) : string :=
  match parts with
  | [] => ""
  | [p] => p
  | p :: ps => p +:+ "." +:+ join_dot ps
  end.

(** [parts.pop()] leaves the list without its last element. *)
Definition pop {A} (l : list A) : list A := removelast l.

Definition parentPath (path : string) : string :=
  let parts := split_dot path in
  if (List.length parts <=? 1)%nat then "" else join_dot (pop parts).

(* ================================================================== *)
(** ** condition-types.ts, meta-types.ts *)
(* ================================================================== *)

(** The [value] of a [set] effect: a literal, or a function of the values
    ([typeof effect.value === "function"]). *)
Inductive SetValue : Type :=
| Literal (v : jsval)
| Computed (f : FieldValueMap → jsval).

Inductive ConditionEffect : Type :=
| Show (field : string)
| Hide (field : string)
| Enable (field : string)
| Disable (field : string)
| SetTo (field : string) (value : SetValue)
| Clear (field : string).

Definition effect_field (e : ConditionEffect) : string :=
  match e with
  | Show f | Hide f | Enable f | Disable f | SetTo f _ | Clear f => f
  end.

Record ConditionRule : Type := mkRule {
  when : FieldValueMap → bool;
  effects : list ConditionEffect;
  priority : option float
}.

(** [FieldMeta = { visible?: boolean; validate?: boolean; enabled?: boolean }] *)
Record FieldMeta : Type := mkMeta {
  visible : option bool;
  validate : option bool;
  enabled : option bool
}.

Definition defaultMeta : FieldMeta :=
  {| visible := Some true; validate := Some true; enabled := Some true |}.

(** [{ ...a, ...b }] on meta records: a key of [b] overrides the one of [a]. *)
Definition spread (a b : FieldMeta) : FieldMeta :=
  {| visible := if visible b is Some x then Some x else visible a;
     validate := if validate b is Some x then Some x else validate a;
     enabled := if enabled b is Some x then Some x else enabled a |}.

(* ================================================================== *)
(** ** condition-engine.ts *)
(* ================================================================== *)

Module Engine.

(** An entry of the evaluator's [meta] record:
    [{ visible?: boolean; enabled?: boolean }]. *)
Record MetaEntry : Type := mkEntry {
  e_visible : option bool;
  e_enabled : option bool
}.

Definition empty_entry : MetaEntry :=
  {| e_visible := None; e_enabled := None |}.

(** [{ ...meta[field], visible: b }] ([meta[field]] may be [undefined]). *)
Definition with_visible (m : option MetaEntry) (b : bool) : MetaEntry :=
  {| e_visible := Some b; e_enabled := e_enabled (default empty_entry m) |}.

Definition with_enabled (m : option MetaEntry) (b : bool) : MetaEntry :=
  {| e_visible := e_visible (default empty_entry m); e_enabled := Some b |}.

Record Patches : Type := mkPatches {
  desiredValues : JsObject jsval;
  meta : JsObject MetaEntry
}.

Definition applyEffect (effect : ConditionEffect) (values : FieldValueMap)
    (acc : Patches) : Patches :=
  let nextValues := desiredValues acc in
  let meta := meta acc in
  match effect with
  | Show field =>
      mkPatches nextValues
        (obj_set meta field (with_visible (obj_lookup meta field) true))
  | Hide field =>
      mkPatches nextValues
        (obj_set meta field (with_visible (obj_lookup meta field) false))
  | Enable field =>
      mkPatches nextValues
        (obj_set meta field (with_enabled (obj_lookup meta field) true))
  | Disable field =>
      mkPatches nextValues
        (obj_set meta field (with_enabled (obj_lookup meta field) false))
  | SetTo field value =>
      mkPatches
        (obj_set nextValues field
           (match value with
            | Computed f => f values
            | Literal v => v
            end))
        meta
  | Clear field =>
      mkPatches (obj_set nextValues field VUndefined) meta
  end.

(** The comparator [(a, b) => (b.priority ?? 0) - (a.priority ?? 0)]. *)
Definition compareFn (a b : ConditionRule) : float :=
  (default 0 (priority b) - default 0 (priority a))%float.

(** [Array.prototype.sort] is stable: an element moves behind another
    one only when the comparator is positive (a [NaN] result counts as
    zero). *)
Fixpoint insert_sorted (r : ConditionRule) (l : list ConditionRule)
    : list ConditionRule :=
  match l with
  | [] => [r]
  | x :: xs =>
      if PrimFloat.ltb 0 (compareFn r x) then x :: insert_sorted r xs
      else r :: x :: xs
  end.

Definition sort (l : list ConditionRule) : list ConditionRule :=
  foldr insert_sorted [] l.

Definition applyRule (values : FieldValueMap) (acc : Patches)
    (rule : ConditionRule) : Patches :=
  if when rule values
  then foldl (λ acc effect, applyEffect effect values acc) acc (effects rule)
  else acc.

Definition evaluateConditions (values : FieldValueMap)
    (rules : list ConditionRule) : Patches :=
  let sorted := sort rules in
  foldl (applyRule values) (mkPatches [] []) sorted.

End Engine.

(* ================================================================== *)
(** ** condition-dsl.ts *)
(* ================================================================== *)

Module Dsl.

(** The effect arrays of the builders are JavaScript arrays: [push]
    changes the array every holder of the reference sees, while
    [[...arr, e]] makes a new one.  The heap holds the arrays; a
    location is an index into it. *)
Definition loc : Type := nat.
Abbreviation heap := (list (list ConditionEffect)).

Definition alloc (h : heap) (arr : list ConditionEffect) : loc * heap :=
  (List.length h, h ++ [arr]).

Definition read (h : heap) (l : loc) : list ConditionEffect :=
  default [] (h !! l).

(** [arr.push(e)] *)
Definition push (h : heap) (l : loc) (e : ConditionEffect) : heap :=
  <[l := read h l ++ [e]]> h.

(** [UntypedConditionRule]: [effects] is the builder's array itself. *)
Record UntypedConditionRule : Type := mkUntyped {
  u_when : FieldValueMap → bool;
  u_effects : loc;
  u_priority : option float
}.

(** The rule as the evaluator reads it in heap [h]. *)
Definition rule_in (h : heap) (r : UntypedConditionRule) : ConditionRule :=
  {| when := u_when r; effects := read h (u_effects r);
     priority := u_priority r |}.

Definition invertWhen (fn : FieldValueMap → bool) : FieldValueMap → bool :=
  λ values, negb (fn values).

(** [FieldRef]: a literal path, or a selector function [(x) => x.a.b.c].
    A selector is the chain of properties it reads from the proxy, and
    its source text (what [String(field)] gives). *)
Inductive FieldRef : Type :=
| FieldName (path : string)
| Selector (props : list string) (source : string).

(** [createFieldOf()(selector)]: the proxy accumulates the properties read
    and stringifies to [path.join(".")].  This is what the proxy does for
    every property name but ["toString"] and ["valueOf"], for which its
    [get] trap returns a function and the path is not extended. *)
Definition createFieldOf (props : list string) : string := join_dot props.

(** [resolveField], shared by both builders; [getField] tells whether the
    builder holds a resolver ([when]) or not ([whenUntyped]). *)
Definition resolveField (getField : bool) (field : FieldRef) : string :=
  match field with
  | FieldName path => path
  | Selector props source =>
      if negb getField then source else createFieldOf props
  end.

(** [setValue]'s [runtimeValue]: a function is wrapped, a literal is kept. *)
Definition runtimeValue (value : SetValue) : SetValue :=
  match value with
  | Computed f => Computed (λ values, f values)
  | Literal v => Literal v
  end.

(** The effect-appending methods and their arguments. *)
Inductive Append : Type :=
| show_ (field : FieldRef)
| hide_ (field : FieldRef)
| enable_ (field : FieldRef)
| disable_ (field : FieldRef)
| set_ (field : string) (value : SetValue)
| setValue_ (field : FieldRef) (value : SetValue)
| clear_ (field : FieldRef).

Module EffectBuilder.

Record t : Type := mk {
  whenFn : FieldValueMap → bool;
  effects : loc;
  priority : option float;
  getField : bool
}.

(** [new EffectBuilder(this.whenFn, [...this.effects, e], ...)] *)
Definition extended (b : t) (e : ConditionEffect) (h : heap) : t * heap :=
  let '(l, h') := alloc h (read h (effects b) ++ [e]) in
  (mk (whenFn b) l (priority b) (getField b), h').

Definition show (b : t) (field : FieldRef) :=
  extended b (Show (resolveField (getField b) field)).
Definition hide (b : t) (field : FieldRef) :=
  extended b (Hide (resolveField (getField b) field)).
Definition enable (b : t) (field : FieldRef) :=
  extended b (Enable (resolveField (getField b) field)).
Definition disable (b : t) (field : FieldRef) :=
  extended b (Disable (resolveField (getField b) field)).
Definition set (b : t) (field : string) (value : SetValue) :=
  extended b (SetTo field value).
Definition setValue (b : t) (field : FieldRef) (value : SetValue) :=
  let resolvedField := resolveField (getField b) field in
  extended b (SetTo resolvedField (runtimeValue value)).
Definition clear (b : t) (field : FieldRef) :=
  extended b (Clear (resolveField (getField b) field)).

Definition withPriority (b : t) (priority : float) : t :=
  mk (whenFn b) (effects b) (Some priority) (getField b).

Definition toRules (b : t) : list UntypedConditionRule :=
  [ mkUntyped (whenFn b) (effects b) (priority b) ].

Definition append (c : Append) (b : t) : heap → t * heap :=
  match c with
  | show_ f => show b f
  | hide_ f => hide b f
  | enable_ f => enable b f
  | disable_ f => disable b f
  | set_ f v => set b f v
  | setValue_ f v => setValue b f v
  | clear_ f => clear b f
  end.

End EffectBuilder.

Module ElseEffectBuilder.

Record t : Type := mk {
  whenFn : FieldValueMap → bool;
  thenEffects : loc;
  priority : option float;
  getField : bool;
  elseEffects : loc
}.

(** The constructor; the field initialiser [elseEffects = []] makes a
    new array. *)
Definition new (whenFn : FieldValueMap → bool) (thenEffects : loc)
    (priority : option float) (getField : bool) (h : heap) : t * heap :=
  let '(l, h') := alloc h [] in
  (mk whenFn thenEffects priority getField l, h').

(** [this.elseEffects.push(e); return this;] *)
Definition pushed (b : t) (e : ConditionEffect) (h : heap) : t * heap :=
  (b, push h (elseEffects b) e).

Definition show (b : t) (field : FieldRef) :=
  pushed b (Show (resolveField (getField b) field)).
Definition hide (b : t) (field : FieldRef) :=
  pushed b (Hide (resolveField (getField b) field)).
Definition enable (b : t) (field : FieldRef) :=
  pushed b (Enable (resolveField (getField b) field)).
Definition disable (b : t) (field : FieldRef) :=
  pushed b (Disable (resolveField (getField b) field)).
Definition set (b : t) (field : string) (value : SetValue) :=
  pushed b (SetTo field value).
Definition setValue (b : t) (field : FieldRef) (value : SetValue) :=
  let resolvedField := resolveField (getField b) field in
  pushed b (SetTo resolvedField (runtimeValue value)).
Definition clear (b : t) (field : FieldRef) :=
  pushed b (Clear (resolveField (getField b) field)).

Definition withPriority (b : t) (priority : float) (h : heap) : t * heap :=
  new (whenFn b) (thenEffects b) (Some priority) (getField b) h.

Definition toRules (b : t) : list UntypedConditionRule :=
  [ mkUntyped (whenFn b) (thenEffects b) (priority b);
    mkUntyped (invertWhen (whenFn b)) (elseEffects b) (priority b) ].

Definition append (c : Append) (b : t) : heap → t * heap :=
  match c with
  | show_ f => show b f
  | hide_ f => hide b f
  | enable_ f => enable b f
  | disable_ f => disable b f
  | set_ f v => set b f v
  | setValue_ f v => setValue b f v
  | clear_ f => clear b f
  end.

End ElseEffectBuilder.

(** [EffectBuilder.else()] *)
Definition else_ (b : EffectBuilder.t) (h : heap) : ElseEffectBuilder.t * heap :=
  ElseEffectBuilder.new (EffectBuilder.whenFn b) (EffectBuilder.effects b)
    (EffectBuilder.priority b) (EffectBuilder.getField b) h.

(** [when(predicate)]: the predicate's result goes through [Boolean]. *)
Definition when_ (predicate : FieldValueMap → jsval) (h : heap)
    : EffectBuilder.t * heap :=
  let whenFn := λ values, ToBoolean (predicate values) in
  let '(l, h') := alloc h [] in
  (EffectBuilder.mk whenFn l None true, h').

Definition whenUntyped (predicate : FieldValueMap → jsval) (h : heap)
    : EffectBuilder.t * heap :=
  let whenFn := λ values, ToBoolean (predicate values) in
  let '(l, h') := alloc h [] in
  (EffectBuilder.mk whenFn l None false, h').

(** A chain of calls on a builder: effect appends and [withPriority]. *)
Inductive Call : Type :=
| Appending (c : Append)
| WithPriority (n : float).

Definition call_then (c : Call) (bh : EffectBuilder.t * heap)
    : EffectBuilder.t * heap :=
  match c with
  | Appending a => EffectBuilder.append a bh.1 bh.2
  | WithPriority n => (EffectBuilder.withPriority bh.1 n, bh.2)
  end.

Definition call_else (c : Call) (bh : ElseEffectBuilder.t * heap)
    : ElseEffectBuilder.t * heap :=
  match c with
  | Appending a => ElseEffectBuilder.append a bh.1 bh.2
  | WithPriority n => ElseEffectBuilder.withPriority bh.1 n bh.2
  end.

(** [when(P).c1...cn.else().d1...dm] *)
Definition chain_then (cs : list Call) (bh : EffectBuilder.t * heap) :=
  foldl (λ bh c, call_then c bh) bh cs.
Definition chain_else (ds : list Call) (bh : ElseEffectBuilder.t * heap) :=
  foldl (λ bh d, call_else d bh) bh ds.

End Dsl.

(* ================================================================== *)
(** ** condition-graph.ts: [traceReads] *)
(* ================================================================== *)

Module Graph.

Inductive PropertyKey : Type :=
| StringKey (s : string)
| SymbolKey (description : string).

(** The callback [fn] as the object it is given sees it: it reads a
    property and goes on with the value it got, returns, or throws. *)
Inductive Callback : Type :=
| Return (v : jsval)
| Throw (e : jsval)
| Get (prop : PropertyKey) (k : jsval → Callback).

Inductive Completion (A : Type) : Type :=
| Normal (a : A)
| Abrupt (e : jsval).
Arguments Normal {A} a.
Arguments Abrupt {A} e.

(** [Reflect.get(target, prop, receiver)] on the plain value map. *)
Definition Reflect_get (target : FieldValueMap) (prop : PropertyKey) : jsval :=
  match prop with
  | StringKey s => obj_get target s
  | SymbolKey _ => VUndefined
  end.

(** The proxy's [get] trap: [if (typeof prop === 'string') reads.add(prop)]. *)
Definition get_trap (target : FieldValueMap) (prop : PropertyKey)
    (reads : list string) : jsval * list string :=
  let reads' := match prop with
                | StringKey s => set_add reads s
                | SymbolKey _ => reads
                end in
  (Reflect_get target prop, reads').

(** [fn(proxy)] *)
Fixpoint call (fn : Callback) (target : FieldValueMap) (reads : list string)
    : Completion jsval * list string :=
  match fn with
  | Return v => (Normal v, reads)
  | Throw e => (Abrupt e, reads)
  | Get prop k =>
      let '(v, reads') := get_trap target prop reads in
      call (k v) target reads'
  end.

(** [try { body } catch { handler }] *)
Definition try_catch {A} (body : Completion A)
    (handler : jsval → Completion unit) : Completion unit :=
  match body with
  | Normal _ => Normal tt
  | Abrupt e => handler e
  end.

Definition traceReads (fn : Callback) (values : FieldValueMap)
    : Completion (list string) :=
  let '(result, reads) := call fn values [] in
  match try_catch result (λ _, Normal tt) with
  | Normal _ => Normal reads
  | Abrupt e => Abrupt e
  end.

(** The properties [fn] reads from [target], in order, up to its return
    or throw. *)
Fixpoint property_reads (fn : Callback) (target : FieldValueMap)
    : list PropertyKey :=
  match fn with
  | Return _ | Throw _ => []
  | Get prop k => prop :: property_reads (k (Reflect_get target prop)) target
  end.

(** [DependencyGraph]: two maps from a field to a set of fields; the keys
    of a map and the members of a set are kept in insertion order. *)
Record DependencyGraph : Type := mkGraph {
  forward : JsObject (list string);
  reverse : JsObject (list string)
}.

Definition createDependencyGraph : DependencyGraph := mkGraph [] [].

(** [if (!map.has(k)) map.set(k, new Set()); map.get(k)!.add(x)] *)
Definition add_edge (map : JsObject (list string)) (k x : string)
    : JsObject (list string) :=
  let map1 := match obj_lookup map k with
              | Some _ => map
              | None => obj_set map k []
              end in
  obj_set map1 k (set_add (default [] (obj_lookup map1 k)) x).

Definition linkDependency (graph : DependencyGraph) (from to : string)
    : DependencyGraph :=
  mkGraph (add_edge (forward graph) from to) (add_edge (reverse graph) to from).

(** [map.get(k) ?? []] *)
Definition neighbours (map : JsObject (list string)) (k : string)
    : list string :=
  default [] (obj_lookup map k).

End Graph.

(* ================================================================== *)
(** ** validatable.ts *)
(* ================================================================== *)

Fixpoint validatable_from (current : string) (parts : list string)
    (meta : gmap string FieldMeta) : bool :=
  match parts with
  | [] => true
  | part :: rest =>
      let current' :=
        if negb (String.eqb current "") then current +:+ "." +:+ part
        else part in
      let m := meta !! current' in
      if bool_decide (m ≫= visible = Some false) then false
      else if bool_decide (m ≫= validate = Some false) then false
      else validatable_from current' rest meta
  end.

Definition isEffectivelyValidatable (path : string)
    (meta : gmap string FieldMeta) : bool :=
  validatable_from "" (split_dot path) meta.

(* ================================================================== *)
(** ** ndc-form.tsx: the store, [api] and [metaApi] *)
(* ================================================================== *)

Module Store.

(** A call of [notifyValue], [notifyError], [notifyMeta] or [notifyAll]. *)
Inductive Notification : Type :=
| notifyValue (name : string)
| notifyError (name : string)
| notifyMeta (name : string)
| notifyAll.

Record ValidationState : Type := mkValidation {
  pending : gset string;
  lastValidatedValue : gmap string jsval
}.

Definition createValidationState : ValidationState :=
  mkValidation ∅ ∅.

(** What a validator returns: [null], a message, or a promise. *)
Inductive ValidatorResult : Type :=
| ResultNull
| ResultMessage (msg : string)
| ResultPromise (promise : nat).

Definition Validator : Type := jsval → FieldValueMap → ValidatorResult.

(** [errors[k]] is [undefined] (no key), [null] or a string. *)
Record t : Type := mk {
  values : FieldValueMap;
  errors : gmap string (option string);
  meta : gmap string FieldMeta;
  validators : gmap string (list Validator);
  validation : ValidationState;
  notified : list Notification
}.

Definition createFormStore : t :=
  mk [] ∅ ∅ ∅ createValidationState [].

Definition notify (n : Notification) (s : t) : t :=
  mk (values s) (errors s) (meta s) (validators s) (validation s)
     (notified s ++ [n]).

Definition set_values (v : FieldValueMap) (s : t) : t :=
  mk v (errors s) (meta s) (validators s) (validation s) (notified s).
Definition set_errors (e : gmap string (option string)) (s : t) : t :=
  mk (values s) e (meta s) (validators s) (validation s) (notified s).
Definition set_meta (m : gmap string FieldMeta) (s : t) : t :=
  mk (values s) (errors s) m (validators s) (validation s) (notified s).
Definition set_validators (v : gmap string (list Validator)) (s : t) : t :=
  mk (values s) (errors s) (meta s) v (validation s) (notified s).
Definition set_validation (v : ValidationState) (s : t) : t :=
  mk (values s) (errors s) (meta s) (validators s) v (notified s).

(** [store.validation.pending.delete(key)] *)
Definition pending_delete (key : string) (s : t) : t :=
  set_validation
    (mkValidation (pending (validation s) ∖ {[key]})
       (lastValidatedValue (validation s))) s.

Definition pending_add (key : string) (s : t) : t :=
  set_validation
    (mkValidation ({[key]} ∪ pending (validation s))
       (lastValidatedValue (validation s))) s.

(** [delete store.validation.lastValidatedValue[key]] *)
Definition lastValidated_delete (key : string) (s : t) : t :=
  set_validation
    (mkValidation (pending (validation s))
       (delete key (lastValidatedValue (validation s)))) s.

Definition lastValidated_set (key : string) (v : jsval) (s : t) : t :=
  set_validation
    (mkValidation (pending (validation s))
       (<[key := v]> (lastValidatedValue (validation s)))) s.

(** [store.validation.lastValidatedValue[key]] *)
Definition lastValidated_get (s : t) (key : string) : jsval :=
  default VUndefined (lastValidatedValue (validation s) !! key).

(** [if (store.errors[key] !== null) { store.errors[key] = null;
     store.notifier.notifyError(key); }] *)
Definition clear_error (key : string) (s : t) : t :=
  if bool_decide (errors s !! key ≠ Some None)
  then notify (notifyError key) (set_errors (<[key := None]> (errors s)) s)
  else s.

(** [store.errors[key] ?? null] *)
Definition error_or_null (s : t) (key : string) : option string :=
  default None (errors s !! key).

End Store.

Module api.
Import Store.

(** [key in store.values] *)
Definition has_key {A} (o : JsObject A) (key : string) : bool :=
  if obj_lookup o key is Some _ then true else false.

Definition register (name : string) (initialValue : jsval) (s : t) : t :=
  let key := name in
  if negb (has_key (values s) key) then
    let s1 := set_values (obj_set (values s) key initialValue) s in
    (* store.errors[key] ??= null *)
    let s2 := match errors s1 !! key with
              | Some (Some _) => s1
              | _ => set_errors (<[key := None]> (errors s1)) s1
              end in
    (* store.meta[key] ??= { visible: true, enabled: true, validate: true } *)
    let s3 := match meta s2 !! key with
              | Some _ => s2
              | None => set_meta (<[key := defaultMeta]> (meta s2)) s2
              end in
    notify (notifyMeta key) (notify (notifyError key) (notify (notifyValue key) s3))
  else s.

Definition unregister (name : string) (s : t) : t :=
  let key := name in
  let changed := has_key (values s) key
                 || bool_decide (is_Some (errors s !! key))
                 || bool_decide (is_Some (meta s !! key)) in
  let s1 := set_values (obj_delete (values s) key) s in
  let s2 := set_errors (delete key (errors s1)) s1 in
  let s3 := set_meta (delete key (meta s2)) s2 in
  let s4 := set_validators (delete key (validators s3)) s3 in
  let s5 := lastValidated_delete key (pending_delete key s4) in
  if changed then notify notifyAll s5 else s5.

Definition reset (nextValues : option FieldValueMap) (s : t) : t :=
  let s1 := set_errors ∅ s in
  let s2 := set_values
              (match nextValues with
               | Some next => obj_spread (values s1) next
               | None => []
               end) s1 in
  let s3 := set_validation (mkValidation ∅ ∅) s2 in
  notify notifyAll s3.

Definition setValue (name : string) (value : jsval) (s : t) : t :=
  let key := name in
  let s1 := set_values (obj_set (values s) key value) s in
  let s2 := lastValidated_delete key s1 in
  (* if (store.errors[key]) *)
  let s3 := match errors s2 !! key with
            | Some (Some msg) =>
                if negb (String.eqb msg "")
                then notify (notifyError key)
                       (set_errors (<[key := None]> (errors s2)) s2)
                else s2
            | _ => s2
            end in
  notify (notifyValue key) s3.

Definition getValue (s : t) (name : string) : jsval := obj_get (values s) name.

Definition getValues (s : t) : FieldValueMap := values s.

Definition setValidators (name : string) (vs : option (list Validator))
    (s : t) : t :=
  let s1 := set_validators
              (match vs with
               | Some l => <[name := l]> (validators s)
               | None => delete name (validators s)
               end) s in
  lastValidated_delete name s1.

(** The [then] callback registered on a validator's promise, with the
    variables it captures. *)
Record Dispatch : Type := mkDispatch {
  d_key : string;
  valueAtStart : jsval;
  d_promise : nat
}.

(** The body of [for (const rule of rules)] and what follows the loop.
    The result is the returned [string | null], the store, and the
    callback registered on a promise, if any. *)
Fixpoint run_rules (key : string) (value : jsval) (typedValues : FieldValueMap)
    (rules : list Validator) (s : t) : option string * t * option Dispatch :=
  match rules with
  | [] => (None, clear_error key s, None)
  | rule :: rest =>
      match rule value typedValues with
      | ResultPromise p =>
          let s1 := notify (notifyError key) (pending_add key s) in
          (None, s1, Some (mkDispatch key value p))
      | ResultMessage msg =>
          if negb (String.eqb msg "") then
            let s1 :=
              if bool_decide (errors s !! key ≠ Some (Some msg))
              then notify (notifyError key)
                     (set_errors (<[key := Some msg]> (errors s)) s)
              else s in
            (Some msg, s1, None)
          else run_rules key value typedValues rest s
      | ResultNull => run_rules key value typedValues rest s
      end
  end.

Definition validateField (name : string) (s : t)
    : option string * t * option Dispatch :=
  let key := name in
  if negb (isEffectivelyValidatable key (meta s)) then
    let s1 := lastValidated_delete key (pending_delete key s) in
    (None, clear_error key s1, None)
  else if bool_decide (key ∈ pending (validation s)) then
    (error_or_null s key, s, None)
  else
    let rules := validators s !! key in
    let value := obj_get (values s) key in
    let typedValues := values s in
    match rules with
    | None | Some [] => (None, clear_error key s, None)
    | Some rules =>
        if strict_eq (lastValidated_get s key) value then
          (error_or_null s key, s, None)
        else
          let s1 := lastValidated_set key value s in
          run_rules key value typedValues rules s1
    end.

(** [(result as Promise<string | null>).then((msg) => { ... })]: the
    callback, run when the promise resolves with [msg]. *)
Definition resolved (d : Dispatch) (msg : option string) (s : t) : t :=
  let key := d_key d in
  if negb (isEffectivelyValidatable key (meta s)) then pending_delete key s
  else if negb (strict_eq (lastValidated_get s key) (valueAtStart d)) then
    pending_delete key s
  else
    let s1 := pending_delete key s in
    let next := msg in
    if bool_decide (errors s1 !! key ≠ Some next)
    then notify (notifyError key) (set_errors (<[key := next]> (errors s1)) s1)
    else s1.

Definition getError (s : t) (name : string) : option string :=
  error_or_null s name.

(** [if (api.validateField(key))]: a non-empty string is truthy. *)
Definition truthy_message (r : option string) : bool :=
  match r with
  | Some msg => negb (String.eqb msg "")
  | None => false
  end.

(** [store.validation.pending.size > 0] *)
Definition isValidating (s : t) : bool :=
  negb (bool_decide (pending (validation s) = ∅)).

(** [validateAll]: the result, the store, and the callbacks registered on
    promises on the way. *)
Definition validateAll (s : t) : bool * t * list Dispatch :=
  let acc :=
    foldl (λ (acc : bool * t * list Dispatch) key,
             let res := validateField key acc.1.2 in
             (if truthy_message res.1.1 then false else acc.1.1,
              res.1.2,
              acc.2 ++ option_list res.2))
      (true, s, []) (obj_keys (values s)) in
  if isValidating acc.1.2 then (false, acc.1.2, acc.2)
  else (acc.1.1, acc.1.2, acc.2).

Definition clearError (name : string) (s : t) : t := clear_error name s.

End api.

Module metaApi.
Import Store.

Definition getMeta (s : t) (name : string) : option FieldMeta :=
  meta s !! name.

Definition setMeta (name : string) (next : FieldMeta) (s : t) : t :=
  let prev := default defaultMeta (meta s !! name) in
  let merged := spread prev next in
  let s1 := set_meta (<[name := merged]> (meta s)) s in
  let becameValidatable :=
    (bool_decide (visible prev = Some false)
     || bool_decide (validate prev = Some false))
    && bool_decide (visible merged = Some true)
    && bool_decide (validate merged = Some true) in
  let s2 := if becameValidatable then lastValidated_delete name s1 else s1 in
  let s3 :=
    if bool_decide (visible merged = Some false)
       || bool_decide (validate merged = Some false)
    then clear_error name (lastValidated_delete name (pending_delete name s2))
    else s2 in
  if bool_decide (visible prev ≠ visible merged)
     || bool_decide (enabled prev ≠ enabled merged)
     || bool_decide (validate prev ≠ validate merged)
  then notify (notifyMeta name) s3
  else s3.

End metaApi.

(* ================================================================== *)
(** ** condition-bridge.tsx *)
(* ================================================================== *)

Module Bridge.

Definition isChildOf (parent child : string) : bool :=
  String.eqb child parent || String.prefix (parent +:+ ".") child.

(** [a?.visible === b?.visible && a?.enabled === b?.enabled &&
     a?.validate === b?.validate] *)
Definition metaShallowEqual (a b : option FieldMeta) : bool :=
  bool_decide (a ≫= visible = b ≫= visible)
  && bool_decide (a ≫= enabled = b ≫= enabled)
  && bool_decide (a ≫= validate = b ≫= validate).

(** The variables of the effect's closure that change between runs. *)
Record t : Type := mk {
  cachedFieldKeys : list string;
  childrenMap : gmap string (list string);
  scheduled : bool;
  running : bool
}.

(** The closure as the effect creates it. *)
Definition mounted : t := mk [] ∅ false false.

(** 0) Precompute show-controlled fields *)
Definition showControlledFields (conditions : list ConditionRule)
    : list string :=
  foldl (λ acc rule,
           foldl (λ acc effect,
                    match effect with
                    | Show field => set_add acc field
                    | _ => acc
                    end) acc (effects rule))
    [] conditions.

Fixpoint same_prefix (keys cached : list string) : bool :=
  match keys, cached with
  | k :: keys', c :: cached' =>
      if negb (String.eqb k c) then false else same_prefix keys' cached'
  | _, _ => true
  end.

Definition buildChildrenMap (keys : list string) : gmap string (list string) :=
  foldl (λ next field,
           let p := parentPath field in
           if String.eqb p "" then next
           else match next !! p with
                | Some arr => <[p := arr ++ [field]]> next
                | None => <[p := [field]]> next
                end)
    ∅ keys.

Definition rebuildChildrenMapIfNeeded (s : Store.t) (b : t) : t :=
  let keys := obj_keys (api.getValues s) in
  let same := Nat.eqb (List.length keys) (List.length (cachedFieldKeys b))
              && same_prefix keys (cachedFieldKeys b) in
  if same then b
  else mk keys (buildChildrenMap keys) (scheduled b) (running b).

(** The loop of [walkSubtree]; the stack is kept top first, so pushing
    [kids[0], kids[1], ...] puts them reversed in front.  [fuel] bounds
    the number of iterations. *)
Fixpoint walk_loop (fuel : nat) (childrenMap : gmap string (list string))
    (visit : string → Store.t → Store.t) (stack : list string)
    (s : Store.t) {struct fuel} : option Store.t :=
  match stack with
  | [] => Some s
  | cur :: rest =>
      match fuel with
      | O => None
      | S fuel' =>
          let s' := visit cur s in
          let stack' := match childrenMap !! cur with
                        | Some kids => rev kids ++ rest
                        | None => rest
                        end in
          walk_loop fuel' childrenMap visit stack' s'
      end
  end.

Definition walkSubtree (fuel : nat) (root : string)
    (visit : string → Store.t → Store.t) (bs : t * Store.t)
    : option (t * Store.t) :=
  let b' := rebuildChildrenMapIfNeeded bs.2 bs.1 in
  match walk_loop fuel (childrenMap b') visit [root] bs.2 with
  | Some s' => Some (b', s')
  | None => None
  end.

(** 3) Meta update guard *)
Definition setMetaIfChanged (name : string) (patch : FieldMeta)
    (s : Store.t) : Store.t :=
  let prev := metaApi.getMeta s name in
  let merged :=
    spread (default (mkMeta (Some true) None (Some true)) prev) patch in
  if metaShallowEqual prev (Some merged) then s
  else metaApi.setMeta name patch s.

(** [{ visible: false, validate: false }] and [{ visible: true, validate: true }] *)
Definition hidden : FieldMeta := mkMeta (Some false) (Some false) None.
Definition shown : FieldMeta := mkMeta (Some true) (Some true) None.

(** An entry of the evaluator's [meta], used as a patch. *)
Definition patch_of (e : Engine.MetaEntry) : FieldMeta :=
  mkMeta (Engine.e_visible e) None (Engine.e_enabled e).

(** [new Set([...showControlledFields, ...Object.keys(meta)])] *)
Definition cascadeRoots (conditions : list ConditionRule)
    (meta : JsObject Engine.MetaEntry) : list string :=
  foldl set_add [] (showControlledFields conditions ++ obj_keys meta).

(** The body of [for (const root of cascadeRoots)]. *)
Definition cascade_root (fuel : nat) (root : string) (bs : t * Store.t)
    : option (t * Store.t) :=
  let m := metaApi.getMeta bs.2 root in
  if bool_decide (m ≫= visible = Some false) then
    walkSubtree fuel root (λ field, setMetaIfChanged field hidden) bs
  else if bool_decide (m ≫= visible = Some true) then
    walkSubtree fuel root (λ field, setMetaIfChanged field shown) bs
  else Some bs.

Fixpoint cascade (fuel : nat) (roots : list string) (bs : t * Store.t)
    : option (t * Store.t) :=
  match roots with
  | [] => Some bs
  | root :: rest =>
      match cascade_root fuel root bs with
      | Some bs' => cascade fuel rest bs'
      | None => None
      end
  end.

(** 1) baseline: hide all show-controlled fields *)
Definition baseline (conditions : list ConditionRule) (s : Store.t) : Store.t :=
  foldl (λ s field, setMetaIfChanged field hidden s) s
    (showControlledFields conditions).

(** 2) apply meta from conditions *)
Definition apply_meta (meta : JsObject Engine.MetaEntry) (s : Store.t)
    : Store.t :=
  foldl (λ s key,
           setMetaIfChanged key
             (patch_of (default Engine.empty_entry (obj_lookup meta key))) s)
    s (obj_keys meta).

(** 4) apply value effects *)
Definition apply_values (desiredValues : JsObject jsval) (s : Store.t)
    : Store.t :=
  foldl (λ s key,
           let prev := api.getValue s key in
           let next := obj_get desiredValues key in
           if negb (strict_eq prev next) then api.setValue key next s else s)
    s (obj_keys desiredValues).

(** 5) Core run: one evaluation pass.  [None]: a walk ran out of fuel. *)
Definition run (fuel : nat) (conditions : list ConditionRule)
    (bs : t * Store.t) : option (t * Store.t) :=
  let '(b, s) := bs in
  if running b then Some (b, s)
  else
    let b1 := mk (cachedFieldKeys b) (childrenMap b) (scheduled b) true in
    let values := api.getValues s in
    let patches := Engine.evaluateConditions values conditions in
    let s1 := baseline conditions s in
    let s2 := apply_meta (Engine.meta patches) s1 in
    match cascade fuel (cascadeRoots conditions (Engine.meta patches)) (b1, s2) with
    | None => None
    | Some (b2, s3) =>
        let s4 := apply_values (Engine.desiredValues patches) s3 in
        Some (mk (cachedFieldKeys b2) (childrenMap b2) (scheduled b2) false, s4)
    end.

(** 4) Scheduler: [scheduleRun] and the microtask it queues. *)
Definition scheduleRun (b : t) : t :=
  if scheduled b then b
  else mk (cachedFieldKeys b) (childrenMap b) true (running b).

Definition microtask (fuel : nat) (conditions : list ConditionRule)
    (bs : t * Store.t) : option (t * Store.t) :=
  run fuel conditions
    (mk (cachedFieldKeys bs.1) (childrenMap bs.1) false (running bs.1), bs.2).

(** 6) Subscriptions, when no predicate reads a field ([depsSet.size === 0]):
    [scheduleRun] is subscribed with [api.subscribe], so it is a global
    listener, and every call of the notifier calls it. *)
Definition notify_global (calls : list Store.Notification) (b : t) : t :=
  foldl (λ b _, scheduleRun b) b calls.

(** The microtask of a bridge subscribed in this way.  The pass does not
    read [scheduled], so the calls of [scheduleRun] that the notifications
    of the pass make are put after it here. *)
Definition microtask_global (fuel : nat) (conditions : list ConditionRule)
    (bs : t * Store.t) : option (t * Store.t) :=
  match microtask fuel conditions bs with
  | Some (b', s') =>
      Some (notify_global
              (drop (List.length (Store.notified bs.2)) (Store.notified s')) b',
            s')
  | None => None
  end.

End Bridge.

(* ================================================================== *)
(** ** ndc-form.tsx: the notifier's listener maps *)
(* ================================================================== *)

Module Notifier.

(** A listener is known by its identity. *)
Definition Listener : Type := nat.

(** A [Map<string, Set<Listener>>]: the [Set] objects live in [sets], at
    the index that is their identity, and [entries] maps a name to the
    set it holds.  A closure that captured a set keeps its index. *)
Record ListenerMap : Type := mkMap {
  sets : list (list Listener);
  entries : gmap string nat
}.

(** [new Map()] *)
Definition empty : ListenerMap := mkMap [] ∅.

(** The members of the set at [loc], in insertion order. *)
Definition members (sets : list (list Listener)) (loc : nat) : list Listener :=
  default [] (sets !! loc).

(** [set.add(fn)] and [set.delete(fn)] *)
Definition add (fn : Listener) (set : list Listener) : list Listener :=
  if bool_decide (fn ∈ set) then set else set ++ [fn].

Definition remove (fn : Listener) (set : list Listener) : list Listener :=
  filter (λ g, g ≠ fn) set.

(** What the function [subscribe] returns has captured. *)
Record Unsubscribe : Type := mkUnsubscribe {
  u_set : nat;
  u_name : string;
  u_fn : Listener
}.

(** [subscribe(map)(name, fn)] *)
Definition subscribe (name : string) (fn : Listener) (map : ListenerMap)
    : Unsubscribe * ListenerMap :=
  let '(set, sets1) :=
    match entries map !! name with
    | Some set => (set, sets map)
    | None => (List.length (sets map), sets map ++ [[]])
    end in
  (mkUnsubscribe set name fn,
   mkMap (alter (add fn) set sets1) (<[name := set]> (entries map))).

(** [() => { set.delete(fn); if (set.size === 0) map.delete(name); }] *)
Definition unsubscribe (u : Unsubscribe) (map : ListenerMap) : ListenerMap :=
  let sets1 := alter (remove (u_fn u)) (u_set u) (sets map) in
  if bool_decide (members sets1 (u_set u) = [])
  then mkMap sets1 (delete (u_name u) (entries map))
  else mkMap sets1 (entries map).

(** [map.delete(key)], as [unregister] calls it. *)
Definition map_delete (key : string) (map : ListenerMap) : ListenerMap :=
  mkMap (sets map) (delete key (entries map)).

(** [map.get(name)?.forEach((fn) => fn())]: the listeners called. *)
Definition listeners (map : ListenerMap) (name : string) : list Listener :=
  match entries map !! name with
  | Some set => members (sets map) set
  | None => []
  end.

End Notifier.

(** Every entry of the map holds a set of the heap, and no two names hold
    the same set. *)
Definition listeners_wf (map : Notifier.ListenerMap) : Prop :=
  ∀ name set, Notifier.entries map !! name = Some set →
    (set < List.length (Notifier.sets map))%nat
    ∧ ∀ name', Notifier.entries map !! name' = Some set → name' = name.

(* ================================================================== *)
(** ** Vocabulary of the properties *)
(* ================================================================== *)

(** A rule set in which every effect function is replaced by the value
    it takes on [values]. *)
Definition freeze_effect (values : FieldValueMap) (e : ConditionEffect)
    : ConditionEffect :=
  match e with
  | SetTo field (Computed f) => SetTo field (Literal (f values))
  | _ => e
  end.

Definition freeze_rule (values : FieldValueMap) (r : ConditionRule)
    : ConditionRule :=
  {| when := when r; effects := map (freeze_effect values) (effects r);
     priority := priority r |}.


(** [Number(v)] of a number; a value of another type gives [NaN] here
    (what [Number(undefined)] is). *)
Definition number_of (v : jsval) : float :=
  match v with
  | VNumber x => x
  | _ => nan
  end.

(** The rule [when(v => v.qty > 10)
      .setValue("total", v => v.qty * v.price * 0.9).toRules()]. *)
Definition qty_over_10 : FieldValueMap → jsval :=
  λ v, VBool (PrimFloat.ltb 10 (number_of (obj_get v "qty"))).

Definition discounted_total : FieldValueMap → jsval :=
  λ v, VNumber (number_of (obj_get v "qty") * number_of (obj_get v "price")
                * 0x1.ccccccccccccdp-1)%float.

Definition discount_rules : list ConditionRule :=
  let bh := Dsl.when_ qty_over_10 [] in
  let bh' := Dsl.EffectBuilder.setValue bh.1 (Dsl.FieldName "total")
               (Computed discounted_total) bh.2 in
  map (Dsl.rule_in bh'.2) (Dsl.EffectBuilder.toRules bh'.1).

(** The fields a rule touches on [values]: those of its effects when its
    predicate holds, none otherwise. *)
Definition triggered_fields (r : ConditionRule) (values : FieldValueMap)
    : list string :=
  if when r values then map effect_field (effects r) else [].

(** The rules of [when(P).cs.else().ds.toRules()], as the evaluator
    reads them once the chain is built, starting from heap [h]. *)
Definition else_rules (predicate : FieldValueMap → jsval)
    (cs ds : list Dsl.Call) (h : Dsl.heap) : list ConditionRule :=
  let bh := Dsl.chain_then cs (Dsl.when_ predicate h) in
  let eh := Dsl.chain_else ds (Dsl.else_ bh.1 bh.2) in
  map (Dsl.rule_in eh.2) (Dsl.ElseEffectBuilder.toRules eh.1).

(** What [toRules()] of a builder yields in heap [h]. *)
Definition then_rules_in (h : Dsl.heap) (b : Dsl.EffectBuilder.t)
    : list ConditionRule :=
  map (Dsl.rule_in h) (Dsl.EffectBuilder.toRules b).

Definition else_rules_in (h : Dsl.heap) (b : Dsl.ElseEffectBuilder.t)
    : list ConditionRule :=
  map (Dsl.rule_in h) (Dsl.ElseEffectBuilder.toRules b).

(** The effect an appending call adds, for a builder with or without a
    field resolver. *)
Definition appended_effect (getField : bool) (c : Dsl.Append) : ConditionEffect :=
  match c with
  | Dsl.show_ f => Show (Dsl.resolveField getField f)
  | Dsl.hide_ f => Hide (Dsl.resolveField getField f)
  | Dsl.enable_ f => Enable (Dsl.resolveField getField f)
  | Dsl.disable_ f => Disable (Dsl.resolveField getField f)
  | Dsl.set_ f v => SetTo f v
  | Dsl.setValue_ f v => SetTo (Dsl.resolveField getField f) (Dsl.runtimeValue v)
  | Dsl.clear_ f => Clear (Dsl.resolveField getField f)
  end.

(** The guard of [setMetaIfChanged]: the field's current meta and the
    merged record it is compared with. *)
Definition merged_meta (s : Store.t) (name : string) (patch : FieldMeta)
    : FieldMeta :=
  spread (default (mkMeta (Some true) None (Some true))
            (metaApi.getMeta s name)) patch.

(** [lastValidatedValue[key]], when it has the key, holds the field's
    current value, which is not [undefined]. *)
Definition lastValidated_consistent (s : Store.t) : Prop :=
  ∀ key v,
    Store.lastValidatedValue (Store.validation s) !! key = Some v →
    v ≠ VUndefined ∧ obj_get (Store.values s) key = v.

(** A store with one registered field, ["email"], holding ["a"], whose
    only validator returns a promise. *)
Definition async_validator : Store.Validator := λ _ _, Store.ResultPromise 0.

Definition email_store : Store.t :=
  api.setValidators "email" (Some [async_validator])
    (api.register "email" (VString "a") Store.createFormStore).

(** The walk from [root] through the parent→children index arrives at [d]. *)
Inductive reaches (cm : gmap string (list string)) : string → string → Prop :=
| reaches_here x : reaches cm x x
| reaches_kid x kids k d :
    cm !! x = Some kids → k ∈ kids → reaches cm k d → reaches cm x d.

(** [d] is [root], or a registered path with a parent that descends from
    [root] in the same way: a registered descendant of [root] all of whose
    intermediate paths are registered too. *)
Inductive descends (keys : list string) (root : string) : string → Prop :=
| descends_root : descends keys root root
| descends_child d :
    d ∈ keys → parentPath d ≠ "" → descends keys root (parentPath d) →
    descends keys root d.

(** [visible = false] and [validate = false]. *)
Definition is_hidden (m : option FieldMeta) : Prop :=
  m ≫= visible = Some false ∧ m ≫= validate = Some false.

(** The bridge's index is the one built from the keys it cached. *)
Definition cache_ok (b : Bridge.t) : Prop :=
  Bridge.childrenMap b = Bridge.buildChildrenMap (Bridge.cachedFieldKeys b).

(** The evaluator's [meta] for the store's values. *)
Definition meta_patch (conditions : list ConditionRule) (s : Store.t)
    : JsObject Engine.MetaEntry :=
  Engine.meta (Engine.evaluateConditions (api.getValues s) conditions).

(** The store after steps 1 and 2 of a pass: baseline, then the meta patch. *)
Definition after_meta (conditions : list ConditionRule) (s : Store.t) : Store.t :=
  Bridge.apply_meta (meta_patch conditions s) (Bridge.baseline conditions s).

(** The cascade roots of the pass. *)
Definition pass_roots (conditions : list ConditionRule) (s : Store.t)
    : list string :=
  Bridge.cascadeRoots conditions (meta_patch conditions s).

(** Some rule has a [show] effect on [f]. *)
Definition show_target (conditions : list ConditionRule) (f : string) : Prop :=
  ∃ rule, rule ∈ conditions ∧ Show f ∈ effects rule.

(** The longest key. *)
Definition max_length (keys : list string) : nat :=
  foldr (λ k m, String.length k `max` m) 0 keys.

(** The field's meta holds the [visible] and [validate] of [patch]. *)
Definition has_patch (patch : FieldMeta) (m : option FieldMeta) : Prop :=
  m ≫= visible = visible patch ∧ m ≫= validate = validate patch.

(** Kids are longer than their parent and no longer than [bound]. *)
Definition index_bounded (cm : gmap string (list string)) (bound : nat) : Prop :=
  ∀ p kids k, cm !! p = Some kids → k ∈ kids →
    (String.length p < String.length k ≤ bound)%nat.

(** A field that is not visible is not validated either. *)
Definition hidden_unvalidated (m : option FieldMeta) : Prop :=
  m ≫= visible = Some false → m ≫= validate = Some false.

(** No cascade root from which the walk arrives at [d] is visible in [s]. *)
Definition no_visible_root_above (cm : gmap string (list string))
    (roots : list string) (d : string) (s : Store.t) : Prop :=
  ∀ r, r ∈ roots → reaches cm r d → Store.meta s !! r ≫= visible ≠ Some true.

(** No cascade root of which [d] is a registered descendant is visible in [s]. *)
Definition no_visible_root_over (keys roots : list string) (d : string)
    (s : Store.t) : Prop :=
  ∀ r, r ∈ roots → descends keys r d → metaApi.getMeta s r ≫= visible ≠ Some true.

(** The meta of [f] once the pass has run. *)
Definition meta_after_run (fuel : nat) (conditions : list ConditionRule)
    (bs : Bridge.t * Store.t) (f : string) : option FieldMeta :=
  match Bridge.run fuel conditions bs with
  | Some (_, s') => metaApi.getMeta s' f
  | None => None
  end.

(** Stores with the fields ["a"], ["a.b"], ["a.b.c"] registered, and with
    ["a"] and ["a.b.c"] only. *)
Definition abc_store : Store.t :=
  api.register "a.b.c" (VString "")
    (api.register "a.b" (VString "")
       (api.register "a" (VString "") Store.createFormStore)).

Definition a_abc_store : Store.t :=
  api.register "a.b.c" (VString "")
    (api.register "a" (VString "") Store.createFormStore).

(** [when(() => false).show("a.b")] and [when(() => true).show("a")]. *)
Definition show_a_rules : list ConditionRule :=
  [ mkRule (λ _, false) [Show "a.b"] None;
    mkRule (λ _, true) [Show "a"] None ].

(** [when(() => true).hide("a")]. *)
Definition hide_a_rules : list ConditionRule :=
  [ mkRule (λ _, true) [Hide "a"] None ].

(** The rules [when(v => v.country === "US").show("state").hide("province")]
    and [when(v => v.country === "CA").show("province").hide("state")],
    and a store with the three fields registered, [country] being [""]. *)
Definition country_is (c : string) : FieldValueMap → bool :=
  λ v, strict_eq (obj_get v "country") (VString c).

Definition shipping_rules : list ConditionRule :=
  [ mkRule (country_is "US") [Show "state"; Hide "province"] None;
    mkRule (country_is "CA") [Show "province"; Hide "state"] None ].

Definition shipping_store : Store.t :=
  api.register "province" (VString "")
    (api.register "state" (VString "")
       (api.register "country" (VString "") Store.createFormStore)).

(** [when(() => true).show("a")] and [when(() => true).hide("a.b")]. *)
Definition show_a_hide_ab_rules : list ConditionRule :=
  [ mkRule (λ _, true) [Show "a"] None;
    mkRule (λ _, true) [Hide "a.b"] None ].

(** Calls on the store, to speak of what happens between the dispatch of
    a validator and the resolution of its promise. *)
Inductive StoreOp : Type :=
| OpRegister (name : string) (initialValue : jsval)
| OpUnregister (name : string)
| OpSetValue (name : string) (value : jsval)
| OpSetValidators (name : string) (vs : option (list Store.Validator))
| OpValidateField (name : string)
| OpResolved (d : api.Dispatch) (msg : option string)
| OpReset (nextValues : option FieldValueMap)
| OpSetMeta (name : string) (next : FieldMeta).

Definition apply_op (s : Store.t) (op : StoreOp) : Store.t :=
  match op with
  | OpRegister name v => api.register name v s
  | OpUnregister name => api.unregister name s
  | OpSetValue name v => api.setValue name v s
  | OpSetValidators name vs => api.setValidators name vs s
  | OpValidateField name => (api.validateField name s).1.2
  | OpResolved d msg => api.resolved d msg s
  | OpReset next => api.reset next s
  | OpSetMeta name next => metaApi.setMeta name next s
  end.

Definition apply_ops (s : Store.t) (ops : list StoreOp) : Store.t :=
  foldl apply_op s ops.

(* ================================================================== *)
(** ** Vocabulary of the further properties *)
(* ================================================================== *)

(** [show], [hide], [enable] and [disable] write the meta patch; [set] and
    [clear] write the value patch. *)
Definition is_meta_effect (e : ConditionEffect) : bool :=
  match e with
  | Show _ | Hide _ | Enable _ | Disable _ => true
  | SetTo _ _ | Clear _ => false
  end.

(** Some rule that holds on [values] has an effect of the given kind on [k]. *)
Definition applied_effect_on (kind : bool) (values : FieldValueMap)
    (rules : list ConditionRule) (k : string) : Prop :=
  ∃ rule e, rule ∈ rules ∧ when rule values = true ∧ e ∈ effects rule
            ∧ is_meta_effect e = kind ∧ effect_field e = k.

(** The comparator puts no rule of the list behind another one: the case
    of rules without a priority, or with one and the same priority. *)
Definition all_tied (rules : list ConditionRule) : Prop :=
  ∀ x y, x ∈ rules → y ∈ rules →
    PrimFloat.ltb 0 (Engine.compareFn x y) = false.

(** Two rules without priority on the same field, and two of priority 5. *)
Definition tied_rules : list ConditionRule :=
  [ mkRule (λ _, true) [Show "f"] None;
    mkRule (λ _, true) [Hide "f"] None ].

Definition tied_rules_5 : list ConditionRule :=
  [ mkRule (λ _, true) [Hide "f"] (Some 5%float);
    mkRule (λ _, true) [Show "f"] (Some 5%float) ].

(** The effects a chain of calls appends, in call order, and the priority
    it leaves. *)
Definition call_effects (getField : bool) (cs : list Dsl.Call)
    : list ConditionEffect :=
  flat_map (λ c, match c with
                 | Dsl.Appending a => [appended_effect getField a]
                 | Dsl.WithPriority _ => []
                 end) cs.

Definition call_priority (p0 : option float) (cs : list Dsl.Call)
    : option float :=
  foldl (λ p c, match c with
                | Dsl.WithPriority n => Some n
                | Dsl.Appending _ => p
                end) p0 cs.

(** The effects appended since the last [withPriority] of the chain. *)
Definition effects_since_priority (getField : bool) (cs : list Dsl.Call)
    : list ConditionEffect :=
  foldl (λ acc c, match c with
                  | Dsl.WithPriority _ => []
                  | Dsl.Appending a => acc ++ [appended_effect getField a]
                  end) [] cs.

(** The rules of [when(P).cs.toRules()], read in the heap the chain leaves. *)
Definition then_rules (predicate : FieldValueMap → jsval)
    (cs : list Dsl.Call) (h : Dsl.heap) : list ConditionRule :=
  let bh := Dsl.chain_then cs (Dsl.when_ predicate h) in
  then_rules_in bh.2 bh.1.

(** The string holds no ["."]. *)
Fixpoint no_dot (s : string) : bool :=
  match s with
  | EmptyString => true
  | String c s' => negb (Ascii.eqb c "."%char) && no_dot s'
  end.

(** The registered keys whose parent is [p], in registration order. *)
Definition children_of (keys : list string) (p : string) : list string :=
  filter (λ k, parentPath k = p) keys.

(** The value of [current] in [isEffectivelyValidatable] after the loop
    has gone through [parts]. *)
Definition path_after (current : string) (parts : list string) : string :=
  foldl (λ current part,
           if negb (String.eqb current "") then current +:+ "." +:+ part
           else part) current parts.

(** The meta stops validation: [visible] or [validate] is [false]. *)
Definition meta_blocks (m : option FieldMeta) : Prop :=
  m ≫= visible = Some false ∨ m ≫= validate = Some false.

(** A call after which the field has no last-validated value: [reset],
    [unregister] and [setValidators] of the field, and a [setMeta] of the
    field that hides it or turns its validation off. *)
Definition invalidates (key : string) (op : StoreOp) : bool :=
  match op with
  | OpReset _ => true
  | OpUnregister name => String.eqb name key
  | OpSetValidators name _ => String.eqb name key
  | OpSetMeta name next =>
      String.eqb name key
      && (bool_decide (visible next = Some false)
          || bool_decide (validate next = Some false))
  | _ => false
  end.

(** A validator that always reports ["required"], and a store whose field
    ["f"] holds [undefined] and has that validator. *)
Definition required_validator : Store.Validator :=
  λ _ _, Store.ResultMessage "required".

Definition undefined_store : Store.t :=
  api.setValidators "f" (Some [required_validator])
    (api.register "f" VUndefined Store.createFormStore).

(** A store whose field ["n"] holds [NaN] and has an asynchronous validator. *)
Definition nan_store : Store.t :=
  api.setValidators "n" (Some [async_validator])
    (api.register "n" (VNumber PrimFloat.nan) Store.createFormStore).

(** The body of the loop of [validateAll]. *)
Definition validateAll_step (acc : bool * Store.t * list api.Dispatch)
    (key : string) : bool * Store.t * list api.Dispatch :=
  let res := api.validateField key acc.1.2 in
  (if api.truthy_message res.1.1 then false else acc.1.1,
   res.1.2,
   acc.2 ++ option_list res.2).

(** Some field is pending and open to validation. *)
Definition pending_validatable (s : Store.t) : Prop :=
  ∃ k, k ∈ Store.pending (Store.validation s)
       ∧ isEffectivelyValidatable k (Store.meta s) = true.

(** The patch hides the field or turns its validation off. *)
Definition blocks_validation (next : FieldMeta) : Prop :=
  visible next = Some false ∨ validate next = Some false.

(** The [enabled] flag the pass's meta patch holds for [k], if any. *)
Definition patch_enabled (conditions : list ConditionRule) (s : Store.t)
    (k : string) : option bool :=
  obj_lookup (meta_patch conditions s) k ≫= Engine.e_enabled.

(** The field is disabled: its meta has [enabled: false]. *)
Definition is_disabled (m : option FieldMeta) : Prop :=
  m ≫= enabled = Some false.

(** The value patch of the pass. *)
Definition value_patch (conditions : list ConditionRule) (s : Store.t)
    : JsObject jsval :=
  Engine.desiredValues (Engine.evaluateConditions (api.getValues s) conditions).

(** The graph after linking the pairs [(from, to)] of [links] in order. *)
Definition linked (links : list (string * string)) : Graph.DependencyGraph :=
  foldl (λ g e, Graph.linkDependency g e.1 e.2) Graph.createDependencyGraph links.

(** Since the store was [s], the notifier has been called at least with
    [n]: the log of [s'] is the log of [s] followed by calls among which
    [n] is. *)
Definition notified_since (s : Store.t) (n : Store.Notification)
    (s' : Store.t) : Prop :=
  ∃ calls, Store.notified s' = Store.notified s ++ calls ∧ n ∈ calls.

(** The patch a list of effects builds, from the empty patch. *)
Definition effects_patch (values : FieldValueMap)
    (effects : list ConditionEffect) : Engine.Patches :=
  foldl (λ acc effect, Engine.applyEffect effect values acc)
    (Engine.mkPatches [] []) effects.

(** Whatever the values, the rules end with [f] shown. *)
Definition always_shows (conditions : list ConditionRule) (f : string) : Prop :=
  ∀ values,
    obj_lookup (Engine.meta (Engine.evaluateConditions values conditions)) f
      ≫= Engine.e_visible = Some true.

(** A call of the notifier that a pass may make: [notifyMeta] and
    [notifyError] of any field, and [notifyValue] of a field for which the
    value patch of the pass holds a value that the store's value is not
    [===] to. *)
Definition pass_call (conditions : list ConditionRule) (s : Store.t)
    (c : Store.Notification) : Prop :=
  match c with
  | Store.notifyValue k =>
      ∃ v, obj_lookup (value_patch conditions s) k = Some v
           ∧ strict_eq (api.getValue s k) v = false
  | Store.notifyAll => False
  | Store.notifyError _ | Store.notifyMeta _ => True
  end.

(** The calls of the notifier since the store was [s] all satisfy [P]. *)
Definition calls_since (s s' : Store.t) (P : Store.Notification → Prop) : Prop :=
  ∃ calls, Store.notified s' = Store.notified s ++ calls ∧ Forall P calls.

(** [notifyMeta] and [notifyError]. *)
Definition meta_call (c : Store.Notification) : Prop :=
  match c with
  | Store.notifyError _ | Store.notifyMeta _ => True
  | _ => False
  end.

(** The README's example of flat storage: the fields ["user.name"],
    ["user.address.street"] and ["user.address.city"] are registered,
    ["user"] and ["user.address"] are not; and the rule
    [when(() => true).hide("user")]. *)
Definition user_store : Store.t :=
  api.register "user.address.city" (VString "NYC")
    (api.register "user.address.street" (VString "123 Main")
       (api.register "user.name" (VString "John") Store.createFormStore)).

Definition hide_user_rules : list ConditionRule :=
  [ mkRule (λ _, true) [Hide "user"] None ].

(** The names every plain object inherits from [Object.prototype]: for
    these [key in object] holds of an object without own keys. *)
Definition Object_prototype_names : list string :=
  [ "constructor"; "__proto__"; "hasOwnProperty"; "isPrototypeOf";
    "propertyIsEnumerable"; "toLocaleString"; "toString"; "valueOf";
    "__defineGetter__"; "__defineSetter__"; "__lookupGetter__";
    "__lookupSetter__" ].

(** No effect of the rules names the field ["__proto__"]: an assignment
    to that key of a plain object sets the object's prototype and creates
    no key. *)
Definition writes_no_proto (rules : list ConditionRule) : Prop :=
  ∀ rule e, rule ∈ rules → e ∈ effects rule → effect_field e ≠ "__proto__".

(** A property name for which the proxy of [createFieldOf] extends the
    path: for ["toString"] and ["valueOf"] its [get] trap returns a
    function instead. *)
Definition extends_path (p : string) : Prop :=
  p ≠ "toString" ∧ p ≠ "valueOf".

(** Nothing was stored under ["__proto__"]: the objects holding the values
    and the meta have the prototype they were created with, so that
    [key in store.values] and [store.meta[key]] see an own key or a name of
    [Object.prototype]. *)
Definition no_proto_entry (s : Store.t) : Prop :=
  ("__proto__" ∉ obj_keys (Store.values s)) ∧ Store.meta s !! "__proto__" = None.

(* ================================================================== *)
(** * Properties *)
(* ================================================================== *)

(** ** Objects as association lists *)

Section JsObjectFacts.
Context {A : Type}.
Implicit Types (o : JsObject A) (k : string) (v : A).

Lemma obj_lookup_set_eq o k v : obj_lookup (obj_set o k v) k = Some v.
Proof.
  induction o as [|[k' v'] o IH]; simpl.
  - by rewrite String.eqb_refl.
  - destruct (String.eqb k' k) eqn:E; simpl; rewrite E; [done | exact IH].
Qed.

Lemma obj_lookup_set_ne o k k' v :
  k ≠ k' → obj_lookup (obj_set o k v) k' = obj_lookup o k'.
Proof.
  intros Hne. induction o as [|[k0 v0] o IH]; simpl.
  - by apply String.eqb_neq in Hne as ->.
  - destruct (String.eqb k0 k) eqn:E; simpl.
    + apply String.eqb_eq in E as ->.
      by apply String.eqb_neq in Hne as ->.
    + by rewrite IH.
Qed.

Lemma obj_lookup_None o k : obj_lookup o k = None ↔ k ∉ obj_keys o.
Proof.
  induction o as [|[k' v'] o IH]; simpl.
  - split; [intros _; apply not_elem_of_nil | done].
  - rewrite not_elem_of_cons. destruct (String.eqb_spec k' k) as [->|Hne].
    + split; [done | intros [? _]; done].
    + rewrite IH. naive_solver.
Qed.

Lemma obj_lookup_Some_key o k v : obj_lookup o k = Some v → k ∈ obj_keys o.
Proof.
  intros H. destruct (decide (k ∈ obj_keys o)) as [|Hn]; [done|].
  apply obj_lookup_None in Hn. congruence.
Qed.

Lemma obj_keys_set o k v :
  obj_keys (obj_set o k v) =
  if bool_decide (k ∈ obj_keys o) then obj_keys o else obj_keys o ++ [k].
Proof.
  induction o as [|[k' v'] o IH]; simpl; [done|].
  destruct (String.eqb_spec k' k) as [->|Hne]; simpl.
  - rewrite bool_decide_eq_true_2; [done | left].
  - rewrite IH. destruct (decide (k ∈ obj_keys o)) as [Hin|Hin].
    + rewrite !bool_decide_eq_true_2; [done | by right | done].
    + rewrite !bool_decide_eq_false_2; [done | | done].
      rewrite not_elem_of_cons. naive_solver.
Qed.

Lemma obj_keys_set_elem o k v k' :
  k' ∈ obj_keys (obj_set o k v) ↔ k' = k ∨ k' ∈ obj_keys o.
Proof.
  rewrite obj_keys_set. case_bool_decide.
  - naive_solver.
  - rewrite elem_of_app, list_elem_of_singleton. naive_solver.
Qed.

End JsObjectFacts.

Lemma set_add_elem (s : list string) x y : y ∈ set_add s x ↔ y = x ∨ y ∈ s.
Proof.
  unfold set_add. case_bool_decide.
  - naive_solver.
  - rewrite elem_of_app, list_elem_of_singleton. naive_solver.
Qed.

Lemma set_add_NoDup (s : list string) x : NoDup s → NoDup (set_add s x).
Proof.
  intros Hs. unfold set_add. case_bool_decide; [done|].
  apply NoDup_app. split_and!; [done | | apply NoDup_singleton].
  intros y Hy Hy'. apply list_elem_of_singleton in Hy' as ->. done.
Qed.

Lemma foldl_set_add_elem (l s : list string) y :
  y ∈ foldl set_add s l ↔ y ∈ s ∨ y ∈ l.
Proof.
  revert s. induction l as [|x l IH]; intros s; simpl.
  - rewrite elem_of_nil. naive_solver.
  - rewrite IH, set_add_elem, elem_of_cons. naive_solver.
Qed.

Lemma foldl_set_add_NoDup (l s : list string) :
  NoDup s → NoDup (foldl set_add s l).
Proof.
  revert s. induction l as [|x l IH]; intros s Hs; simpl; [done|].
  by apply IH, set_add_NoDup.
Qed.

(** ** The evaluator *)

Section EngineFacts.
Import Engine.

Lemma insert_sorted_elem r l x : x ∈ insert_sorted r l ↔ x = r ∨ x ∈ l.
Proof.
  induction l as [|y l IH]; simpl.
  - rewrite list_elem_of_singleton, elem_of_nil. naive_solver.
  - destruct (PrimFloat.ltb 0 (compareFn r y)).
    + rewrite !elem_of_cons, IH. naive_solver.
    + rewrite !elem_of_cons. naive_solver.
Qed.

Lemma sort_elem l x : x ∈ sort l ↔ x ∈ l.
Proof.
  induction l as [|y l IH]; simpl; [done|].
  rewrite insert_sorted_elem, elem_of_cons, IH. naive_solver.
Qed.

(** Two rules, one of priority 10 and one of priority 5, are processed
    in that order whatever their declaration order. *)
Lemma sort_10_5 hi lo :
  priority hi = Some 10%float → priority lo = Some 5%float →
  sort [hi; lo] = [hi; lo] ∧ sort [lo; hi] = [hi; lo].
Proof.
  intros Hhi Hlo. unfold sort; simpl. unfold compareFn.
  rewrite Hhi, Hlo. simpl. done.
Qed.

Lemma applyEffect_freeze values e acc :
  applyEffect (freeze_effect values e) values acc = applyEffect e values acc.
Proof. destruct e as [| | | |field [v|f]|]; reflexivity. Qed.

Lemma applyRule_freeze values acc r :
  applyRule values acc (freeze_rule values r) = applyRule values acc r.
Proof.
  unfold applyRule, freeze_rule; simpl. destruct (when r values); [|done].
  revert acc. induction (effects r) as [|e es IH]; intros acc; simpl; [done|].
  by rewrite applyEffect_freeze, IH.
Qed.

Lemma insert_sorted_freeze values r l :
  insert_sorted (freeze_rule values r) (map (freeze_rule values) l)
  = map (freeze_rule values) (insert_sorted r l).
Proof.
  induction l as [|x l IH]; simpl; [done|].
  change (compareFn (freeze_rule values r) (freeze_rule values x))
    with (compareFn r x).
  destruct (PrimFloat.ltb 0 (compareFn r x)); simpl; [by rewrite IH | done].
Qed.

Lemma sort_freeze values l :
  sort (map (freeze_rule values) l) = map (freeze_rule values) (sort l).
Proof.
  induction l as [|x l IH]; simpl; [done|].
  by rewrite IH, insert_sorted_freeze.
Qed.

Lemma evaluateConditions_freeze values rules :
  evaluateConditions values (map (freeze_rule values) rules)
  = evaluateConditions values rules.
Proof.
  unfold evaluateConditions. rewrite sort_freeze.
  generalize (mkPatches [] []). induction (sort rules) as [|r l IH];
    intros acc; simpl; [done|].
  by rewrite applyRule_freeze, IH.
Qed.



End EngineFacts.

(** C1.  A rule of priority 10 showing [f] and a rule of priority 5 hiding
    [f], both with a predicate that holds: in either declaration order the
    evaluator's [meta] entry for [f] is the one of the priority-5 rule
    ([visible: false]); the priority-10 rule is applied first and is
    overwritten.  Likewise for two [set] effects on [f]: the value patch
    holds the value of the priority-5 rule. *)
Theorem C1_lower_priority_overwrites
    (values : FieldValueMap) (f : string) (x y : jsval) :
  let hi := mkRule (λ _, true) [Show f] (Some 10%float) in
  let lo := mkRule (λ _, true) [Hide f] (Some 5%float) in
  let hi' := mkRule (λ _, true) [SetTo f (Literal x)] (Some 10%float) in
  let lo' := mkRule (λ _, true) [SetTo f (Literal y)] (Some 5%float) in
  Engine.meta (Engine.evaluateConditions values [hi; lo])
    = [(f, Engine.mkEntry (Some false) None)]
  ∧ Engine.meta (Engine.evaluateConditions values [lo; hi])
    = [(f, Engine.mkEntry (Some false) None)]
  ∧ Engine.desiredValues (Engine.evaluateConditions values [hi'; lo']) = [(f, y)]
  ∧ Engine.desiredValues (Engine.evaluateConditions values [lo'; hi']) = [(f, y)].
Proof.
  intros hi lo hi' lo'. unfold Engine.evaluateConditions.
  destruct (sort_10_5 hi lo eq_refl eq_refl) as [-> ->].
  destruct (sort_10_5 hi' lo' eq_refl eq_refl) as [-> ->].
  cbn -[String.eqb]. rewrite String.eqb_refl. done.
Qed.

(** C5.  The result of [evaluateConditions] is the one obtained when every
    effect function is replaced beforehand by its value on the input map:
    the functions see the input [values] only.  A function reading ["a"]
    after a [set] of ["a"] in the same rule gets the input's ["a"].  The
    discount rule gives [total = 180] on [{qty: 20, price: 10}] and no
    [total] entry on [{qty: 5, price: 10}]. *)
Theorem C5_set_functions_read_the_input_values :
  (∀ values rules,
     Engine.evaluateConditions values (map (freeze_rule values) rules)
     = Engine.evaluateConditions values rules)
  ∧ (∀ values x,
       obj_lookup
         (Engine.desiredValues
            (Engine.evaluateConditions values
               [mkRule (λ _, true)
                  [SetTo "a" (Literal x);
                   SetTo "b" (Computed (λ v, obj_get v "a"))] None])) "b"
       = Some (obj_get values "a"))
  ∧ Engine.desiredValues
      (Engine.evaluateConditions
         [("qty", VNumber 20); ("price", VNumber 10)] discount_rules)
    = [("total", VNumber 180)]
  ∧ obj_lookup
      (Engine.desiredValues
         (Engine.evaluateConditions
            [("qty", VNumber 5); ("price", VNumber 10)] discount_rules)) "total"
    = None.
Proof.
  split_and!.
  - apply evaluateConditions_freeze.
  - intros values x. reflexivity.
  - reflexivity.
  - reflexivity.
Qed.

(** ** The builders *)

Section DslFacts.
Import Dsl.

Lemma read_alloc_old (h : heap) arr l :
  l < List.length h → read (alloc h arr).2 l = read h l.
Proof. intros Hl. unfold read, alloc. cbn [snd]. by rewrite lookup_app_l. Qed.

Lemma read_alloc_new (h : heap) arr : read (alloc h arr).2 (alloc h arr).1 = arr.
Proof.
  unfold read, alloc. cbn [fst snd].
  rewrite lookup_app_r by lia. by rewrite Nat.sub_diag.
Qed.

Lemma read_push_eq (h : heap) l e :
  l < List.length h → read (push h l e) l = read h l ++ [e].
Proof. intros Hl. unfold push, read at 1. by rewrite list_lookup_insert_eq. Qed.

Lemma read_push_ne (h : heap) l l' e : l ≠ l' → read (push h l e) l' = read h l'.
Proof. intros Hl. unfold push, read at 1. by rewrite list_lookup_insert_ne. Qed.

Lemma then_append_spec c b h :
  EffectBuilder.append c b h
  = EffectBuilder.extended b (appended_effect (EffectBuilder.getField b) c) h.
Proof. by destruct c. Qed.

Lemma else_append_spec c b h :
  ElseEffectBuilder.append c b h
  = ElseEffectBuilder.pushed b (appended_effect (ElseEffectBuilder.getField b) c) h.
Proof. by destruct c. Qed.

Lemma call_then_whenFn c bh :
  EffectBuilder.whenFn (call_then c bh).1 = EffectBuilder.whenFn bh.1.
Proof. destruct c as [a|n]; simpl; [by rewrite then_append_spec | done]. Qed.

Lemma chain_then_whenFn cs bh :
  EffectBuilder.whenFn (chain_then cs bh).1 = EffectBuilder.whenFn bh.1.
Proof.
  unfold chain_then. revert bh.
  induction cs as [|c cs IH]; intros bh; simpl; [done|].
  by rewrite IH, call_then_whenFn.
Qed.

Lemma call_else_whenFn c bh :
  ElseEffectBuilder.whenFn (call_else c bh).1 = ElseEffectBuilder.whenFn bh.1.
Proof. destruct c as [a|n]; simpl; [by rewrite else_append_spec | done]. Qed.

Lemma chain_else_whenFn ds bh :
  ElseEffectBuilder.whenFn (chain_else ds bh).1 = ElseEffectBuilder.whenFn bh.1.
Proof.
  unfold chain_else. revert bh.
  induction ds as [|d ds IH]; intros bh; simpl; [done|].
  by rewrite IH, call_else_whenFn.
Qed.

End DslFacts.

(** C2.  [when(P).cs.else().ds.toRules()], for any chains [cs] and [ds] of
    effect appends and [withPriority] calls, yields exactly two rules: they
    have the same priority, the first holds where [Boolean(P(values))]
    does, the second is its negation; on any [values] the evaluator leaves
    its patches untouched for one of the two, and no field is triggered by
    both. *)
Theorem C2_else_yields_two_negated_rules
    (predicate : FieldValueMap → jsval) (cs ds : list Dsl.Call) (h : Dsl.heap) :
  ∃ r1 r2,
    else_rules predicate cs ds h = [r1; r2]
    ∧ priority r1 = priority r2
    ∧ (∀ values, when r1 values = ToBoolean (predicate values))
    ∧ (∀ values, when r2 values = negb (when r1 values))
    ∧ (∀ values acc,
         Engine.applyRule values acc r1 = acc ∨ Engine.applyRule values acc r2 = acc)
    ∧ (∀ values f,
         f ∈ triggered_fields r1 values → f ∉ triggered_fields r2 values).
Proof.
  unfold else_rules.
  set (bh := Dsl.chain_then cs (Dsl.when_ predicate h)).
  set (eh := Dsl.chain_else ds (Dsl.else_ bh.1 bh.2)).
  assert (Hw : Dsl.ElseEffectBuilder.whenFn eh.1
               = λ values, ToBoolean (predicate values)).
  { unfold eh. rewrite chain_else_whenFn. unfold Dsl.else_; simpl.
    unfold bh. by rewrite chain_then_whenFn. }
  simpl. eexists _, _. split; [reflexivity|]. simpl.
  rewrite Hw. unfold Dsl.invertWhen, Engine.applyRule, triggered_fields; simpl.
  split_and!; try done.
  - intros values acc. destruct (ToBoolean (predicate values)); simpl; auto.
  - intros values f. destruct (ToBoolean (predicate values)); simpl.
    + intros _. apply not_elem_of_nil.
    + intros Hf. by apply elem_of_nil in Hf.
Qed.

(** C6, as stated, fails for the builder [else()] returns: [show] on it
    returns the same builder, and [toRules()] of that builder yields a
    second rule without effects before the call and with [show "x"] after
    it. *)
Lemma C6_else_builder_is_mutated :
  let bh := Dsl.when_ (λ _, VBool true) [] in
  let eh := Dsl.else_ bh.1 bh.2 in
  let eh' := Dsl.ElseEffectBuilder.show eh.1 (Dsl.FieldName "x") eh.2 in
  eh'.1 = eh.1
  ∧ map effects (else_rules_in eh.2 eh.1) = [[]; []]
  ∧ map effects (else_rules_in eh'.2 eh.1) = [[]; [Show "x"]]
  ∧ else_rules_in eh'.2 eh.1 ≠ else_rules_in eh.2 eh.1.
Proof.
  split_and!; [reflexivity | reflexivity | reflexivity |].
  intros H. apply (f_equal (map effects)) in H. discriminate H.
Qed.

(** C6, amended.  An effect-appending method of an [EffectBuilder] returns
    a builder whose effects are a new array, the old effects followed by
    the new one; no array that existed is changed, and [toRules()] of the
    original builder yields the same rules before and after.  The same
    method of an [ElseEffectBuilder] returns the builder it was called on
    and pushes the effect on that builder's [elseEffects] array, leaving
    every other array as it was. *)
Theorem C6_appending_copies_then_and_pushes_else
    (b : Dsl.EffectBuilder.t) (e : Dsl.ElseEffectBuilder.t)
    (c : Dsl.Append) (h : Dsl.heap) :
  Dsl.EffectBuilder.effects b < List.length h →
  Dsl.ElseEffectBuilder.elseEffects e < List.length h →
  let bh' := Dsl.EffectBuilder.append c b h in
  let eh' := Dsl.ElseEffectBuilder.append c e h in
  then_rules_in bh'.2 b = then_rules_in h b
  ∧ (∀ l, l < List.length h → Dsl.read bh'.2 l = Dsl.read h l)
  ∧ map effects (then_rules_in bh'.2 bh'.1)
    = [Dsl.read h (Dsl.EffectBuilder.effects b)
       ++ [appended_effect (Dsl.EffectBuilder.getField b) c]]
  ∧ eh'.1 = e
  ∧ Dsl.read eh'.2 (Dsl.ElseEffectBuilder.elseEffects e)
    = Dsl.read h (Dsl.ElseEffectBuilder.elseEffects e)
      ++ [appended_effect (Dsl.ElseEffectBuilder.getField e) c]
  ∧ (∀ l, l ≠ Dsl.ElseEffectBuilder.elseEffects e →
          Dsl.read eh'.2 l = Dsl.read h l).
Proof.
  intros Hb He bh' eh'. subst bh' eh'.
  rewrite then_append_spec, else_append_spec.
  unfold Dsl.EffectBuilder.extended, Dsl.ElseEffectBuilder.pushed,
    then_rules_in, Dsl.rule_in.
  set (arr := Dsl.read h (Dsl.EffectBuilder.effects b) ++ _).
  pose proof (read_alloc_old h arr) as Hold.
  pose proof (read_alloc_new h arr) as Hnew.
  destruct (Dsl.alloc h arr) as [l h'] eqn:Ha. simpl in *.
  split_and!.
  - by rewrite Hold.
  - exact Hold.
  - by rewrite Hnew.
  - done.
  - by apply read_push_eq.
  - intros l' Hl'. by apply read_push_ne.
Qed.

Lemma C6_appending_witness :
  let bh := Dsl.when_ (λ _, VBool true) [] in
  let eh := Dsl.else_ bh.1 bh.2 in
  let c := Dsl.show_ (Dsl.FieldName "x") in
  Dsl.EffectBuilder.effects bh.1 < List.length eh.2
  ∧ Dsl.ElseEffectBuilder.elseEffects eh.1 < List.length eh.2
  ∧ then_rules_in (Dsl.EffectBuilder.append c bh.1 eh.2).2 bh.1
    = then_rules_in eh.2 bh.1.
Proof.
  intros bh eh c.
  assert (Hb : Dsl.EffectBuilder.effects bh.1 < List.length eh.2)
    by (vm_compute; lia).
  assert (He : Dsl.ElseEffectBuilder.elseEffects eh.1 < List.length eh.2)
    by (vm_compute; lia).
  split_and!; [exact Hb | exact He |].
  exact (proj1 (C6_appending_copies_then_and_pushes_else bh.1 eh.1 c eh.2 Hb He)).
Defined.

(** ** [traceReads] *)

Section GraphFacts.
Import Graph.

Lemma call_reads fn target reads0 :
  NoDup reads0 →
  NoDup (call fn target reads0).2
  ∧ ∀ k, k ∈ (call fn target reads0).2
         ↔ k ∈ reads0 ∨ StringKey k ∈ property_reads fn target.
Proof.
  revert reads0. induction fn as [v|e|prop k IH]; intros reads0 Hnd; simpl.
  - split; [done|]. intros k. rewrite elem_of_nil. naive_solver.
  - split; [done|]. intros k. rewrite elem_of_nil. naive_solver.
  - destruct prop as [s|d]; simpl.
    + destruct (IH (obj_get target s) (set_add reads0 s)) as [Hn He];
        [by apply set_add_NoDup|].
      split; [done|]. intros k'. rewrite He, set_add_elem, elem_of_cons.
      naive_solver.
    + destruct (IH VUndefined reads0 Hnd) as [Hn He].
      split; [done|]. intros k'. rewrite He, elem_of_cons. naive_solver.
Qed.

End GraphFacts.

(** C9.  [traceReads] completes normally for every callback and value map,
    also when the callback throws; the set it returns holds exactly the
    string keys the callback read from the map before it returned or
    threw, each once. *)
Theorem C9_traceReads_returns_the_keys_read
    (fn : Graph.Callback) (values : FieldValueMap) :
  ∃ reads,
    Graph.traceReads fn values = Graph.Normal reads
    ∧ NoDup reads
    ∧ ∀ k, k ∈ reads ↔ Graph.StringKey k ∈ Graph.property_reads fn values.
Proof.
  unfold Graph.traceReads.
  destruct (call_reads fn values [] (NoDup_nil_2)) as [Hn He].
  destruct (Graph.call fn values []) as [result reads]; simpl in *.
  exists reads. split_and!.
  - by destruct result.
  - done.
  - intros k. rewrite He, elem_of_nil. naive_solver.
Qed.

(** ** The store *)

Section StoreFacts.
Import Store.

Lemma spread_idem a p : spread (spread a p) p = spread a p.
Proof.
  destruct a as [va la ea], p as [[?|] [?|] [?|]]; reflexivity.
Qed.

Lemma spread_visible a p x : visible p = Some x → visible (spread a p) = Some x.
Proof. unfold spread; simpl. by intros ->. Qed.

Lemma spread_validate a p x : validate p = Some x → validate (spread a p) = Some x.
Proof. unfold spread; simpl. by intros ->. Qed.

Lemma clear_error_meta key s : meta (clear_error key s) = meta s.
Proof. unfold clear_error. by case_bool_decide. Qed.

Lemma clear_error_values key s : values (clear_error key s) = values s.
Proof. unfold clear_error. by case_bool_decide. Qed.

Lemma clear_error_validation key s : validation (clear_error key s) = validation s.
Proof. unfold clear_error. by case_bool_decide. Qed.

Lemma setMeta_meta name next s :
  meta (metaApi.setMeta name next s)
  = <[name := spread (default defaultMeta (meta s !! name)) next]> (meta s).
Proof.
  unfold metaApi.setMeta.
  repeat (match goal with |- context [if ?c then _ else _] => destruct c end;
          simpl; rewrite ?clear_error_meta; simpl); done.
Qed.

Lemma setMeta_values name next s :
  values (metaApi.setMeta name next s) = values s.
Proof.
  unfold metaApi.setMeta.
  repeat (match goal with |- context [if ?c then _ else _] => destruct c end;
          simpl; rewrite ?clear_error_values; simpl); done.
Qed.

Lemma setMetaIfChanged_values name patch s :
  values (Bridge.setMetaIfChanged name patch s) = values s.
Proof.
  unfold Bridge.setMetaIfChanged.
  destruct (Bridge.metaShallowEqual _ _); [done | apply setMeta_values].
Qed.

Lemma metaShallowEqual_refl m : Bridge.metaShallowEqual m m = true.
Proof. unfold Bridge.metaShallowEqual. by rewrite !bool_decide_eq_true_2. Qed.

Lemma metaShallowEqual_Some a b :
  Bridge.metaShallowEqual (Some a) (Some b) = true → a = b.
Proof.
  unfold Bridge.metaShallowEqual. simpl.
  rewrite !andb_true_iff, !bool_decide_eq_true.
  destruct a, b; simpl. naive_solver.
Qed.

(** What the store holds for [name] after [setMetaIfChanged]. *)
Lemma setMetaIfChanged_lookup name patch s :
  meta (Bridge.setMetaIfChanged name patch s) !! name
  = if Bridge.metaShallowEqual (metaApi.getMeta s name) (Some (merged_meta s name patch))
    then meta s !! name
    else Some (spread (default defaultMeta (meta s !! name)) patch).
Proof.
  unfold Bridge.setMetaIfChanged. fold (merged_meta s name patch).
  destruct (Bridge.metaShallowEqual _ _); [done|].
  by rewrite setMeta_meta, lookup_insert_eq.
Qed.

Lemma setMetaIfChanged_lookup_ne name patch s name' :
  name ≠ name' →
  meta (Bridge.setMetaIfChanged name patch s) !! name' = meta s !! name'.
Proof.
  intros Hne. unfold Bridge.setMetaIfChanged.
  destruct (Bridge.metaShallowEqual _ _); [done|].
  by rewrite setMeta_meta, lookup_insert_ne.
Qed.

(** A key of the patch that is set is what the field holds afterwards. *)
Lemma setMetaIfChanged_visible name patch s x :
  visible patch = Some x →
  meta (Bridge.setMetaIfChanged name patch s) !! name ≫= visible = Some x.
Proof.
  intros Hp. rewrite setMetaIfChanged_lookup.
  destruct (Bridge.metaShallowEqual _ _) eqn:E; simpl.
  - unfold metaApi.getMeta in E. destruct (meta s !! name) as [m|] eqn:Hm.
    + apply metaShallowEqual_Some in E. rewrite E. simpl.
      by apply spread_visible.
    + unfold Bridge.metaShallowEqual, merged_meta, spread in E. simpl in E.
      rewrite Hp in E. by rewrite bool_decide_eq_false_2 in E.
  - by apply spread_visible.
Qed.

Lemma setMetaIfChanged_validate name patch s x :
  validate patch = Some x →
  meta (Bridge.setMetaIfChanged name patch s) !! name ≫= validate = Some x.
Proof.
  intros Hp. rewrite setMetaIfChanged_lookup.
  destruct (Bridge.metaShallowEqual _ _) eqn:E; simpl.
  - unfold metaApi.getMeta in E. destruct (meta s !! name) as [m|] eqn:Hm.
    + apply metaShallowEqual_Some in E. rewrite E. simpl.
      by apply spread_validate.
    + unfold Bridge.metaShallowEqual, merged_meta, spread in E. simpl in E.
      rewrite Hp in E.
      rewrite (bool_decide_eq_false_2 (None = Some x)) in E by done.
      by rewrite andb_false_r in E.
  - by apply spread_validate.
Qed.

Lemma setMetaIfChanged_idem name patch s :
  Bridge.setMetaIfChanged name patch (Bridge.setMetaIfChanged name patch s)
  = Bridge.setMetaIfChanged name patch s.
Proof.
  destruct (Bridge.metaShallowEqual (metaApi.getMeta s name)
              (Some (merged_meta s name patch))) eqn:E.
  - assert (Bridge.setMetaIfChanged name patch s = s) as Hs
      by (unfold Bridge.setMetaIfChanged; fold (merged_meta s name patch);
          by rewrite E).
    by rewrite !Hs.
  - assert (Bridge.setMetaIfChanged name patch s = metaApi.setMeta name patch s)
      as -> by (unfold Bridge.setMetaIfChanged; fold (merged_meta s name patch);
                by rewrite E).
    unfold Bridge.setMetaIfChanged, metaApi.getMeta.
    rewrite setMeta_meta, lookup_insert_eq. simpl.
    by rewrite spread_idem, metaShallowEqual_refl.
Qed.

End StoreFacts.

(** C8.  [setMetaIfChanged] leaves the store as it is, notification log
    included, unless [visible], [enabled] or [validate] of the merged
    record differs from the field's current meta; applying the same patch
    a second time changes nothing: no notification, same stored meta. *)
Theorem C8_meta_write_only_on_change
    (name : string) (patch : FieldMeta) (s : Store.t) :
  let prev := metaApi.getMeta s name in
  let merged := merged_meta s name patch in
  let s1 := Bridge.setMetaIfChanged name patch s in
  (s1 = s
   ∨ prev ≫= visible ≠ visible merged
   ∨ prev ≫= enabled ≠ enabled merged
   ∨ prev ≫= validate ≠ validate merged)
  ∧ Bridge.setMetaIfChanged name patch s1 = s1
  ∧ Store.notified (Bridge.setMetaIfChanged name patch s1) = Store.notified s1
  ∧ metaApi.getMeta (Bridge.setMetaIfChanged name patch s1) name
    = metaApi.getMeta s1 name.
Proof.
  intros prev merged s1. subst s1.
  rewrite !setMetaIfChanged_idem. split_and!; try done.
  unfold Bridge.setMetaIfChanged. fold (merged_meta s name patch). fold merged prev.
  destruct (Bridge.metaShallowEqual prev (Some merged)) eqn:E; [by left|].
  right. unfold Bridge.metaShallowEqual in E. simpl in E.
  rewrite !andb_false_iff, !bool_decide_eq_false in E. naive_solver.
Qed.

(** ** Asynchronous validators *)

Section ValidationFacts.
Import Store.


Lemma run_rules_dispatch key value tv rules s0 ret s1 d :
  api.run_rules key value tv rules s0 = (ret, s1, Some d) →
  api.d_key d = key ∧ api.valueAtStart d = value
  ∧ key ∈ pending (validation s1)
  ∧ values s1 = values s0
  ∧ meta s1 = meta s0
  ∧ lastValidatedValue (validation s1) = lastValidatedValue (validation s0).
Proof.
  induction rules as [|rule rest IH]; simpl; [done|].
  destruct (rule value tv) as [|msg|p]; [exact IH | |].
  - destruct (negb (String.eqb msg "")); [done | exact IH].
  - intros [= <- <- <-]. simpl. split_and!; try done. set_solver.
Qed.

Lemma validateField_dispatch key s ret s1 d :
  api.validateField key s = (ret, s1, Some d) →
  api.d_key d = key
  ∧ api.valueAtStart d = obj_get (values s) key
  ∧ strict_eq (lastValidated_get s key) (obj_get (values s) key) = false
  ∧ key ∈ pending (validation s1)
  ∧ values s1 = values s
  ∧ meta s1 = meta s.
Proof.
  unfold api.validateField.
  destruct (negb (isEffectivelyValidatable key (meta s))); [done|].
  destruct (bool_decide (key ∈ pending (validation s))); [done|].
  destruct (validators s !! key) as [[|rule rules]|]; [done | | done].
  destruct (strict_eq _ _) eqn:E; [done|].
  intros Hr. apply run_rules_dispatch in Hr as (? & ? & ? & ? & ? & ?).
  simpl in *. done.
Qed.

Lemma setValue_lastValidated key value s :
  lastValidated_get (api.setValue key value s) key = VUndefined.
Proof.
  unfold api.setValue, lastValidated_get.
  repeat (case_match; simpl); by rewrite lookup_delete_eq.
Qed.

End ValidationFacts.

(** The consistency of the last-validated record is kept by the store's
    operations, and holds in a new store. *)
Section LastValidatedInvariant.
Import Store.

Lemma obj_get_set_ne (o : FieldValueMap) k k' v :
  k ≠ k' → obj_get (obj_set o k v) k' = obj_get o k'.
Proof. intros Hne. unfold obj_get. by rewrite obj_lookup_set_ne. Qed.

Lemma consistent_createFormStore : lastValidated_consistent createFormStore.
Proof. intros key v. simpl. by rewrite lookup_empty. Qed.

Lemma consistent_same s s' :
  values s' = values s →
  (∀ key v, lastValidatedValue (validation s') !! key = Some v →
            lastValidatedValue (validation s) !! key = Some v) →
  lastValidated_consistent s → lastValidated_consistent s'.
Proof. intros Hv Hl Hc key v H. rewrite Hv. apply Hc, Hl, H. Qed.

Lemma consistent_register name init s :
  lastValidated_consistent s → lastValidated_consistent (api.register name init s).
Proof.
  intros Hc. destruct (obj_lookup (values s) name) as [x|] eqn:Hx.
  - unfold api.register, api.has_key. by rewrite Hx.
  - assert (Hvals : values (api.register name init s)
                    = obj_set (values s) name init).
    { unfold api.register, api.has_key. rewrite Hx. simpl.
      repeat (case_match; simpl); done. }
    assert (Hlv : lastValidatedValue (validation (api.register name init s))
                  = lastValidatedValue (validation s)).
    { unfold api.register, api.has_key. rewrite Hx. simpl.
      repeat (case_match; simpl); done. }
    intros key v Hl. rewrite Hlv in Hl. rewrite Hvals.
    destruct (Hc _ _ Hl) as [Hv1 Hv2]. split; [done|].
    assert (Hne : name ≠ key).
    { intros ->. unfold obj_get in Hv2. rewrite Hx in Hv2. simpl in Hv2.
      congruence. }
    by rewrite obj_get_set_ne.
Qed.

Lemma consistent_setValue name value s :
  lastValidated_consistent s → lastValidated_consistent (api.setValue name value s).
Proof.
  intros Hc key v Hl.
  assert (Hl' : delete name (lastValidatedValue (validation s)) !! key = Some v)
    by (revert Hl; unfold api.setValue; repeat (case_match; simpl); done).
  assert (Hvals : values (api.setValue name value s) = obj_set (values s) name value)
    by (unfold api.setValue; repeat (case_match; simpl); done).
  apply lookup_delete_Some in Hl' as [Hne Hl'].
  destruct (Hc _ _ Hl') as [Hv1 Hv2]. split; [done|].
  rewrite Hvals. by rewrite obj_get_set_ne.
Qed.

Lemma obj_lookup_delete_ne {A} (o : JsObject A) k k' :
  k ≠ k' → obj_lookup (obj_delete o k) k' = obj_lookup o k'.
Proof.
  intros Hne. induction o as [|[k0 v0] o IH]; simpl; [done|].
  destruct (String.eqb_spec k0 k) as [->|Hk]; simpl.
  - by apply String.eqb_neq in Hne as ->.
  - by rewrite IH.
Qed.

Lemma consistent_unregister name s :
  lastValidated_consistent s → lastValidated_consistent (api.unregister name s).
Proof.
  intros Hc key v Hl.
  assert (Hl' : delete name (lastValidatedValue (validation s)) !! key = Some v)
    by (revert Hl; unfold api.unregister; repeat (case_match; simpl); done).
  assert (Hvals : values (api.unregister name s) = obj_delete (values s) name)
    by (unfold api.unregister; repeat (case_match; simpl); done).
  apply lookup_delete_Some in Hl' as [Hne Hl'].
  destruct (Hc _ _ Hl') as [Hv1 Hv2]. split; [done|].
  rewrite Hvals. unfold obj_get. by rewrite obj_lookup_delete_ne.
Qed.

Lemma consistent_reset next s : lastValidated_consistent (api.reset next s).
Proof. intros key v. simpl. by rewrite lookup_empty. Qed.

Lemma consistent_setValidators name vs s :
  lastValidated_consistent s →
  lastValidated_consistent (api.setValidators name vs s).
Proof.
  apply consistent_same; [done|]. simpl. intros key v Hl.
  by apply lookup_delete_Some in Hl as [_ Hl].
Qed.

Lemma consistent_setMeta name next s :
  lastValidated_consistent s → lastValidated_consistent (metaApi.setMeta name next s).
Proof.
  apply consistent_same; [apply setMeta_values|].
  intros key v. unfold metaApi.setMeta.
  repeat (match goal with |- context [if ?c then _ else _] => destruct c end;
          simpl; rewrite ?clear_error_validation; simpl);
    rewrite ?lookup_delete_Some; naive_solver.
Qed.

Lemma consistent_resolved d msg s :
  lastValidated_consistent s → lastValidated_consistent (api.resolved d msg s).
Proof.
  apply consistent_same; unfold api.resolved; repeat (case_match; simpl); done.
Qed.

Lemma run_rules_frame key value tv rules s0 :
  values (api.run_rules key value tv rules s0).1.2 = values s0
  ∧ lastValidatedValue (validation (api.run_rules key value tv rules s0).1.2)
    = lastValidatedValue (validation s0).
Proof.
  induction rules as [|rule rest IH]; simpl.
  - by rewrite clear_error_values, clear_error_validation.
  - repeat (case_match; simpl); done.
Qed.

Lemma consistent_validateField name s :
  lastValidated_consistent s →
  lastValidated_consistent (api.validateField name s).1.2.
Proof.
  intros Hc. unfold api.validateField.
  destruct (negb (isEffectivelyValidatable name (meta s))); cbn [fst snd].
  { revert Hc. apply consistent_same;
      [by rewrite clear_error_values | rewrite clear_error_validation; simpl].
    intros key v Hl. by apply lookup_delete_Some in Hl as [_ Hl]. }
  destruct (bool_decide (name ∈ pending (validation s))); [done|].
  destruct (validators s !! name) as [[|rule rules]|]; cbn [fst snd].
  - revert Hc. apply consistent_same;
      [by rewrite clear_error_values | by rewrite clear_error_validation].
  - destruct (strict_eq _ _) eqn:E; [done|].
    destruct (run_rules_frame name (obj_get (values s) name) (values s)
                (rule :: rules)
                (lastValidated_set name (obj_get (values s) name) s)) as [Hv Hl].
    intros key v Hk. rewrite Hl in Hk. rewrite Hv. simpl in Hk |- *.
    destruct (decide (name = key)) as [->|Hne].
    + rewrite lookup_insert_eq in Hk. injection Hk as <-. split; [|done].
      intros Hu. rewrite Hu in E. unfold lastValidated_get in E.
      destruct (lastValidatedValue (validation s) !! key) as [w|] eqn:Hw; [|done].
      destruct (Hc _ _ Hw). congruence.
    + rewrite lookup_insert_ne in Hk by done. by apply Hc.
  - revert Hc. apply consistent_same;
      [by rewrite clear_error_values | by rewrite clear_error_validation].
Qed.

End LastValidatedInvariant.

Section StoreTraces.
Import Store.

Lemma consistent_apply_ops ops :
  ∀ s, lastValidated_consistent s → lastValidated_consistent (apply_ops s ops).
Proof.
  unfold apply_ops. induction ops as [|op ops IH]; intros s Hc; simpl; [done|].
  apply IH. destruct op; simpl.
  - by apply consistent_register.
  - by apply consistent_unregister.
  - by apply consistent_setValue.
  - by apply consistent_setValidators.
  - by apply consistent_validateField.
  - by apply consistent_resolved.
  - by apply consistent_reset.
  - by apply consistent_setMeta.
Qed.

Lemma validateField_lastValidated_other name key s :
  name ≠ key →
  lastValidatedValue (validation (api.validateField name s).1.2) !! key
  = lastValidatedValue (validation s) !! key.
Proof.
  intros Hne. unfold api.validateField.
  destruct (negb (isEffectivelyValidatable name (meta s))); cbn [fst snd].
  { rewrite clear_error_validation. simpl. by rewrite lookup_delete_ne. }
  destruct (bool_decide (name ∈ pending (validation s))); [done|].
  destruct (validators s !! name) as [[|rule rules]|]; cbn [fst snd];
    rewrite ?clear_error_validation; try done.
  destruct (strict_eq _ _); [done|].
  destruct (run_rules_frame name (obj_get (values s) name) (values s)
              (rule :: rules)
              (lastValidated_set name (obj_get (values s) name) s)) as [_ ->].
  simpl. by rewrite lookup_insert_ne.
Qed.

(** No call other than [validateField] on the field itself brings back
    the field's last-validated record. *)
Lemma apply_op_keeps_unvalidated key op s :
  op ≠ OpValidateField key →
  lastValidatedValue (validation s) !! key = None →
  lastValidatedValue (validation (apply_op s op)) !! key = None.
Proof.
  intros Hop Hn. destruct op as [name v|name|name v|name vs|name|d msg|next|name next];
    simpl.
  - unfold api.register. repeat (case_match; simpl); done.
  - unfold api.unregister. repeat (case_match; simpl);
      rewrite lookup_delete_None; by right.
  - unfold api.setValue. repeat (case_match; simpl);
      rewrite lookup_delete_None; by right.
  - rewrite lookup_delete_None; by right.
  - rewrite validateField_lastValidated_other; [done | congruence].
  - unfold api.resolved. repeat (case_match; simpl); done.
  - apply lookup_empty.
  - unfold metaApi.setMeta.
    repeat (match goal with |- context [if ?c then _ else _] => destruct c end;
            simpl; rewrite ?clear_error_validation; simpl);
      rewrite ?lookup_delete_None; auto.
Qed.

Lemma apply_ops_keeps_unvalidated key ops :
  ∀ s, (∀ op, op ∈ ops → op ≠ OpValidateField key) →
       lastValidatedValue (validation s) !! key = None →
       lastValidatedValue (validation (apply_ops s ops)) !! key = None.
Proof.
  unfold apply_ops. induction ops as [|op ops IH]; intros s Hops Hn; simpl; [done|].
  apply IH; [intros op' Hin; apply Hops; by right|].
  apply apply_op_keeps_unvalidated; [apply Hops; left | done].
Qed.


End StoreTraces.





(** ** Dotted paths and the children index *)

Section PathFacts.

Lemma length_append (a b : string) :
  String.length (a +:+ b) = (String.length a + String.length b)%nat.
Proof. induction a as [|c a IH]; simpl; [done | by rewrite IH]. Qed.

Lemma split_dot_nonempty s : split_dot s ≠ [].
Proof.
  destruct s as [|c s]; simpl; [done|].
  destruct (Ascii.eqb c "."); [done|]. by destruct (split_dot s).
Qed.

Lemma join_dot_cons p q r : join_dot (p :: q :: r) = p +:+ "." +:+ join_dot (q :: r).
Proof. reflexivity. Qed.

Lemma join_split s : join_dot (split_dot s) = s.
Proof.
  induction s as [|c s IH]; [done|]. simpl.
  pose proof (split_dot_nonempty s) as Hne.
  destruct (Ascii.eqb_spec c ".") as [->|Hc].
  - destruct (split_dot s) as [|q r]; [done|].
    rewrite join_dot_cons, IH. done.
  - destruct (split_dot s) as [|q r]; [done|].
    destruct r as [|q' r]; simpl in *; [by rewrite IH|].
    by rewrite <- IH.
Qed.

Lemma join_pop_shorter (parts : list string) :
  (2 ≤ List.length parts)%nat →
  (String.length (join_dot (pop parts)) < String.length (join_dot parts))%nat.
Proof.
  unfold pop. induction parts as [|p parts IH]; simpl; [lia|].
  intros Hlen. destruct parts as [|q r]; [simpl in Hlen; lia|].
  destruct r as [|q' r].
  - simpl. rewrite !length_append. simpl. lia.
  - change (removelast (p :: q :: q' :: r)) with (p :: removelast (q :: q' :: r)).
    rewrite join_dot_cons.
    assert (IH' := IH ltac:(simpl; lia)).
    destruct (removelast (q :: q' :: r)) as [|x y] eqn:E.
    + simpl in E. destruct r; discriminate E.
    + rewrite join_dot_cons, !length_append in *. simpl in *. lia.
Qed.

Lemma parentPath_shorter (k : string) :
  parentPath k ≠ "" → (String.length (parentPath k) < String.length k)%nat.
Proof.
  unfold parentPath. destruct (Nat.leb_spec (List.length (split_dot k)) 1); [done|].
  intros _. rewrite <- (join_split k) at 2. apply join_pop_shorter. lia.
Qed.

Lemma max_length_ge (keys : list string) k :
  k ∈ keys → (String.length k ≤ max_length keys)%nat.
Proof.
  induction keys as [|k' keys IH]; simpl.
  - by intros ?%elem_of_nil.
  - intros [->|Hin]%elem_of_cons; [lia|]. specialize (IH Hin). lia.
Qed.

(** The kids the index holds for [p]. *)
Lemma buildChildrenMap_kids keys p kids k :
  Bridge.buildChildrenMap keys !! p = Some kids →
  k ∈ kids ↔ (k ∈ keys ∧ parentPath k = p ∧ p ≠ "").
Proof.
  unfold Bridge.buildChildrenMap.
  assert (Hgen : ∀ (acc : gmap string (list string)) kids,
    foldl (λ next field,
             let p := parentPath field in
             if String.eqb p "" then next
             else match next !! p with
                  | Some arr => <[p := arr ++ [field]]> next
                  | None => <[p := [field]]> next
                  end) acc keys !! p = Some kids →
    k ∈ kids ↔ (k ∈ default [] (acc !! p) ∨ (k ∈ keys ∧ parentPath k = p ∧ p ≠ ""))).
  { induction keys as [|k0 keys IH]; intros acc kids0; simpl.
    - intros ->. simpl. rewrite elem_of_nil. naive_solver.
    - intros H. apply IH in H. rewrite H. clear H IH.
      rewrite elem_of_cons.
      destruct (String.eqb_spec (parentPath k0) "") as [E|E].
      + split; [|naive_solver]. intros [?|(?&?&?)]; [by left|].
        right. split; [|done]. right. done.
      + destruct (decide (parentPath k0 = p)) as [<-|Hp].
        * destruct (acc !! parentPath k0) as [arr|] eqn:Harr;
            rewrite lookup_insert_eq; simpl.
          -- rewrite elem_of_app, list_elem_of_singleton. naive_solver.
          -- rewrite list_elem_of_singleton, elem_of_nil. naive_solver.
        * destruct (acc !! parentPath k0) as [arr|] eqn:Harr;
            rewrite lookup_insert_ne by done; naive_solver. }
  intros H. apply Hgen in H. rewrite H, lookup_empty. simpl.
  rewrite elem_of_nil. naive_solver.
Qed.

Lemma reaches_trans cm x y z : reaches cm x y → reaches cm y z → reaches cm x z.
Proof.
  induction 1 as [|x kids k d Hx Hk _ IH]; [done|].
  intros Hz. eapply reaches_kid; eauto.
Qed.

Lemma reaches_descends keys root d :
  reaches (Bridge.buildChildrenMap keys) root d ↔ descends keys root d.
Proof.
  split.
  - induction 1 as [|x kids k d Hx Hk _ IH]; [constructor|].
    apply (buildChildrenMap_kids _ _ _ k) in Hx. apply Hx in Hk as (Hin & Hp & Hne).
    clear Hx. induction IH as [|d Hd Hpd _ IH2].
    + apply descends_child; [done | by rewrite Hp | rewrite Hp; constructor].
    + by apply descends_child.
  - induction 1 as [|d Hd Hpd _ IH]; [constructor|].
    eapply reaches_trans; [exact IH|].
    destruct (Bridge.buildChildrenMap keys !! parentPath d) as [kids|] eqn:Hk.
    + eapply reaches_kid; [exact Hk | | constructor].
      by apply (buildChildrenMap_kids _ _ _ d Hk).
    + exfalso. revert Hk. unfold Bridge.buildChildrenMap.
      assert (Hgen : ∀ acc : gmap string (list string),
        foldl (λ next field,
                 let p := parentPath field in
                 if String.eqb p "" then next
                 else match next !! p with
                      | Some arr => <[p := arr ++ [field]]> next
                      | None => <[p := [field]]> next
                      end) acc keys !! parentPath d = None →
        acc !! parentPath d = None ∧ d ∉ keys); [|intros H%Hgen; naive_solver].
      clear IH Hd. induction keys as [|k0 keys IH]; intros acc; simpl.
      * intros H. split; [done | apply not_elem_of_nil].
      * intros H. apply IH in H as [Hacc Hnin].
        destruct (String.eqb_spec (parentPath k0) "") as [E|E].
        -- split; [done|]. apply not_elem_of_cons. split; [congruence | done].
        -- destruct (decide (parentPath k0 = parentPath d)) as [Heq|Hneq].
           ++ rewrite Heq in Hacc.
              destruct (acc !! parentPath d);
                by rewrite lookup_insert_eq in Hacc.
           ++ split.
              ** destruct (acc !! parentPath k0);
                   by rewrite lookup_insert_ne in Hacc.
              ** apply not_elem_of_cons. split; [congruence | done].
Qed.

(** The parents of a path form a chain: two nodes from which the walk
    arrives at the same path are one under the other. *)
Lemma descends_chain keys r t x :
  descends keys r x → descends keys t x → descends keys r t ∨ descends keys t r.
Proof.
  induction 1 as [|x Hx Hp Hr IH]; intros Ht; [by right|].
  inversion Ht as [|? Hx' Hp' Ht']; subst.
  - left. by apply descends_child.
  - by apply IH.
Qed.

Lemma reaches_chain keys r t x :
  reaches (Bridge.buildChildrenMap keys) r x →
  reaches (Bridge.buildChildrenMap keys) t x →
  reaches (Bridge.buildChildrenMap keys) r t
  ∨ reaches (Bridge.buildChildrenMap keys) t r.
Proof. rewrite !reaches_descends. apply descends_chain. Qed.

End PathFacts.

(** ** [walkSubtree] *)

Lemma elem_of_rev {A} (l : list A) x : x ∈ rev l ↔ x ∈ l.
Proof. rewrite !list_elem_of_In. symmetry. apply in_rev. Qed.

Section WalkTermination.
Import Store.
Variable cm : gmap string (list string).
Variable bound : nat.
Hypothesis Hcm : index_bounded cm bound.

(** Walking a stack whose top part is [ks] comes, after some number of
    iterations that depends on [ks] only, to the rest of the stack. *)
Lemma walk_top_budget (budget : nat) :
  ∀ ks : list string,
    (∀ x, x ∈ ks → (bound - String.length x ≤ budget)%nat) →
    ∃ n, ∀ visit rest s fuel, ∃ s1,
      Bridge.walk_loop (n + fuel) cm visit (ks ++ rest) s
      = Bridge.walk_loop fuel cm visit rest s1.
Proof.
  induction budget as [|budget IHb].
  - (* every node of [ks] is at the bound: it has no kids *)
    induction ks as [|x ks IH]; intros Hks.
    + exists 0. intros visit rest s fuel. by exists s.
    + destruct IH as [n Hn]; [intros y Hy; apply Hks; by right|].
      exists (S n). intros visit rest s fuel. simpl.
      assert (Hx : (bound - String.length x ≤ 0)%nat) by (apply Hks; left).
      destruct (cm !! x) as [[|k kids]|] eqn:Hk.
      * apply (Hn visit rest (visit x s) fuel).
      * exfalso. destruct (Hcm x (k :: kids) k Hk); [left|]. lia.
      * apply (Hn visit rest (visit x s) fuel).
  - induction ks as [|x ks IH]; intros Hks.
    + exists 0. intros visit rest s fuel. by exists s.
    + destruct IH as [n Hn]; [intros y Hy; apply Hks; by right|].
      destruct (cm !! x) as [kids|] eqn:Hk.
      * destruct (IHb (rev kids)) as [m Hm].
        { intros y Hy. rewrite elem_of_rev in Hy.
          destruct (Hcm x kids y Hk Hy).
          assert (bound - String.length x ≤ S budget)%nat by (apply Hks; left).
          lia. }
        exists (S (m + n)). intros visit rest s fuel. simpl. rewrite Hk.
        destruct (Hm visit (ks ++ rest) (visit x s) (n + fuel)%nat) as [s1 H1].
        destruct (Hn visit rest s1 fuel) as [s2 H3].
        exists s2. rewrite <- Nat.add_assoc, H1. exact H3.
      * exists (S n). intros visit rest s fuel. simpl. rewrite Hk.
        apply (Hn visit rest (visit x s) fuel).
Qed.

(** Enough fuel lets the walk from any root finish. *)
Lemma walk_loop_total root :
  ∃ n, ∀ fuel visit s, (n ≤ fuel)%nat →
    is_Some (Bridge.walk_loop fuel cm visit [root] s).
Proof.
  destruct (walk_top_budget (bound - String.length root) [root]) as [n Hn].
  { intros x ->%list_elem_of_singleton. done. }
  exists n. intros fuel visit s Hle.
  destruct (Hn visit [] s (fuel - n)%nat) as [s1 H1].
  replace (n + (fuel - n))%nat with fuel in H1 by lia.
  change ([root] ++ []) with [root] in H1.
  rewrite H1. by destruct (fuel - n)%nat.
Qed.

End WalkTermination.

Section WalkEffect.
Import Store.
Variable cm : gmap string (list string).
Variable patch : FieldMeta.
Hypothesis Hvis : is_Some (visible patch).
Hypothesis Hval : is_Some (validate patch).

Lemma visit_self f s :
  has_patch patch (meta (Bridge.setMetaIfChanged f patch s) !! f).
Proof.
  destruct Hvis as [xv Hv], Hval as [xl Hl]. unfold has_patch. rewrite Hv, Hl.
  split; [by apply setMetaIfChanged_visible | by apply setMetaIfChanged_validate].
Qed.

(** What a walk changes: a field keeps its meta, or it was reached from
    the stack and holds the patch. *)
Lemma walk_written fuel :
  ∀ stack s s',
    Bridge.walk_loop fuel cm (λ field, Bridge.setMetaIfChanged field patch) stack s
    = Some s' →
    ∀ d, meta s' !! d = meta s !! d
         ∨ (has_patch patch (meta s' !! d) ∧ ∃ x, x ∈ stack ∧ reaches cm x d).
Proof.
  induction fuel as [|fuel IH]; intros [|cur rest] s s'; simpl;
    try (intros [= <-]; by left); try done.
  intros Hw d. destruct (IH _ _ _ Hw d) as [Heq|[Hp (x & Hx & Hr)]].
  - destruct (decide (cur = d)) as [->|Hne].
    + right. split; [rewrite Heq; apply visit_self|].
      exists d. split; [left | constructor].
    + left. by rewrite Heq, setMetaIfChanged_lookup_ne.
  - right. split; [done|].
    destruct (cm !! cur) as [kids|] eqn:Hk.
    + apply elem_of_app in Hx as [Hx|Hx].
      * rewrite elem_of_rev in Hx. exists cur. split; [left|].
        by eapply reaches_kid.
      * exists x. split; [by right | done].
    + exists x. split; [by right | done].
Qed.

(** Every field reached from the stack ends with the patch. *)
Lemma walk_reaches fuel :
  ∀ stack s s',
    Bridge.walk_loop fuel cm (λ field, Bridge.setMetaIfChanged field patch) stack s
    = Some s' →
    ∀ d, (has_patch patch (meta s !! d) ∨ ∃ x, x ∈ stack ∧ reaches cm x d) →
         has_patch patch (meta s' !! d).
Proof.
  induction fuel as [|fuel IH]; intros [|cur rest] s s'; simpl; try done.
  - intros [= <-] d [H|(x & Hx & _)]; [done | by apply elem_of_nil in Hx].
  - intros [= <-] d [H|(x & Hx & _)]; [done | by apply elem_of_nil in Hx].
  - intros Hw d Hd. apply (IH _ _ _ Hw).
    destruct (decide (cur = d)) as [->|Hne]; [left; apply visit_self|].
    destruct Hd as [Hd|(x & Hx & Hr)].
    + left. by rewrite setMetaIfChanged_lookup_ne.
    + right. apply elem_of_cons in Hx as [->|Hx].
      * inversion Hr as [|? kids k ? Hk Hin Hr']; subst; [done|].
        exists k. rewrite Hk. split; [|done].
        apply elem_of_app. left. by rewrite elem_of_rev.
      * exists x. split; [|done].
        destruct (cm !! cur); [apply elem_of_app; by right | done].
Qed.

Lemma walk_values fuel :
  ∀ stack s s',
    Bridge.walk_loop fuel cm (λ field, Bridge.setMetaIfChanged field patch) stack s
    = Some s' →
    values s' = values s.
Proof.
  induction fuel as [|fuel IH]; intros [|cur rest] s s'; simpl; try done;
    try (by intros [= <-]).
  intros Hw. rewrite (IH _ _ _ Hw). apply setMetaIfChanged_values.
Qed.

End WalkEffect.

(** ** The index cache *)

Section CacheFacts.
Import Store.

Lemma same_prefix_eq (keys cached : list string) :
  List.length keys = List.length cached →
  Bridge.same_prefix keys cached = true → keys = cached.
Proof.
  revert cached. induction keys as [|k keys IH]; intros [|c cached]; simpl;
    try done.
  intros [= Hlen]. destruct (String.eqb_spec k c) as [->|]; simpl; [|done].
  intros H. by rewrite (IH _ Hlen H).
Qed.

Lemma cache_ok_mounted : cache_ok Bridge.mounted.
Proof. reflexivity. Qed.

Lemma rebuild_spec s b :
  cache_ok b →
  let b' := Bridge.rebuildChildrenMapIfNeeded s b in
  Bridge.childrenMap b' = Bridge.buildChildrenMap (obj_keys (values s))
  ∧ cache_ok b'
  ∧ Bridge.running b' = Bridge.running b.
Proof.
  intros Hok. unfold Bridge.rebuildChildrenMapIfNeeded, api.getValues.
  destruct (Nat.eqb _ _ && _) eqn:E; simpl; [|done].
  apply andb_true_iff in E as [E1 E2]. apply Nat.eqb_eq in E1.
  rewrite (same_prefix_eq _ _ E1 E2). done.
Qed.

Lemma buildChildrenMap_bounded keys :
  index_bounded (Bridge.buildChildrenMap keys) (max_length keys).
Proof.
  intros p kids k Hp Hk.
  apply (buildChildrenMap_kids _ _ _ k Hp) in Hk as (Hin & <- & Hne).
  split; [by apply parentPath_shorter | by apply max_length_ge].
Qed.

End CacheFacts.

(** ** The cascade *)

Section CascadeFacts.
Import Store.

Lemma cascade_root_effect fuel root b s b' s' :
  cache_ok b →
  Bridge.cascade_root fuel root (b, s) = Some (b', s') →
  let cm := Bridge.buildChildrenMap (obj_keys (values s)) in
  (cache_ok b' ∧ values s' = values s ∧ Bridge.running b' = Bridge.running b)
  ∧ (∀ d, meta s' !! d = meta s !! d
          ∨ (is_hidden (meta s' !! d)
             ∧ meta s !! root ≫= visible = Some false ∧ reaches cm root d)
          ∨ (has_patch Bridge.shown (meta s' !! d)
             ∧ meta s !! root ≫= visible = Some true ∧ reaches cm root d))
  ∧ (meta s !! root ≫= visible = Some false →
     ∀ d, reaches cm root d → is_hidden (meta s' !! d))
  ∧ (meta s !! root ≫= visible = Some true →
     ∀ d, reaches cm root d → has_patch Bridge.shown (meta s' !! d)).
Proof.
  intros Hok. unfold Bridge.cascade_root, Bridge.walkSubtree, metaApi.getMeta.
  cbn [fst snd]. destruct (rebuild_spec s b Hok) as (Hcm & Hok' & Hrun).
  rewrite Hcm. intros H.
  case_bool_decide as Hf; [|case_bool_decide as Ht].
  - destruct (Bridge.walk_loop _ _ _ _ _) as [s1|] eqn:Hw; [|done].
    injection H as <- <-.
    assert (Hv : is_Some (visible Bridge.hidden)) by (by eexists).
    assert (Hl : is_Some (validate Bridge.hidden)) by (by eexists).
    split_and!; try done.
    + by apply walk_values in Hw.
    + intros d. destruct (walk_written _ _ Hv Hl _ _ _ _ Hw d)
        as [?|[Hp (x & ->%list_elem_of_singleton & Hr)]]; [by left|].
      right; left. done.
    + intros _ d Hr. apply (walk_reaches _ _ Hv Hl _ _ _ _ Hw).
      right. exists root. split; [left | done].
    + intros Ht. congruence.
  - destruct (Bridge.walk_loop _ _ _ _ _) as [s1|] eqn:Hw; [|done].
    injection H as <- <-.
    assert (Hv : is_Some (visible Bridge.shown)) by (by eexists).
    assert (Hl : is_Some (validate Bridge.shown)) by (by eexists).
    split_and!; try done.
    + by apply walk_values in Hw.
    + intros d. destruct (walk_written _ _ Hv Hl _ _ _ _ Hw d)
        as [?|[Hp (x & ->%list_elem_of_singleton & Hr)]]; [by left|].
      right; right. done.
    + intros _ d Hr. apply (walk_reaches _ _ Hv Hl _ _ _ _ Hw).
      right. exists root. split; [left | done].
  - injection H as <- <-. split_and!; try done. intros d. by left.
Qed.

Lemma cascade_root_total keys root :
  ∃ n, ∀ fuel b s, (n ≤ fuel)%nat → cache_ok b → obj_keys (values s) = keys →
    is_Some (Bridge.cascade_root fuel root (b, s)).
Proof.
  destruct (walk_loop_total _ _ (buildChildrenMap_bounded keys) root) as [n Hn].
  exists n. intros fuel b s Hle Hok Hkeys.
  unfold Bridge.cascade_root, Bridge.walkSubtree. cbn [fst snd].
  destruct (rebuild_spec s b Hok) as (Hcm & _ & _). rewrite Hcm, Hkeys.
  case_bool_decide; [|case_bool_decide]; [| |done].
  - destruct (Hn fuel (λ field, Bridge.setMetaIfChanged field Bridge.hidden) s Hle)
      as [s1 ->]. done.
  - destruct (Hn fuel (λ field, Bridge.setMetaIfChanged field Bridge.shown) s Hle)
      as [s1 ->]. done.
Qed.

Lemma cascade_total keys roots :
  ∃ n, ∀ fuel b s, (n ≤ fuel)%nat → cache_ok b → obj_keys (values s) = keys →
    is_Some (Bridge.cascade fuel roots (b, s)).
Proof.
  induction roots as [|root roots [n IH]].
  - exists 0. intros. done.
  - destruct (cascade_root_total keys root) as [m Hm].
    exists (m `max` n). intros fuel b s Hle Hok Hkeys. simpl.
    destruct (Hm fuel b s ltac:(lia) Hok Hkeys) as [[b1 s1] H1]. rewrite H1.
    destruct (cascade_root_effect _ _ _ _ _ _ Hok H1) as ((Hok1 & Hv1 & _) & _).
    apply IH; [lia | done | by rewrite Hv1].
Qed.

(** The cascade keeps the values, the cache and the [running] flag. *)
Lemma cascade_frame fuel :
  ∀ roots b s b' s',
    cache_ok b → Bridge.cascade fuel roots (b, s) = Some (b', s') →
    cache_ok b' ∧ values s' = values s ∧ Bridge.running b' = Bridge.running b.
Proof.
  induction roots as [|root roots IH]; intros b s b' s' Hok; simpl.
  - by intros [= <- <-].
  - destruct (Bridge.cascade_root fuel root (b, s)) as [[b1 s1]|] eqn:H1; [|done].
    destruct (cascade_root_effect _ _ _ _ _ _ Hok H1) as ((Hok1 & Hv1 & Hr1) & _).
    intros H. destruct (IH _ _ _ _ Hok1 H) as (? & ? & ?).
    split_and!; [done | congruence | congruence].
Qed.

(** After the cascade a field is not left invisible and validated, unless
    it is not a root and the cascade did not touch it. *)
Lemma cascade_hidden_unvalidated fuel :
  ∀ roots b s b' s',
    cache_ok b → Bridge.cascade fuel roots (b, s) = Some (b', s') →
    ∀ f, hidden_unvalidated (meta s' !! f)
         ∨ (meta s' !! f = meta s !! f ∧ f ∉ roots).
Proof.
  induction roots as [|root roots IH]; intros b s b' s' Hok; simpl.
  - intros [= <- <-] f. right. split; [done | apply not_elem_of_nil].
  - destruct (Bridge.cascade_root fuel root (b, s)) as [[b1 s1]|] eqn:H1; [|done].
    destruct (cascade_root_effect _ _ _ _ _ _ Hok H1)
      as ((Hok1 & _ & _) & Hw & Hh & Hs).
    intros H f. destruct (IH _ _ _ _ Hok1 H f) as [?|[Heq Hnin]]; [by left|].
    rewrite Heq.
    destruct (Hw f) as [Hsame|[[Hhid _]|[Hsh _]]].
    + destruct (decide (f = root)) as [->|Hne].
      * left. intros Hvis. rewrite Hsame in Hvis.
        rewrite <- Hsame in Hvis. apply (Hh ltac:(by rewrite <- Hsame)).
        constructor.
      * right. split; [done|]. apply not_elem_of_cons. done.
    + left. intros _. apply Hhid.
    + left. intros Hvis. destruct Hsh as [Hsh _]. simpl in Hsh. congruence.
Qed.

End CascadeFacts.

Section CascadeHides.
Import Store.
Variable keys : list string.
Variable R : list string.
Variable top : string.

(** While no root above [top] is visible, a cascade step shows none of
    them, nor [top]. *)
Lemma cascade_root_above fuel r0 b s b' s' :
  cache_ok b → obj_keys (values s) = keys → r0 ∈ R →
  no_visible_root_above (Bridge.buildChildrenMap keys) R top s →
  Bridge.cascade_root fuel r0 (b, s) = Some (b', s') →
  no_visible_root_above (Bridge.buildChildrenMap keys) R top s'
  ∧ ∀ x, reaches (Bridge.buildChildrenMap keys) x top →
         meta s' !! x = meta s !! x ∨ is_hidden (meta s' !! x).
Proof.
  intros Hok Hkeys Hr0 Hinv H1.
  destruct (cascade_root_effect _ _ _ _ _ _ Hok H1) as (_ & Hw & _ & _).
  rewrite Hkeys in Hw.
  assert (Hx : ∀ x, reaches (Bridge.buildChildrenMap keys) x top →
                    meta s' !! x = meta s !! x ∨ is_hidden (meta s' !! x)).
  { intros x Hx. destruct (Hw x) as [?|[[? _]|(_ & Ht & Hr)]]; [by left | by right |].
    exfalso. apply (Hinv r0 Hr0); [|done]. by eapply reaches_trans. }
  split; [|exact Hx].
  intros r Hr Hrd. destruct (Hx r Hrd) as [->|[Hv _]]; [by apply Hinv|].
  rewrite Hv. done.
Qed.

(** Once the subtree of [top] is hidden, a cascade step keeps it so: a
    visible root is neither above [top] nor in its subtree. *)
Lemma cascade_root_under fuel r0 b s b' s' :
  cache_ok b → obj_keys (values s) = keys → r0 ∈ R →
  no_visible_root_above (Bridge.buildChildrenMap keys) R top s →
  (∀ x, reaches (Bridge.buildChildrenMap keys) top x → is_hidden (meta s !! x)) →
  Bridge.cascade_root fuel r0 (b, s) = Some (b', s') →
  ∀ x, reaches (Bridge.buildChildrenMap keys) top x → is_hidden (meta s' !! x).
Proof.
  intros Hok Hkeys Hr0 Hinv Hsub H1 x Hx.
  destruct (cascade_root_effect _ _ _ _ _ _ Hok H1) as (_ & Hw & _ & _).
  rewrite Hkeys in Hw.
  destruct (Hw x) as [->|[[? _]|(_ & Ht & Hr)]]; [by apply Hsub | done |].
  exfalso. destruct (reaches_chain _ _ _ _ Hr Hx) as [Hup|Hdown].
  - by apply (Hinv r0 Hr0).
  - destruct (Hsub r0 Hdown) as [Hv _]. congruence.
Qed.

Lemma cascade_under fuel :
  ∀ rs b s b' s',
    (∀ r, r ∈ rs → r ∈ R) →
    cache_ok b → obj_keys (values s) = keys →
    no_visible_root_above (Bridge.buildChildrenMap keys) R top s →
    (∀ x, reaches (Bridge.buildChildrenMap keys) top x → is_hidden (meta s !! x)) →
    Bridge.cascade fuel rs (b, s) = Some (b', s') →
    ∀ x, reaches (Bridge.buildChildrenMap keys) top x → is_hidden (meta s' !! x).
Proof.
  induction rs as [|r0 rs IH]; intros b s b' s' Hsub Hok Hkeys Hinv Hhid; simpl.
  - by intros [= <- <-].
  - destruct (Bridge.cascade_root fuel r0 (b, s)) as [[b1 s1]|] eqn:H1; [|done].
    intros H.
    destruct (cascade_root_effect _ _ _ _ _ _ Hok H1) as ((Hok1 & Hv1 & _) & _).
    assert (Hr0 : r0 ∈ R) by (apply Hsub; left).
    destruct (cascade_root_above _ _ _ _ _ _ Hok Hkeys Hr0 Hinv H1) as [Hinv1 _].
    apply (IH b1 s1 b' s'); try done.
    + intros r Hr. apply Hsub. by right.
    + by rewrite Hv1.
    + by apply (cascade_root_under fuel r0 b s b1 s1).
Qed.

(** A root that is hidden when the cascade starts, with no visible root
    above it, is hidden with all the walk reaches from it when the cascade
    ends. *)
Lemma cascade_hides fuel :
  ∀ rs b s b' s',
    (∀ r, r ∈ rs → r ∈ R) →
    cache_ok b → obj_keys (values s) = keys →
    no_visible_root_above (Bridge.buildChildrenMap keys) R top s →
    top ∈ rs → meta s !! top ≫= visible = Some false →
    Bridge.cascade fuel rs (b, s) = Some (b', s') →
    ∀ x, reaches (Bridge.buildChildrenMap keys) top x → is_hidden (meta s' !! x).
Proof.
  induction rs as [|r0 rs IH]; intros b s b' s' Hsub Hok Hkeys Hinv Hin Hvis;
    simpl.
  - by apply elem_of_nil in Hin.
  - destruct (Bridge.cascade_root fuel r0 (b, s)) as [[b1 s1]|] eqn:H1; [|done].
    intros H.
    destruct (cascade_root_effect _ _ _ _ _ _ Hok H1)
      as ((Hok1 & Hv1 & _) & _ & Hh & _).
    rewrite Hkeys in Hh.
    assert (Hr0 : r0 ∈ R) by (apply Hsub; left).
    destruct (cascade_root_above _ _ _ _ _ _ Hok Hkeys Hr0 Hinv H1) as [Hinv1 Hx1].
    assert (Hsub' : ∀ r, r ∈ rs → r ∈ R) by (intros r Hr; apply Hsub; by right).
    assert (Hkeys1 : obj_keys (values s1) = keys) by (by rewrite Hv1).
    destruct (decide (r0 = top)) as [->|Hne].
    + apply (cascade_under fuel rs b1 s1 b' s'); try done. by apply Hh.
    + apply elem_of_cons in Hin as [->|Hin]; [done|].
      apply (IH b1 s1 b' s' Hsub' Hok1 Hkeys1 Hinv1 Hin); [|done].
      destruct (Hx1 top ltac:(constructor)) as [->|[? _]]; done.
Qed.

End CascadeHides.

(** ** The steps of a pass *)

Section PassFacts.
Import Store.

Lemma showControlledFields_elem conditions f :
  f ∈ Bridge.showControlledFields conditions ↔ show_target conditions f.
Proof.
  unfold Bridge.showControlledFields, show_target.
  assert (Hin : ∀ es acc,
    f ∈ foldl (λ acc effect, match effect with
                             | Show field => set_add acc field
                             | _ => acc
                             end) acc es
    ↔ f ∈ acc ∨ Show f ∈ es).
  { induction es as [|e es IH]; intros acc; simpl.
    - rewrite elem_of_nil. naive_solver.
    - rewrite IH, elem_of_cons. destruct e; try naive_solver.
      rewrite set_add_elem. naive_solver. }
  assert (Hout : ∀ rs acc,
    f ∈ foldl (λ acc rule,
                 foldl (λ acc effect, match effect with
                                      | Show field => set_add acc field
                                      | _ => acc
                                      end) acc (effects rule)) acc rs
    ↔ f ∈ acc ∨ ∃ rule, rule ∈ rs ∧ Show f ∈ effects rule).
  { induction rs as [|r rs IH]; intros acc; simpl.
    - split; [by left | intros [?|(? & ?%elem_of_nil & _)]; done].
    - rewrite IH, Hin. split.
      + intros [[?|?]|(r' & ? & ?)]; [by left | |].
        * right. exists r. split; [left | done].
        * right. exists r'. split; [by right | done].
      + intros [?|(r' & [->|?]%elem_of_cons & ?)]; [by left; left | by left; right |].
        right. by exists r'. }
  rewrite Hout, elem_of_nil. naive_solver.
Qed.



Lemma baseline_frame conditions s f :
  f ∉ Bridge.showControlledFields conditions →
  meta (Bridge.baseline conditions s) !! f = meta s !! f.
Proof.
  unfold Bridge.baseline. revert s.
  induction (Bridge.showControlledFields conditions) as [|g l IH]; intros s;
    simpl; [done|].
  intros [Hne Hnin]%not_elem_of_cons.
  rewrite IH by done. by apply setMetaIfChanged_lookup_ne.
Qed.

Lemma baseline_values conditions s :
  values (Bridge.baseline conditions s) = values s.
Proof.
  unfold Bridge.baseline. revert s.
  induction (Bridge.showControlledFields conditions) as [|g l IH]; intros s;
    simpl; [done|].
  by rewrite IH, setMetaIfChanged_values.
Qed.

Lemma apply_meta_frame mp s f :
  f ∉ obj_keys mp → meta (Bridge.apply_meta mp s) !! f = meta s !! f.
Proof.
  unfold Bridge.apply_meta. revert s.
  induction (obj_keys mp) as [|g l IH]; intros s; simpl; [done|].
  intros [Hne Hnin]%not_elem_of_cons.
  rewrite IH by done. by apply setMetaIfChanged_lookup_ne.
Qed.

Lemma apply_meta_values mp s : values (Bridge.apply_meta mp s) = values s.
Proof.
  unfold Bridge.apply_meta. revert s.
  induction (obj_keys mp) as [|g l IH]; intros s; simpl; [done|].
  by rewrite IH, setMetaIfChanged_values.
Qed.



Lemma setValue_meta key v s : meta (api.setValue key v s) = meta s.
Proof. unfold api.setValue. repeat (case_match; simpl); done. Qed.

Lemma apply_values_meta dv s : meta (Bridge.apply_values dv s) = meta s.
Proof.
  unfold Bridge.apply_values. revert s.
  induction (obj_keys dv) as [|k l IH]; intros s; simpl; [done|].
  rewrite IH. destruct (negb _); [apply setValue_meta | done].
Qed.

Lemma pass_roots_elem conditions s r :
  r ∈ pass_roots conditions s
  ↔ r ∈ Bridge.showControlledFields conditions
    ∨ r ∈ obj_keys (meta_patch conditions s).
Proof.
  unfold pass_roots, Bridge.cascadeRoots.
  rewrite foldl_set_add_elem, elem_of_app, elem_of_nil. naive_solver.
Qed.

Lemma after_meta_frame conditions s f :
  f ∉ pass_roots conditions s →
  meta (after_meta conditions s) !! f = meta s !! f.
Proof.
  rewrite pass_roots_elem. intros Hn. unfold after_meta.
  rewrite apply_meta_frame, baseline_frame; naive_solver.
Qed.

Lemma after_meta_values conditions s :
  values (after_meta conditions s) = values s.
Proof. unfold after_meta. by rewrite apply_meta_values, baseline_values. Qed.


(** A pass that is not refused by the [running] flag is the cascade on
    the store of steps 1 and 2, followed by the value effects; with enough
    fuel it completes. *)
Lemma run_completes conditions b s :
  Bridge.running b = false → cache_ok b →
  ∃ n, ∀ fuel, (n ≤ fuel)%nat →
    ∃ b2 s3,
      Bridge.cascade fuel (pass_roots conditions s)
        (Bridge.mk (Bridge.cachedFieldKeys b) (Bridge.childrenMap b)
           (Bridge.scheduled b) true, after_meta conditions s)
      = Some (b2, s3)
      ∧ Bridge.run fuel conditions (b, s)
        = Some (Bridge.mk (Bridge.cachedFieldKeys b2) (Bridge.childrenMap b2)
                  (Bridge.scheduled b2) false,
                Bridge.apply_values
                  (Engine.desiredValues
                     (Engine.evaluateConditions (api.getValues s) conditions)) s3).
Proof.
  intros Hrun Hok.
  destruct (cascade_total (obj_keys (values s)) (pass_roots conditions s)) as [n Hn].
  exists n. intros fuel Hle.
  destruct (Hn fuel
              (Bridge.mk (Bridge.cachedFieldKeys b) (Bridge.childrenMap b)
                 (Bridge.scheduled b) true) (after_meta conditions s) Hle Hok
              ltac:(by rewrite after_meta_values)) as [[b2 s3] Hc].
  exists b2, s3. split; [done|].
  unfold Bridge.run. rewrite Hrun.
  unfold pass_roots, after_meta, meta_patch in Hc. by rewrite Hc.
Qed.

End PassFacts.

(** ** More fuel changes nothing *)

Section FuelFacts.

Lemma walk_loop_mono cm visit fuel :
  ∀ stack s s' fuel',
    Bridge.walk_loop fuel cm visit stack s = Some s' → (fuel ≤ fuel')%nat →
    Bridge.walk_loop fuel' cm visit stack s = Some s'.
Proof.
  induction fuel as [|fuel IH]; intros [|cur rest] s s' fuel' H Hle;
    simpl in *; try done.
  - by destruct fuel'.
  - by destruct fuel'.
  - destruct fuel' as [|fuel']; [lia|]. simpl. apply (IH _ _ _ _ H). lia.
Qed.

Lemma cascade_root_mono fuel fuel' root bs r :
  Bridge.cascade_root fuel root bs = Some r → (fuel ≤ fuel')%nat →
  Bridge.cascade_root fuel' root bs = Some r.
Proof.
  unfold Bridge.cascade_root, Bridge.walkSubtree. intros H Hle.
  repeat case_bool_decide; [| |done].
  - destruct (Bridge.walk_loop fuel _ _ _ _) as [s1|] eqn:Hw; [|done].
    by rewrite (walk_loop_mono _ _ _ _ _ _ _ Hw Hle).
  - destruct (Bridge.walk_loop fuel _ _ _ _) as [s1|] eqn:Hw; [|done].
    by rewrite (walk_loop_mono _ _ _ _ _ _ _ Hw Hle).
Qed.

Lemma cascade_mono fuel fuel' :
  ∀ roots bs r,
    Bridge.cascade fuel roots bs = Some r → (fuel ≤ fuel')%nat →
    Bridge.cascade fuel' roots bs = Some r.
Proof.
  induction roots as [|root roots IH]; intros bs r; simpl; [done|].
  destruct (Bridge.cascade_root fuel root bs) as [bs1|] eqn:H1; [|done].
  intros H Hle. rewrite (cascade_root_mono _ _ _ _ _ H1 Hle). by apply IH.
Qed.

Lemma run_mono fuel fuel' conditions bs r :
  Bridge.run fuel conditions bs = Some r → (fuel ≤ fuel')%nat →
  Bridge.run fuel' conditions bs = Some r.
Proof.
  unfold Bridge.run. destruct bs as [b s]. destruct (Bridge.running b); [done|].
  destruct (Bridge.cascade fuel _ _) as [[b2 s3]|] eqn:Hc; [|done].
  intros H Hle. by rewrite (cascade_mono _ _ _ _ _ Hc Hle).
Qed.

Lemma meta_after_run_mono fuel fuel' conditions bs f m :
  meta_after_run fuel conditions bs f = Some m → (fuel ≤ fuel')%nat →
  meta_after_run fuel' conditions bs f = Some m.
Proof.
  unfold meta_after_run.
  destruct (Bridge.run fuel conditions bs) as [r|] eqn:Hr; [|done].
  intros H Hle. by rewrite (run_mono _ _ _ _ _ Hr Hle).
Qed.

End FuelFacts.

(** ** Passes of the bridge *)

Lemma no_visible_root_over_above keys roots d s :
  no_visible_root_over keys roots d s →
  no_visible_root_above (Bridge.buildChildrenMap keys) roots d s.
Proof. intros H r Hr Hd. apply (H r Hr). by apply reaches_descends. Qed.

(** A hidden cascade root with no visible root above it hides what
    descends from it, in the same pass. *)
Lemma run_hides conditions b s root d :
  Bridge.running b = false → cache_ok b →
  root ∈ pass_roots conditions s →
  metaApi.getMeta (after_meta conditions s) root ≫= visible = Some false →
  no_visible_root_over (obj_keys (Store.values s)) (pass_roots conditions s) root
    (after_meta conditions s) →
  descends (obj_keys (Store.values s)) root d →
  ∃ n, ∀ fuel, (n ≤ fuel)%nat →
    ∃ b' s', Bridge.run fuel conditions (b, s) = Some (b', s')
             ∧ is_hidden (metaApi.getMeta s' d).
Proof.
  intros Hrun Hok Hroot Hvis Hno Hd.
  destruct (run_completes conditions b s Hrun Hok) as [n Hn].
  exists n. intros fuel Hle. destruct (Hn fuel Hle) as (b2 & s3 & Hc & Hr).
  eexists _, _. split; [exact Hr|].
  unfold metaApi.getMeta. rewrite apply_values_meta.
  eapply (cascade_hides (obj_keys (Store.values s)) (pass_roots conditions s) root
            fuel); last (by apply reaches_descends); last exact Hc; try done.
  - by rewrite after_meta_values.
  - by apply no_visible_root_over_above.
Qed.

(** A root without a parent has no root above it. *)
Lemma top_level_no_root_over keys roots root s :
  parentPath root = "" →
  metaApi.getMeta s root ≫= visible ≠ Some true →
  no_visible_root_over keys roots root s.
Proof.
  intros Hp Hv r _ Hd. inversion Hd as [|? _ Hne _]; subst; done.
Qed.

(** Hiding a field without a parent hides, in one pass, every registered
    descendant linked to it through registered parents, whatever the other
    rules do. *)
Lemma run_hides_top_level conditions b s root d :
  Bridge.running b = false → cache_ok b →
  root ∈ pass_roots conditions s →
  metaApi.getMeta (after_meta conditions s) root ≫= visible = Some false →
  parentPath root = "" →
  descends (obj_keys (Store.values s)) root d →
  ∃ n, ∀ fuel, (n ≤ fuel)%nat →
    ∃ b' s', Bridge.run fuel conditions (b, s) = Some (b', s')
             ∧ is_hidden (metaApi.getMeta s' d).
Proof.
  intros Hrun Hok Hroot Hvis Hp Hd.
  apply (run_hides conditions b s root d); try done.
  apply top_level_no_root_over; [done|]. rewrite Hvis. done.
Qed.



(** C4 does not hold of the code.  The walk goes from a field to the
    registered fields whose parent path it is, so it stops where a path
    between the root and a descendant is not registered.  With ["a"] and
    ["a.b.c"] registered and ["a"] hidden by a rule, ["a.b.c"], a
    registered path under ["a"], is still visible and marked for
    validation after the pass, while [isEffectivelyValidatable], which
    goes by the dotted prefixes, takes it for not validated.  With
    ["user.name"], ["user.address.street"] and ["user.address.city"]
    registered and ["user"] hidden by a rule, the pass hides ["user.name"]
    and leaves both address fields visible. *)
Theorem C4_cascade_stops_at_unregistered_parents :
  ("a" ∈ pass_roots hide_a_rules a_abc_store
   ∧ metaApi.getMeta (after_meta hide_a_rules a_abc_store) "a" ≫= visible
     = Some false
   ∧ "a.b.c" ∈ obj_keys (Store.values a_abc_store)
   ∧ Bridge.isChildOf "a" "a.b.c" = true
   ∧ (∀ fuel, (10 ≤ fuel)%nat →
        meta_after_run fuel hide_a_rules (Bridge.mounted, a_abc_store) "a.b.c"
        = Some (mkMeta (Some true) (Some true) (Some true)))
   ∧ ∃ b' s',
       Bridge.run 10 hide_a_rules (Bridge.mounted, a_abc_store) = Some (b', s')
       ∧ isEffectivelyValidatable "a.b.c" (Store.meta s') = false)
  ∧ ("user" ∈ pass_roots hide_user_rules user_store
     ∧ metaApi.getMeta (after_meta hide_user_rules user_store) "user" ≫= visible
       = Some false
     ∧ "user.address.street" ∈ obj_keys (Store.values user_store)
     ∧ Bridge.isChildOf "user" "user.address.street" = true
     ∧ Bridge.isChildOf "user" "user.address.city" = true
     ∧ ∀ fuel, (10 ≤ fuel)%nat →
         meta_after_run fuel hide_user_rules (Bridge.mounted, user_store)
           "user.name"
         = Some (mkMeta (Some false) (Some false) (Some true))
         ∧ meta_after_run fuel hide_user_rules (Bridge.mounted, user_store)
             "user.address.street"
           = Some (mkMeta (Some true) (Some true) (Some true))
         ∧ meta_after_run fuel hide_user_rules (Bridge.mounted, user_store)
             "user.address.city"
           = Some (mkMeta (Some true) (Some true) (Some true))).
Proof.
  split; split_and!.
  - vm_compute. left.
  - vm_compute. reflexivity.
  - vm_compute. right. left.
  - reflexivity.
  - intros fuel Hle. apply (meta_after_run_mono 10); [|done].
    vm_compute. reflexivity.
  - eexists _, _. split; [vm_compute; reflexivity|]. vm_compute. reflexivity.
  - vm_compute. left.
  - vm_compute. reflexivity.
  - vm_compute. right. left.
  - reflexivity.
  - reflexivity.
  - intros fuel Hle. split_and!; apply (meta_after_run_mono 10); try done;
      vm_compute; reflexivity.
Qed.

(** A hidden root under a visible one.  With ["a"], ["a.b"], ["a.b.c"]
    registered, ["a"] shown and ["a.b"] hidden by rules, ["a.b"] is a
    cascade root hidden by the meta patch, yet ["a.b.c"] ends the pass
    visible: the cascade from ["a"] shows the subtree of ["a"]. *)
Example hidden_root_under_visible_root_is_reshown :
  "a.b" ∈ pass_roots show_a_hide_ab_rules abc_store
  ∧ metaApi.getMeta (after_meta show_a_hide_ab_rules abc_store) "a.b"
      ≫= visible = Some false
  ∧ "a.b.c" ∈ obj_keys (Store.values abc_store)
  ∧ Bridge.isChildOf "a.b" "a.b.c" = true
  ∧ ∀ fuel, (10 ≤ fuel)%nat →
      meta_after_run fuel show_a_hide_ab_rules (Bridge.mounted, abc_store)
        "a.b.c"
      = Some (mkMeta (Some true) (Some true) (Some true)).
Proof.
  split_and!.
  - vm_compute. right. left.
  - vm_compute. reflexivity.
  - vm_compute. right. right. left.
  - reflexivity.
  - intros fuel Hle. apply (meta_after_run_mono 10); [|done].
    vm_compute. reflexivity.
Qed.

(** What the cascade does reach.  For a cascade root that is hidden once
    the meta patch is applied, and above which no cascade root is visible
    then, one pass leaves hidden and not validated the root and every
    registered descendant linked to it through registered parents. *)
Theorem hidden_root_hides_indexed_descendants
    (conditions : list ConditionRule) (b : Bridge.t) (s : Store.t)
    (root d : string) :
  Bridge.running b = false → cache_ok b →
  root ∈ pass_roots conditions s →
  metaApi.getMeta (after_meta conditions s) root ≫= visible = Some false →
  no_visible_root_over (obj_keys (Store.values s)) (pass_roots conditions s) root
    (after_meta conditions s) →
  descends (obj_keys (Store.values s)) root d →
  ∃ n, ∀ fuel, (n ≤ fuel)%nat →
    ∃ b' s', Bridge.run fuel conditions (b, s) = Some (b', s')
             ∧ is_hidden (metaApi.getMeta s' d).
Proof. apply run_hides. Qed.

(** C7.  A pass, given enough fuel, completes, and then every field whose
    meta has [visible = false] has [validate = false] too, unless the pass
    left its meta as it was and the field is neither the target of a
    [show] effect nor a key of the evaluator's meta patch. *)
Theorem C7_invisible_is_not_validated
    (conditions : list ConditionRule) (b : Bridge.t) (s : Store.t) :
  Bridge.running b = false → cache_ok b →
  ∃ n, ∀ fuel, (n ≤ fuel)%nat →
    ∃ b' s',
      Bridge.run fuel conditions (b, s) = Some (b', s')
      ∧ ∀ f, hidden_unvalidated (metaApi.getMeta s' f)
             ∨ (metaApi.getMeta s' f = metaApi.getMeta s f
                ∧ ¬ show_target conditions f
                ∧ f ∉ obj_keys (meta_patch conditions s)).
Proof.
  intros Hrun Hok.
  destruct (run_completes conditions b s Hrun Hok) as [n Hn].
  exists n. intros fuel Hle. destruct (Hn fuel Hle) as (b2 & s3 & Hc & Hr).
  eexists _, _. split; [exact Hr|].
  intros f. unfold metaApi.getMeta. rewrite apply_values_meta.
  assert (Hok1 : cache_ok (Bridge.mk (Bridge.cachedFieldKeys b)
                             (Bridge.childrenMap b) (Bridge.scheduled b) true))
    by exact Hok.
  destruct (cascade_hidden_unvalidated _ _ _ _ _ _ Hok1 Hc f) as [?|[Heq Hnin]];
    [by left|].
  right. rewrite Heq, (after_meta_frame _ _ _ Hnin).
  rewrite pass_roots_elem, showControlledFields_elem in Hnin. naive_solver.
Qed.


Lemma hidden_root_hides_abc :
  "a" ∈ pass_roots hide_a_rules abc_store
  ∧ descends (obj_keys (Store.values abc_store)) "a" "a.b.c"
  ∧ ∃ n, ∀ fuel, (n ≤ fuel)%nat →
      ∃ b' s', Bridge.run fuel hide_a_rules (Bridge.mounted, abc_store)
               = Some (b', s')
               ∧ is_hidden (metaApi.getMeta s' "a.b.c").
Proof.
  assert (Hr : "a" ∈ pass_roots hide_a_rules abc_store) by (vm_compute; left).
  assert (Hv : metaApi.getMeta (after_meta hide_a_rules abc_store) "a" ≫= visible
               = Some false) by (vm_compute; reflexivity).
  assert (Hd : descends (obj_keys (Store.values abc_store)) "a" "a.b.c").
  { apply descends_child; [vm_compute; right; right; left | vm_compute; discriminate |].
    change (parentPath "a.b.c") with "a.b".
    apply descends_child; [vm_compute; right; left | vm_compute; discriminate |].
    change (parentPath "a.b") with "a". constructor. }
  assert (Hno : no_visible_root_over (obj_keys (Store.values abc_store))
                  (pass_roots hide_a_rules abc_store) "a"
                  (after_meta hide_a_rules abc_store)).
  { intros r Hin _. vm_compute in Hin.
    apply list_elem_of_singleton in Hin as ->. vm_compute. discriminate. }
  split_and!; [exact Hr | exact Hd |].
  exact (hidden_root_hides_indexed_descendants hide_a_rules Bridge.mounted
           abc_store "a" "a.b.c" eq_refl cache_ok_mounted Hr Hv Hno Hd).
Defined.

Lemma C7_invariant_witness :
  Bridge.running Bridge.mounted = false
  ∧ ∃ n, ∀ fuel, (n ≤ fuel)%nat →
      ∃ b' s',
        Bridge.run fuel hide_a_rules (Bridge.mounted, abc_store) = Some (b', s')
        ∧ ∀ f, hidden_unvalidated (metaApi.getMeta s' f)
               ∨ (metaApi.getMeta s' f = metaApi.getMeta abc_store f
                  ∧ ¬ show_target hide_a_rules f
                  ∧ f ∉ obj_keys (meta_patch hide_a_rules abc_store)).
Proof.
  split; [reflexivity|].
  exact (C7_invisible_is_not_validated hide_a_rules Bridge.mounted abc_store
           eq_refl cache_ok_mounted).
Defined.

(** ** The bridge's cache stays sound, and the scenarios of the README *)

Lemma run_cache_ok fuel conditions b s b' s' :
  cache_ok b → Bridge.run fuel conditions (b, s) = Some (b', s') →
  cache_ok b' ∧ Bridge.running b' = Bridge.running b.
Proof.
  intros Hok. unfold Bridge.run. destruct (Bridge.running b) eqn:Hrun.
  - intros [= <- <-]. done.
  - destruct (Bridge.cascade fuel _ _) as [[b2 s3]|] eqn:Hc; [|done].
    intros [= <- <-].
    assert (Hok1 : cache_ok (Bridge.mk (Bridge.cachedFieldKeys b)
                               (Bridge.childrenMap b) (Bridge.scheduled b) true))
      by exact Hok.
    destruct (cascade_frame _ _ _ _ _ _ Hok1 Hc) as (Hok2 & _ & _).
    split; [exact Hok2 | done].
Qed.

(** With ["a"], ["a.b"], ["a.b.c"] registered, hiding ["a"] hides the three
    in one pass. *)
Example cascade_abc_hidden :
  let hid := Some (mkMeta (Some false) (Some false) (Some true)) in
  meta_after_run 10 hide_a_rules (Bridge.mounted, abc_store) "a" = hid
  ∧ meta_after_run 10 hide_a_rules (Bridge.mounted, abc_store) "a.b" = hid
  ∧ meta_after_run 10 hide_a_rules (Bridge.mounted, abc_store) "a.b.c" = hid.
Proof. vm_compute. done. Qed.

(** The shipping form: both fields hidden for [country = ""] and for
    ["FR"]; [state] shown and [province] hidden for ["US"]; the converse
    for ["CA"]. *)
Example shipping_scenario :
  let hid := Some (mkMeta (Some false) (Some false) (Some true)) in
  let vis := Some (mkMeta (Some true) (Some true) (Some true)) in
  let after c f :=
    meta_after_run 10 shipping_rules
      (Bridge.mounted, api.setValue "country" (VString c) shipping_store) f in
  (after "" "state", after "" "province") = (hid, hid)
  ∧ (after "US" "state", after "US" "province") = (vis, hid)
  ∧ (after "CA" "state", after "CA" "province") = (hid, vis)
  ∧ (after "FR" "state", after "FR" "province") = (hid, hid).
Proof. vm_compute. done. Qed.

(** A callback that reads ["x"], then a symbol, then throws. *)
Example traceReads_throwing :
  Graph.traceReads
    (Graph.Get (Graph.StringKey "x")
       (λ _, Graph.Get (Graph.SymbolKey "s") (λ _, Graph.Throw VNull))) []
  = Graph.Normal ["x"].
Proof. reflexivity. Qed.

(* ================================================================== *)
(** * Further properties of the code *)
(* ================================================================== *)

(** ** The evaluator's patches *)

Section PatchKeys.
Import Engine.

Lemma applyEffect_meta_keys e values acc k :
  k ∈ obj_keys (meta (applyEffect e values acc))
  ↔ k ∈ obj_keys (meta acc) ∨ (is_meta_effect e = true ∧ effect_field e = k).
Proof.
  destruct e as [g|g|g|g|g v|g]; simpl; rewrite ?obj_keys_set_elem; naive_solver.
Qed.

Lemma applyEffect_value_keys e values acc k :
  k ∈ obj_keys (desiredValues (applyEffect e values acc))
  ↔ k ∈ obj_keys (desiredValues acc)
    ∨ (is_meta_effect e = false ∧ effect_field e = k).
Proof.
  destruct e as [g|g|g|g|g v|g]; simpl; rewrite ?obj_keys_set_elem; naive_solver.
Qed.

(** The keys of a patch after a list of rules: those it had, and the fields
    of the effects of the rules that hold. *)
Lemma foldl_applyRule_keys (kind : bool)
    (keys_of : Patches → list string) values :
  (∀ e acc k, k ∈ keys_of (applyEffect e values acc)
              ↔ k ∈ keys_of acc ∨ (is_meta_effect e = kind ∧ effect_field e = k)) →
  ∀ rules acc k,
    k ∈ keys_of (foldl (applyRule values) acc rules)
    ↔ k ∈ keys_of acc ∨ applied_effect_on kind values rules k.
Proof.
  intros Hstep.
  assert (Heffs : ∀ es acc k,
    k ∈ keys_of (foldl (λ acc effect, applyEffect effect values acc) acc es)
    ↔ k ∈ keys_of acc
      ∨ ∃ e, e ∈ es ∧ is_meta_effect e = kind ∧ effect_field e = k).
  { induction es as [|e es IH]; intros acc k; simpl.
    - split; [by left | intros [?|(? & ?%elem_of_nil & _)]; done].
    - rewrite IH, Hstep. split.
      + intros [[?|[? ?]]|(e' & ? & ? & ?)]; [by left | |].
        * right. exists e. split; [left | done].
        * right. exists e'. split; [by right | done].
      + intros [?|(e' & [->|?]%elem_of_cons & ? & ?)];
          [by left; left | by left; right |].
        right. by exists e'. }
  induction rules as [|r rules IH]; intros acc k; simpl.
  - split; [by left | intros [?|(? & ? & ?%elem_of_nil & _)]; done].
  - rewrite IH. unfold applyRule. destruct (when r values) eqn:Hw.
    + rewrite Heffs. split.
      * intros [[?|(e & ? & ? & ?)]|(r' & e & ? & ? & ? & ? & ?)]; [by left | |].
        -- right. exists r, e. split_and!; [left | done..].
        -- right. exists r', e. split_and!; [by right | done..].
      * intros [?|(r' & e & [->|?]%elem_of_cons & ? & ? & ? & ?)];
          [by left; left | |].
        -- left; right. by exists e.
        -- right. by exists r', e.
    + split.
      * intros [?|(r' & e & ? & ? & ? & ? & ?)]; [by left|].
        right. exists r', e. split_and!; [by right | done..].
      * intros [?|(r' & e & [->|?]%elem_of_cons & ? & ? & ? & ?)];
          [by left | congruence |].
        right. by exists r', e.
Qed.

Lemma applied_effect_on_sort kind values rules k :
  applied_effect_on kind values (sort rules) k
  ↔ applied_effect_on kind values rules k.
Proof.
  unfold applied_effect_on. split; intros (r & e & Hr & H);
    exists r, e; (split; [by apply sort_elem | done]).
Qed.

End PatchKeys.

(** X1.  For rules none of whose effects names the field ["__proto__"]
    (an assignment to that key of the patch sets its prototype and
    creates no key): a field is a key of the evaluator's meta patch
    exactly when some rule whose predicate holds has a [show], [hide],
    [enable] or [disable] effect on it, and a key of the value patch
    exactly when such a rule has a [set] or [clear] effect on it: a rule
    that does not hold leaves no trace. *)
Theorem X1_patch_keys_are_applied_effect_fields
    (values : FieldValueMap) (rules : list ConditionRule) (k : string) :
  writes_no_proto rules →
  (k ∈ obj_keys (Engine.meta (Engine.evaluateConditions values rules))
   ↔ applied_effect_on true values rules k)
  ∧ (k ∈ obj_keys (Engine.desiredValues (Engine.evaluateConditions values rules))
     ↔ applied_effect_on false values rules k).
Proof.
  intros _. unfold Engine.evaluateConditions. split.
  - rewrite (foldl_applyRule_keys true (λ p, obj_keys (Engine.meta p)) values
               (λ e acc k, applyEffect_meta_keys e values acc k)).
    simpl. rewrite elem_of_nil, applied_effect_on_sort. naive_solver.
  - rewrite (foldl_applyRule_keys false (λ p, obj_keys (Engine.desiredValues p))
               values (λ e acc k, applyEffect_value_keys e values acc k)).
    simpl. rewrite elem_of_nil, applied_effect_on_sort. naive_solver.
Qed.

Lemma X1_patch_keys_witness :
  ("f" ∈ obj_keys (Engine.meta (Engine.evaluateConditions [] tied_rules))
   ↔ applied_effect_on true [] tied_rules "f")
  ∧ ("f" ∈ obj_keys (Engine.desiredValues (Engine.evaluateConditions [] tied_rules))
     ↔ applied_effect_on false [] tied_rules "f").
Proof.
  apply (X1_patch_keys_are_applied_effect_fields [] tied_rules "f").
  intros rule e Hr He. unfold tied_rules in Hr.
  apply elem_of_cons in Hr as [->|Hr];
    [|apply list_elem_of_singleton in Hr as ->];
    simpl in He; apply list_elem_of_singleton in He as ->; discriminate.
Defined.

(** ** Ties keep the declaration order *)

Lemma sort_tied rules : all_tied rules → Engine.sort rules = rules.
Proof.
  induction rules as [|r rules IH]; intros Ht; simpl; [done|].
  rewrite IH by (intros x y Hx Hy; apply Ht; by right).
  destruct rules as [|x rules]; simpl; [done|].
  rewrite (Ht r x); [done | left | right; left].
Qed.

(** X2.  When the comparator ranks no rule behind another (no rule has a
    priority, or all have the same), the rules are applied in declaration
    order: the result for a rule set followed by one more rule is that
    rule applied on top of the result for the rule set, so the rule
    declared last wins a conflict. *)
Theorem X2_tied_rules_apply_in_declaration_order
    (values : FieldValueMap) (rules : list ConditionRule) (last : ConditionRule) :
  all_tied (rules ++ [last]) →
  Engine.evaluateConditions values (rules ++ [last])
  = Engine.applyRule values (Engine.evaluateConditions values rules) last.
Proof.
  intros Ht. unfold Engine.evaluateConditions.
  rewrite (sort_tied _ Ht), foldl_app. simpl.
  rewrite sort_tied; [done|].
  intros x y Hx Hy. apply Ht; apply elem_of_app; by left.
Qed.

Lemma X2_tied_witness :
  all_tied tied_rules ∧ all_tied tied_rules_5
  ∧ Engine.meta (Engine.evaluateConditions [] tied_rules)
    = [("f", Engine.mkEntry (Some false) None)]
  ∧ Engine.meta (Engine.evaluateConditions [] tied_rules_5)
    = [("f", Engine.mkEntry (Some true) None)].
Proof.
  assert (H1 : all_tied tied_rules).
  { intros x y Hx Hy. unfold tied_rules in *.
    repeat (apply elem_of_cons in Hx as [->|Hx]);
      try (by apply elem_of_nil in Hx);
      repeat (apply elem_of_cons in Hy as [->|Hy]);
      try (by apply elem_of_nil in Hy); reflexivity. }
  assert (H2 : all_tied tied_rules_5).
  { intros x y Hx Hy. unfold tied_rules_5 in *.
    repeat (apply elem_of_cons in Hx as [->|Hx]);
      try (by apply elem_of_nil in Hx);
      repeat (apply elem_of_cons in Hy as [->|Hy]);
      try (by apply elem_of_nil in Hy); reflexivity. }
  split_and!; [exact H1 | exact H2 | |].
  - exact (eq_trans
             (f_equal Engine.meta
                (X2_tied_rules_apply_in_declaration_order []
                   [mkRule (λ _, true) [Show "f"] None]
                   (mkRule (λ _, true) [Hide "f"] None) H1)) eq_refl).
  - exact (eq_trans
             (f_equal Engine.meta
                (X2_tied_rules_apply_in_declaration_order []
                   [mkRule (λ _, true) [Hide "f"] (Some 5%float)]
                   (mkRule (λ _, true) [Show "f"] (Some 5%float)) H2)) eq_refl).
Defined.

(** ** What a chain of builder calls produces *)

Section ChainFacts.
Import Dsl.

Lemma chain_then_spec cs :
  ∀ (b : EffectBuilder.t) (h : heap),
    EffectBuilder.effects b < List.length h →
    let bh := chain_then cs (b, h) in
    EffectBuilder.whenFn bh.1 = EffectBuilder.whenFn b
    ∧ EffectBuilder.getField bh.1 = EffectBuilder.getField b
    ∧ EffectBuilder.priority bh.1 = call_priority (EffectBuilder.priority b) cs
    ∧ EffectBuilder.effects bh.1 < List.length bh.2
    ∧ read bh.2 (EffectBuilder.effects bh.1)
      = read h (EffectBuilder.effects b)
        ++ call_effects (EffectBuilder.getField b) cs.
Proof.
  unfold chain_then. induction cs as [|c cs IH]; intros b h Hb; simpl.
  - by rewrite app_nil_r.
  - destruct c as [a|n]; simpl.
    + rewrite then_append_spec. unfold EffectBuilder.extended.
      set (arr := read h (EffectBuilder.effects b) ++ _).
      pose proof (read_alloc_new h arr) as Hnew.
      destruct (alloc h arr) as [l h'] eqn:Ha.
      assert (Hl : l < List.length h').
      { unfold alloc in Ha. injection Ha as <- <-. rewrite length_app. simpl. lia. }
      destruct (IH (EffectBuilder.mk (EffectBuilder.whenFn b) l
                      (EffectBuilder.priority b) (EffectBuilder.getField b)) h' Hl)
        as (H1 & H2 & H3 & H4 & H5).
      simpl in *. split_and!; try done.
      rewrite H5, Hnew. unfold arr. by rewrite <- (assoc_L (++)).
    + destruct (IH (EffectBuilder.withPriority b n) h Hb) as (H1 & H2 & H3 & H4 & H5).
      simpl in *. done.
Qed.

Lemma chain_else_spec ds :
  ∀ (e : ElseEffectBuilder.t) (h : heap) (acc : list ConditionEffect),
    ElseEffectBuilder.thenEffects e < ElseEffectBuilder.elseEffects e →
    ElseEffectBuilder.elseEffects e < List.length h →
    read h (ElseEffectBuilder.elseEffects e) = acc →
    let eh := chain_else ds (e, h) in
    ElseEffectBuilder.whenFn eh.1 = ElseEffectBuilder.whenFn e
    ∧ ElseEffectBuilder.priority eh.1
      = call_priority (ElseEffectBuilder.priority e) ds
    ∧ read eh.2 (ElseEffectBuilder.thenEffects eh.1)
      = read h (ElseEffectBuilder.thenEffects e)
    ∧ read eh.2 (ElseEffectBuilder.elseEffects eh.1)
      = foldl (λ acc c, match c with
                        | WithPriority _ => []
                        | Appending a =>
                            acc ++ [appended_effect (ElseEffectBuilder.getField e) a]
                        end) acc ds.
Proof.
  unfold chain_else. induction ds as [|d ds IH]; intros e h acc Hlt He Hacc; simpl.
  - done.
  - destruct d as [a|n]; simpl.
    + rewrite else_append_spec. unfold ElseEffectBuilder.pushed.
      destruct (IH e (push h (ElseEffectBuilder.elseEffects e)
                        (appended_effect (ElseEffectBuilder.getField e) a))
                  (acc ++ [appended_effect (ElseEffectBuilder.getField e) a]))
        as (H1 & H2 & H3 & H4); try done.
      * unfold push. by rewrite length_insert.
      * rewrite read_push_eq by done. by rewrite Hacc.
      * split_and!; try done. rewrite H3. apply read_push_ne. lia.
    + unfold ElseEffectBuilder.withPriority, ElseEffectBuilder.new.
      pose proof (read_alloc_new h []) as Hnew.
      pose proof (read_alloc_old h []) as Hold.
      destruct (alloc h []) as [l h'] eqn:Ha.
      assert (Hl : l = List.length h ∧ List.length h' = S (List.length h)).
      { unfold alloc in Ha. injection Ha as <- <-. rewrite length_app. simpl. lia. }
      simpl in *.
      destruct (IH (ElseEffectBuilder.mk (ElseEffectBuilder.whenFn e)
                      (ElseEffectBuilder.thenEffects e) (Some n)
                      (ElseEffectBuilder.getField e) l) h' [])
        as (H1 & H2 & H3 & H4); simpl; try done; try lia.
      split_and!; try done. rewrite H3. apply Hold. lia.
Qed.

End ChainFacts.

(** X3.  [when(P).c1...cn.toRules()] yields one rule: its predicate is
    [Boolean(P(values))], its effects are those of the appending calls in
    call order, with selectors resolved to dotted paths, and its priority
    is that of the last [withPriority] call, if any. *)
Theorem X3_chain_accumulates_effects_in_call_order
    (predicate : FieldValueMap → jsval) (cs : list Dsl.Call) (h : Dsl.heap) :
  then_rules predicate cs h
  = [ mkRule (λ values, ToBoolean (predicate values))
        (call_effects true cs) (call_priority None cs) ].
Proof.
  unfold then_rules, then_rules_in, Dsl.when_.
  pose proof (read_alloc_new h []) as Hnew.
  destruct (Dsl.alloc h []) as [l h'] eqn:Ha.
  assert (Hl : l < List.length h').
  { unfold Dsl.alloc in Ha. injection Ha as <- <-. rewrite length_app. simpl. lia. }
  destruct (chain_then_spec cs
              (Dsl.EffectBuilder.mk (λ values, ToBoolean (predicate values)) l None true)
              h' Hl) as (H1 & H2 & H3 & H4 & H5).
  simpl in *. unfold Dsl.rule_in. simpl. rewrite H1, H3, H5, Hnew. done.
Qed.

(** X4.  [when(P).cs.else().ds.toRules()] yields the rule of the chain
    [cs] and its negation; the second rule holds only the effects appended
    after the last [withPriority] of [ds]: [withPriority] on the builder
    [else()] returns starts from an empty else-effect array, so the else
    effects appended before it are lost.  Both rules have the priority of
    the last [withPriority] of the two chains. *)
Theorem X4_else_chain_keeps_effects_since_last_priority
    (predicate : FieldValueMap → jsval) (cs ds : list Dsl.Call) (h : Dsl.heap) :
  else_rules predicate cs ds h
  = [ mkRule (λ values, ToBoolean (predicate values))
        (call_effects true cs) (call_priority (call_priority None cs) ds);
      mkRule (Dsl.invertWhen (λ values, ToBoolean (predicate values)))
        (effects_since_priority true ds)
        (call_priority (call_priority None cs) ds) ].
Proof.
  unfold else_rules, Dsl.when_.
  pose proof (read_alloc_new h []) as Hnew.
  destruct (Dsl.alloc h []) as [l h'] eqn:Ha.
  assert (Hl : l < List.length h').
  { unfold Dsl.alloc in Ha. injection Ha as <- <-. rewrite length_app. simpl. lia. }
  destruct (chain_then_spec cs
              (Dsl.EffectBuilder.mk (λ values, ToBoolean (predicate values)) l None true)
              h' Hl) as (H1 & H2 & H3 & H4 & H5).
  simpl in Hnew, H1, H2, H3, H4, H5. rewrite Hnew in H5. simpl in H5.
  set (bh := Dsl.chain_then cs _) in *.
  unfold Dsl.else_, Dsl.ElseEffectBuilder.new.
  pose proof (read_alloc_new bh.2 []) as Hnew2.
  pose proof (read_alloc_old bh.2 []) as Hold2.
  destruct (Dsl.alloc bh.2 []) as [l2 h2] eqn:Ha2.
  assert (Hl2 : l2 = List.length bh.2 ∧ List.length h2 = S (List.length bh.2)).
  { unfold Dsl.alloc in Ha2. injection Ha2 as <- <-. rewrite length_app. simpl. lia. }
  simpl in Hnew2, Hold2.
  destruct (chain_else_spec ds
              (Dsl.ElseEffectBuilder.mk (Dsl.EffectBuilder.whenFn bh.1)
                 (Dsl.EffectBuilder.effects bh.1) (Dsl.EffectBuilder.priority bh.1)
                 (Dsl.EffectBuilder.getField bh.1) l2) h2 [])
    as (E1 & E2 & E3 & E4); simpl; try done; try lia.
  simpl in E1, E2, E3, E4. unfold Dsl.rule_in. simpl.
  rewrite E1, E2, E3, E4, H1, H2, H3, Hold2, H5 by lia. done.
Qed.

(** ** Dotted paths: segments, parents and children *)

Lemma append_nil (b : string) : "" +:+ b = b.
Proof. reflexivity. Qed.

Lemma append_cons x (a b : string) : String x a +:+ b = String x (a +:+ b).
Proof. reflexivity. Qed.

Lemma append_assoc' (a b c : string) : (a +:+ b) +:+ c = a +:+ (b +:+ c).
Proof.
  induction a as [|x a IH]; rewrite ?append_nil, ?append_cons; [done | by f_equal].
Qed.

Lemma prefix_append (a b : string) : String.prefix a (a +:+ b) = true.
Proof.
  induction a as [|x a IH]; rewrite ?append_nil, ?append_cons; simpl;
    [by destruct b|].
  destruct (ascii_dec x x); [done|congruence].
Qed.

Lemma prefix_inv (a b : string) :
  String.prefix a b = true → ∃ c, b = a +:+ c.
Proof.
  revert b. induction a as [|x a IH]; intros b H.
  - by exists b.
  - destruct b as [|y b]; simpl in H; [done|].
    destruct (ascii_dec x y) as [->|]; [|done].
    destruct (IH b H) as [c ->]. by exists c.
Qed.

Lemma split_dot_no_dot seg : no_dot seg = true → split_dot seg = [seg].
Proof.
  induction seg as [|c seg IH]; simpl; [done|].
  destruct (Ascii.eqb c "."); simpl; [done|]. intros H. by rewrite IH.
Qed.

Lemma split_dot_append a b :
  split_dot (a +:+ "." +:+ b) = split_dot a ++ split_dot b.
Proof.
  induction a as [|c a IH]; [done|].
  rewrite (append_cons c a). simpl.
  rewrite IH. destruct (Ascii.eqb c "."); [done|].
  pose proof (split_dot_nonempty a). by destruct (split_dot a).
Qed.

Lemma join_dot_snoc l x : l ≠ [] → join_dot (l ++ [x]) = join_dot l +:+ "." +:+ x.
Proof.
  induction l as [|p l IH]; [done|]. intros _.
  destruct l as [|q r]; [done|].
  change ((p :: q :: r) ++ [x]) with (p :: q :: (r ++ [x])).
  rewrite !join_dot_cons. change (q :: r ++ [x]) with ((q :: r) ++ [x]).
  rewrite IH by done. by rewrite !append_assoc'.
Qed.

Lemma split_join props :
  props ≠ [] → Forall (λ p, no_dot p = true) props →
  split_dot (join_dot props) = props.
Proof.
  induction props as [|p l IH]; [done|]. intros _ Hall.
  apply Forall_cons in Hall as [Hp Hl].
  destruct l as [|q r]; [by apply split_dot_no_dot|].
  rewrite join_dot_cons, split_dot_append, IH, split_dot_no_dot by done. done.
Qed.

Lemma removelast_snoc {A} (l : list A) x : removelast (l ++ [x]) = l.
Proof. apply removelast_last. Qed.

Lemma parentPath_append p seg :
  no_dot seg = true → parentPath (p +:+ "." +:+ seg) = p.
Proof.
  intros H. unfold parentPath, pop.
  rewrite split_dot_append, (split_dot_no_dot seg H), removelast_snoc, join_split.
  rewrite length_app. simpl.
  pose proof (split_dot_nonempty p). destruct (split_dot p); [done|].
  simpl. destruct (List.length l + 1)%nat eqn:E; [lia|done].
Qed.

Lemma parentPath_split k :
  parentPath k ≠ "" → ∃ seg, k = parentPath k +:+ "." +:+ seg.
Proof.
  unfold parentPath, pop.
  destruct (Nat.leb_spec (List.length (split_dot k)) 1) as [|Hlen]; [done|].
  intros _. destruct (exists_last (split_dot_nonempty k)) as (l & x & E).
  exists x. rewrite E, removelast_snoc.
  rewrite <- (join_split k) at 1. rewrite E. apply join_dot_snoc.
  intros ->. rewrite E in Hlen. simpl in Hlen. lia.
Qed.

Lemma isChildOf_refl p : Bridge.isChildOf p p = true.
Proof. unfold Bridge.isChildOf. by rewrite String.eqb_refl. Qed.

Lemma isChildOf_spec p c :
  Bridge.isChildOf p c = true ↔ c = p ∨ ∃ rest, c = p +:+ "." +:+ rest.
Proof.
  unfold Bridge.isChildOf. rewrite orb_true_iff, String.eqb_eq. split.
  - intros [->|H]; [by left|]. right.
    destruct (prefix_inv _ _ H) as [r ->]. exists r. by rewrite append_assoc'.
  - intros [->|[r ->]]; [by left|]. right.
    rewrite <- append_assoc'. apply prefix_append.
Qed.

Lemma isChildOf_trans a b c :
  Bridge.isChildOf a b = true → Bridge.isChildOf b c = true →
  Bridge.isChildOf a c = true.
Proof.
  rewrite !isChildOf_spec. intros [->|[r ->]] [->|[r' ->]]; eauto.
  right. exists (r +:+ "." +:+ r'). by rewrite !append_assoc'.
Qed.

(** X5.  [parentPath] undoes appending a dot-free segment: the parent of
    [p + "." + seg] is [p], the result is a child of [p] for [isChildOf],
    and a dot-free path has the parent [""] (none). *)
Theorem X5_parentPath_inverts_appending_a_segment (p seg : string) :
  no_dot seg = true →
  parentPath (p +:+ "." +:+ seg) = p
  ∧ Bridge.isChildOf p (p +:+ "." +:+ seg) = true
  ∧ parentPath seg = "".
Proof.
  intros H. split_and!.
  - by apply parentPath_append.
  - apply isChildOf_spec. eauto.
  - unfold parentPath. by rewrite split_dot_no_dot.
Qed.

Lemma X5_parentPath_witness :
  parentPath ("address" +:+ "." +:+ "city") = "address"
  ∧ Bridge.isChildOf "address" ("address" +:+ "." +:+ "city") = true
  ∧ parentPath "city" = "".
Proof. apply (X5_parentPath_inverts_appending_a_segment "address" "city"). reflexivity. Defined.

(** X6.  The cascade index only leads to dotted descendants: a field the
    walk from [root] arrives at is [root] or starts with [root + "."]. *)
Theorem X6_walk_stays_under_the_root (keys : list string) (root d : string) :
  reaches (Bridge.buildChildrenMap keys) root d → Bridge.isChildOf root d = true.
Proof.
  rewrite reaches_descends. induction 1 as [|d Hd Hp _ IH].
  - apply isChildOf_refl.
  - apply (isChildOf_trans _ _ _ IH). apply isChildOf_spec. right.
    destruct (parentPath_split d Hp) as [seg E]. by exists seg.
Qed.

Lemma X6_walk_witness : Bridge.isChildOf "a" "a.b" = true.
Proof.
  apply (X6_walk_stays_under_the_root ["a"; "a.b"] "a" "a.b").
  eapply reaches_kid; [reflexivity | | apply reaches_here].
  apply list_elem_of_singleton. reflexivity.
Defined.

(** X7.  A selector's path determines the properties it read: for a
    non-empty chain of dot-free property names, none of them ["toString"]
    or ["valueOf"] (for these the proxy returns a function and the
    selector does not yield a path), splitting the path [createFieldOf]
    builds gives the chain back, so two such selectors resolve to the same
    field only if they read the same properties. *)
Theorem X7_selector_path_round_trip (props : list string) :
  props ≠ [] →
  Forall extends_path props →
  Forall (λ p, no_dot p = true) props →
  split_dot (Dsl.createFieldOf props) = props.
Proof. intros Hne _ Hdot. unfold Dsl.createFieldOf. by apply split_join. Qed.

Lemma X7_selector_witness :
  split_dot (Dsl.createFieldOf ["address"; "country"]) = ["address"; "country"].
Proof.
  apply (X7_selector_path_round_trip ["address"; "country"]); [done | |].
  - repeat constructor; discriminate.
  - repeat constructor.
Defined.

(** ** The children index and the subtree walk *)

Lemma buildChildrenMap_snoc keys k :
  Bridge.buildChildrenMap (keys ++ [k])
  = let next := Bridge.buildChildrenMap keys in
    let p := parentPath k in
    if String.eqb p "" then next
    else match next !! p with
         | Some arr => <[p := arr ++ [k]]> next
         | None => <[p := [k]]> next
         end.
Proof. unfold Bridge.buildChildrenMap. by rewrite foldl_app. Qed.

(** X8.  The index [rebuildChildrenMapIfNeeded] builds maps a path [p] to
    the keys whose [parentPath] is [p], in key order; it has no entry for
    [""] (top-level keys have no parent entry) nor for a path without
    children. *)
Theorem X8_children_index_lists_keys_by_parent (keys : list string) (p : string) :
  Bridge.buildChildrenMap keys !! p
  = if bool_decide (p = "" ∨ children_of keys p = []) then None
    else Some (children_of keys p).
Proof.
  unfold children_of. induction keys as [|k keys IH] using rev_ind.
  - simpl. rewrite bool_decide_true by (by right). done.
  - rewrite buildChildrenMap_snoc, filter_app, filter_cons, filter_nil. cbn zeta.
    destruct (String.eqb_spec (parentPath k) "") as [E|E].
    + rewrite IH. destruct (decide (p = "")) as [->|Hp].
      * by rewrite !bool_decide_true by (by left).
      * rewrite decide_False by congruence. by rewrite app_nil_r.
    + destruct (decide (parentPath k = p)) as [<-|Hne].
      * rewrite bool_decide_false.
        2:{ intros [?|H]; [done|]. by apply app_nil in H as [_ ?]. }
        rewrite IH. case_bool_decide as Hk.
        -- destruct Hk as [? | ->]; [done|]. by rewrite lookup_insert_eq.
        -- by rewrite lookup_insert_eq.
      * rewrite app_nil_r.
        rewrite <- IH. destruct (Bridge.buildChildrenMap keys !! parentPath k);
          by rewrite lookup_insert_ne.
Qed.

(** X9.  [walkSubtree] with a visitor that sets [visible] and [validate]
    ends, and it patches exactly the registered subtree of [root]: [root]
    and the registered fields linked to it by registered parents get the
    patch, every other field keeps its meta, and no value changes. *)
Theorem X9_walkSubtree_patches_exactly_the_registered_subtree
    (b : Bridge.t) (s : Store.t) (root : string) (patch : FieldMeta) :
  cache_ok b → is_Some (visible patch) → is_Some (validate patch) →
  ∃ n, ∀ fuel, (n ≤ fuel)%nat →
    ∃ b' s',
      Bridge.walkSubtree fuel root
        (λ field, Bridge.setMetaIfChanged field patch) (b, s) = Some (b', s')
      ∧ Store.values s' = Store.values s
      ∧ ∀ d,
          (descends (obj_keys (Store.values s)) root d →
           has_patch patch (Store.meta s' !! d))
          ∧ (¬ descends (obj_keys (Store.values s)) root d →
             Store.meta s' !! d = Store.meta s !! d).
Proof.
  intros Hok Hv Hl.
  destruct (walk_loop_total _ _
              (buildChildrenMap_bounded (obj_keys (Store.values s))) root) as [n Hn].
  exists n. intros fuel Hle.
  unfold Bridge.walkSubtree. cbn [fst snd].
  destruct (rebuild_spec s b Hok) as (Hcm & _ & _). rewrite Hcm.
  destruct (Hn fuel (λ field, Bridge.setMetaIfChanged field patch) s Hle)
    as [s' Hw]. rewrite Hw. eexists _, s'. split; [done|].
  split; [by apply walk_values in Hw|].
  intros d. split.
  - intros Hd. apply (walk_reaches _ _ Hv Hl _ _ _ _ Hw). right.
    exists root. split; [left|]. by apply reaches_descends.
  - intros Hd. destruct (walk_written _ _ Hv Hl _ _ _ _ Hw d)
      as [?|[_ (x & ->%list_elem_of_singleton & Hr)]]; [done|].
    by apply reaches_descends in Hr.
Qed.

Lemma X9_walkSubtree_witness :
  ∃ n, ∀ fuel, (n ≤ fuel)%nat →
    ∃ b' s',
      Bridge.walkSubtree fuel "a"
        (λ field, Bridge.setMetaIfChanged field Bridge.hidden)
        (Bridge.mounted, abc_store) = Some (b', s')
      ∧ Store.values s' = Store.values abc_store
      ∧ ∀ d,
          (descends (obj_keys (Store.values abc_store)) "a" d →
           has_patch Bridge.hidden (Store.meta s' !! d))
          ∧ (¬ descends (obj_keys (Store.values abc_store)) "a" d →
             Store.meta s' !! d = Store.meta abc_store !! d).
Proof.
  apply (X9_walkSubtree_patches_exactly_the_registered_subtree
           Bridge.mounted abc_store "a" Bridge.hidden).
  - reflexivity.
  - by eexists.
  - by eexists.
Defined.

(** ** Which fields are validated *)

Lemma validatable_from_spec parts :
  ∀ current meta,
    validatable_from current parts meta = true
    ↔ ∀ l1 l2, parts = l1 ++ l2 → l1 ≠ [] →
        ¬ meta_blocks (meta !! path_after current l1).
Proof.
  induction parts as [|part rest IH]; intros current meta; simpl.
  - split; [|done]. intros _ l1 l2 E. by apply eq_sym, app_nil in E as [-> _].
  - set (current' := if negb (String.eqb current "") then _ else _).
    split.
    + intros H l1 l2 E Hne. destruct l1 as [|x l1]; [done|].
      injection E as <- ->. simpl. fold current'.
      case_bool_decide as Hv; [done|]. case_bool_decide as Hl; [done|].
      destruct l1 as [|y l1].
      * simpl. by intros [?|?].
      * by apply (proj1 (IH current' meta) H (y :: l1) l2 eq_refl).
    + intros H.
      pose proof (H [part] rest eq_refl ltac:(done)) as H1. simpl in H1.
      fold current' in H1.
      rewrite bool_decide_false by (intros ?; apply H1; by left).
      rewrite bool_decide_false by (intros ?; apply H1; by right).
      apply IH. intros l1 l2 -> Hne.
      apply (H (part :: l1) l2 eq_refl ltac:(done)).
Qed.

Lemma path_after_nonempty parts :
  ∀ current, current ≠ "" →
    path_after current parts
    = foldl (λ c part, c +:+ "." +:+ part) current parts.
Proof.
  unfold path_after. induction parts as [|p l IH]; intros current Hc; simpl; [done|].
  destruct (String.eqb_spec current ""); [done|]. simpl.
  apply IH. by destruct current.
Qed.

Lemma join_dot_foldl l :
  ∀ p, join_dot (p :: l) = foldl (λ c part, c +:+ "." +:+ part) p l.
Proof.
  induction l as [|q l IH] using rev_ind; intros p; [done|].
  rewrite foldl_app. cbn [foldl]. rewrite <- IH.
  change (p :: l ++ [q]) with ((p :: l) ++ [q]). by rewrite join_dot_snoc.
Qed.

Lemma path_after_join l :
  hd "" l ≠ "" → path_after "" l = join_dot l.
Proof.
  destruct l as [|p l]; [done|]. intros Hp.
  change (path_after p l = join_dot (p :: l)).
  by rewrite path_after_nonempty, join_dot_foldl.
Qed.

Lemma split_dot_hd path :
  String.prefix "." path = false → path ≠ "" → hd "" (split_dot path) ≠ "".
Proof.
  destruct path as [|c s]; [done|]. simpl. intros H _.
  destruct (ascii_dec "." c) as [<-|Hc]; [by destruct s|].
  destruct (Ascii.eqb_spec c "."); [congruence|].
  by destruct (split_dot s).
Qed.

Lemma join_dot_app l1 l2 :
  l1 ≠ [] → l2 ≠ [] → join_dot (l1 ++ l2) = join_dot l1 +:+ "." +:+ join_dot l2.
Proof.
  intros H1 H2. revert l1 H1.
  induction l2 as [|x l2 IH] using rev_ind; [done|]. intros l1 H1.
  destruct l2 as [|y l2].
  - simpl. by apply join_dot_snoc.
  - rewrite (assoc_L (++)), join_dot_snoc, IH by (done || by destruct l1).
    rewrite join_dot_snoc by done. by rewrite !append_assoc'.
Qed.

(** X10.  A field is validated exactly when neither the field nor any
    dotted ancestor path of it has [visible: false] or [validate: false]
    in the meta map, whether or not the ancestor is a registered field.
    This holds for a path that does not start with ["."]. *)
Theorem X10_validatable_iff_no_blocking_ancestor
    (path : string) (meta : gmap string FieldMeta) :
  String.prefix "." path = false →
  isEffectivelyValidatable path meta = true
  ↔ ∀ anc, Bridge.isChildOf anc path = true → ¬ meta_blocks (meta !! anc).
Proof.
  intros Hdot. unfold isEffectivelyValidatable. rewrite validatable_from_spec.
  destruct (decide (path = "")) as [->|Hne].
  { split.
    - intros H anc Hc. apply isChildOf_spec in Hc as [<-|[r Hr]].
      + apply (H [""] [] eq_refl). done.
      + by destruct anc.
    - intros H l1 l2 E Hl. destruct l1 as [|x l1]; [done|].
      injection E as <- E. apply eq_sym, app_nil in E as [-> ->].
      apply H. reflexivity. }
  pose proof (split_dot_hd path Hdot Hne) as Hhd.
  split.
  - intros H anc Hc. apply isChildOf_spec in Hc as [<-|[r Hr]].
    + rewrite <- (join_split path) at 1. rewrite <- path_after_join by done.
      apply (H (split_dot path) []); [by rewrite app_nil_r | apply split_dot_nonempty].
    + rewrite Hr, split_dot_append in H, Hhd.
      pose proof (split_dot_nonempty anc) as Ha.
      specialize (H (split_dot anc) (split_dot r) eq_refl Ha).
      rewrite path_after_join, join_split in H; [done|].
      by destruct (split_dot anc).
  - intros H l1 l2 E Hl. rewrite path_after_join.
    2:{ rewrite E in Hhd. by destruct l1. }
    apply H. apply isChildOf_spec.
    destruct l2 as [|y l2].
    + left. rewrite app_nil_r in E. by rewrite <- E, join_split.
    + right. exists (join_dot (y :: l2)).
      rewrite <- join_dot_app by done. by rewrite <- E, join_split.
Qed.

Lemma X10_validatable_witness :
  isEffectivelyValidatable "a.b" (<["a" := Bridge.hidden]> ∅) = true
  ↔ ∀ anc, Bridge.isChildOf anc "a.b" = true →
      ¬ meta_blocks ((<["a" := Bridge.hidden]> ∅ : gmap string FieldMeta) !! anc).
Proof.
  apply (X10_validatable_iff_no_blocking_ancestor "a.b" (<["a" := Bridge.hidden]> ∅)).
  reflexivity.
Defined.

(** ** What [validateField] returns and leaves in the store *)

Section ValidateFacts.
Import Store.

Lemma store_eq (s s' : t) :
  values s = values s' → errors s = errors s' → meta s = meta s' →
  validators s = validators s' → validation s = validation s' →
  notified s = notified s' → s = s'.
Proof. destruct s, s'; simpl. by intros -> -> -> -> -> ->. Qed.

Lemma clear_error_validators k s : validators (clear_error k s) = validators s.
Proof. unfold clear_error. by case_bool_decide. Qed.

Lemma clear_error_lookup k s : errors (clear_error k s) !! k = Some None.
Proof.
  unfold clear_error. case_bool_decide as H; simpl.
  - by rewrite lookup_insert_eq.
  - destruct (errors s !! k) as [[m|]|] eqn:E; try done; by destruct H.
Qed.

Lemma clear_error_lookup_ne k k' s :
  k' ≠ k → errors (clear_error k s) !! k' = errors s !! k'.
Proof.
  intros Hne. unfold clear_error. case_bool_decide; simpl; [|done].
  by rewrite lookup_insert_ne.
Qed.

Lemma clear_error_cleared k s :
  errors s !! k = Some None → clear_error k s = s.
Proof. intros H. unfold clear_error. by rewrite bool_decide_false by (by intros []). Qed.

Lemma run_rules_spec key value tv rules s0 :
  let res := api.run_rules key value tv rules s0 in
  values res.1.2 = values s0
  ∧ meta res.1.2 = meta s0
  ∧ validators res.1.2 = validators s0
  ∧ lastValidatedValue (validation res.1.2) = lastValidatedValue (validation s0)
  ∧ (∀ k', k' ≠ key → errors res.1.2 !! k' = errors s0 !! k')
  ∧ match res.2 with
    | None => pending (validation res.1.2) = pending (validation s0)
              ∧ errors res.1.2 !! key = Some res.1.1
    | Some d => res.1.1 = None
                ∧ pending (validation res.1.2) = {[key]} ∪ pending (validation s0)
                ∧ errors res.1.2 = errors s0
    end.
Proof.
  induction rules as [|rule rest IH]; simpl.
  - rewrite clear_error_values, clear_error_meta, clear_error_validators,
      clear_error_validation, clear_error_lookup.
    split_and!; try done. intros k' Hk. by apply clear_error_lookup_ne.
  - destruct (rule value tv) as [|msg|p]; [exact IH | |].
    + destruct (negb (String.eqb msg "")); [|exact IH]. simpl.
      case_bool_decide as He; simpl.
      * rewrite lookup_insert_eq. split_and!; try done.
        intros k' Hk. by rewrite lookup_insert_ne.
      * split_and!; done.
    + simpl. done.
Qed.

Lemma validateField_spec key s :
  let res := api.validateField key s in
  values res.1.2 = values s
  ∧ meta res.1.2 = meta s
  ∧ validators res.1.2 = validators s
  ∧ (∀ k', k' ≠ key → errors res.1.2 !! k' = errors s !! k')
  ∧ match res.2 with
    | None => error_or_null res.1.2 key = res.1.1
    | Some d => res.1.1 = None
                ∧ isEffectivelyValidatable key (meta s) = true
                ∧ key ∈ pending (validation res.1.2)
                ∧ lastValidated_get res.1.2 key = obj_get (values s) key
                ∧ errors res.1.2 = errors s
    end.
Proof.
  unfold api.validateField.
  destruct (isEffectivelyValidatable key (meta s)) eqn:Hv; cbn [negb fst snd].
  2:{ rewrite clear_error_values, clear_error_meta, clear_error_validators.
      unfold error_or_null. rewrite clear_error_lookup.
      split_and!; try done. intros k' Hk. by rewrite clear_error_lookup_ne. }
  destruct (bool_decide (key ∈ pending (validation s))); [done|].
  destruct (validators s !! key) as [[|rule rules]|]; cbn [fst snd].
  - rewrite clear_error_values, clear_error_meta, clear_error_validators.
    unfold error_or_null. rewrite clear_error_lookup.
    split_and!; try done. intros k' Hk. by rewrite clear_error_lookup_ne.
  - destruct (strict_eq _ _); [done|].
    pose proof (run_rules_spec key (obj_get (values s) key) (values s)
                  (rule :: rules)
                  (lastValidated_set key (obj_get (values s) key) s))
      as (H1 & H2 & H3 & H4 & H5 & H6).
    cbv zeta in *.
    destruct (api.run_rules _ _ _ _ _) as [[r s'] d]. cbn [fst snd] in *.
    split_and!; try done. destruct d as [d|].
    + destruct H6 as (-> & Hp & He). split_and!; try done.
      * rewrite Hp. set_solver.
      * unfold lastValidated_get. rewrite H4. simpl. by rewrite lookup_insert_eq.
    + destruct H6 as [_ He]. unfold error_or_null. by rewrite He.
  - rewrite clear_error_values, clear_error_meta, clear_error_validators.
    unfold error_or_null. rewrite clear_error_lookup.
    split_and!; try done. intros k' Hk. by rewrite clear_error_lookup_ne.
Qed.

End ValidateFacts.

(** X11.  What [validateField] returns is the field's stored error
    afterwards ([getError]), unless the call started an asynchronous
    validation: then it returns [null], the field is pending, and the
    errors are as they were, an earlier error of the field included.  The
    errors of the other fields never change. *)
Theorem X11_validateField_returns_the_stored_error (key : string) (s : Store.t) :
  let res := api.validateField key s in
  (∀ k', k' ≠ key → api.getError res.1.2 k' = api.getError s k')
  ∧ match res.2 with
    | None => api.getError res.1.2 key = res.1.1
    | Some _ => res.1.1 = None
                ∧ key ∈ Store.pending (Store.validation res.1.2)
                ∧ Store.errors res.1.2 = Store.errors s
    end.
Proof.
  intros res. destruct (validateField_spec key s) as (_ & _ & _ & Hne & H).
  fold res in Hne, H. split.
  - intros k' Hk. unfold api.getError, Store.error_or_null. by rewrite Hne.
  - destruct (res.2); [|done]. by destruct H as (? & _ & ? & _ & ?).
Qed.

Section ValidateBranches.
Import Store.

Lemma validateField_blocked key s :
  isEffectivelyValidatable key (meta s) = false →
  api.validateField key s
  = (None, clear_error key (lastValidated_delete key (pending_delete key s)), None).
Proof. intros H. unfold api.validateField. by rewrite H. Qed.

Lemma validateField_pending key s :
  isEffectivelyValidatable key (meta s) = true →
  key ∈ pending (validation s) →
  api.validateField key s = (error_or_null s key, s, None).
Proof.
  intros H Hp. unfold api.validateField. rewrite H. simpl.
  by rewrite bool_decide_true.
Qed.

Lemma validateField_no_rules key s :
  isEffectivelyValidatable key (meta s) = true →
  key ∉ pending (validation s) →
  default [] (validators s !! key) = [] →
  api.validateField key s = (None, clear_error key s, None).
Proof.
  intros H Hp Hr. unfold api.validateField. rewrite H. simpl.
  rewrite bool_decide_false by done.
  by destruct (validators s !! key) as [[|]|].
Qed.

Lemma validateField_cached key s :
  isEffectivelyValidatable key (meta s) = true →
  key ∉ pending (validation s) →
  default [] (validators s !! key) ≠ [] →
  strict_eq (lastValidated_get s key) (obj_get (values s) key) = true →
  api.validateField key s = (error_or_null s key, s, None).
Proof.
  intros H Hp Hr He. unfold api.validateField. rewrite H. simpl.
  rewrite bool_decide_false by done.
  destruct (validators s !! key) as [[|]|]; [done | | done]. by rewrite He.
Qed.

Lemma untrack_untracked key s :
  key ∉ pending (validation s) →
  lastValidatedValue (validation s) !! key = None →
  lastValidated_delete key (pending_delete key s) = s.
Proof.
  intros Hp Hl. apply store_eq; try done. simpl.
  destruct (validation s) as [p l]. simpl in *. f_equal.
  - set_solver.
  - by apply delete_id.
Qed.

Lemma dispatch_value_defined key s ret s1 d :
  lastValidated_consistent s →
  api.validateField key s = (ret, s1, Some d) →
  api.d_key d = key ∧ api.valueAtStart d ≠ VUndefined.
Proof.
  intros Hc Hv.
  apply validateField_dispatch in Hv as (Hk & Hval & Hne & _).
  split; [done|]. rewrite Hval. intros Hu. rewrite Hu in Hne.
  unfold lastValidated_get in Hne.
  destruct (lastValidatedValue (validation s) !! key) as [v|] eqn:Hl; [|done].
  destruct (Hc _ _ Hl) as [Hv1 Hv2]. congruence.
Qed.

Lemma resolved_unvalidated d msg s :
  api.valueAtStart d ≠ VUndefined →
  lastValidatedValue (validation s) !! api.d_key d = None →
  api.resolved d msg s = pending_delete (api.d_key d) s.
Proof.
  intros Hd Hl. unfold api.resolved.
  destruct (negb (isEffectivelyValidatable _ _)); [done|].
  unfold lastValidated_get. rewrite Hl. simpl.
  by destruct (api.valueAtStart d).
Qed.

Lemma invalidates_unvalidated key op s :
  invalidates key op = true →
  lastValidatedValue (validation (apply_op s op)) !! key = None.
Proof.
  destruct op as [name v|name|name v|name vs|name|d msg|next|name next];
    simpl; try done.
  - intros ->%String.eqb_eq. unfold api.unregister.
    repeat (case_match; simpl); by rewrite lookup_delete_eq.
  - intros ->%String.eqb_eq. by rewrite lookup_delete_eq.
  - intros [->%String.eqb_eq Hh]%andb_true_iff. unfold metaApi.setMeta.
    set (merged := spread _ next).
    assert (Hm : bool_decide (visible merged = Some false)
                 || bool_decide (validate merged = Some false) = true).
    { apply orb_true_iff in Hh as [Hh|Hh]; apply bool_decide_eq_true in Hh;
        apply orb_true_iff; [left|right]; apply bool_decide_eq_true.
      - by apply spread_visible.
      - by apply spread_validate. }
    rewrite Hm.
    repeat (match goal with |- context [if ?c then _ else _] => destruct c end;
            simpl; rewrite ?clear_error_validation; simpl);
      by rewrite lookup_delete_eq.
Qed.

End ValidateBranches.

(** X12.  A validation that started no asynchronous validator is cached:
    calling [validateField] again returns the same result and leaves the
    store as it is, notifications included.  The value must be equal to
    itself for [===] (it is not [NaN]). *)
Theorem X12_validateField_repeated_is_cached (key : string) (s : Store.t) :
  let res := api.validateField key s in
  res.2 = None →
  strict_eq (api.getValue s key) (api.getValue s key) = true →
  api.validateField key res.1.2 = (res.1.1, res.1.2, None).
Proof.
  intros res Hd Hv.
  destruct (validateField_spec key s) as (Hval & Hmeta & Hvs & _ & H).
  fold res in Hval, Hmeta, Hvs, H. rewrite Hd in H.
  destruct (isEffectivelyValidatable key (Store.meta s)) eqn:Hok.
  2:{ pose proof (validateField_blocked key s Hok) as E. fold res in E.
      clearbody res. subst res. cbn [fst snd] in *.
      rewrite validateField_blocked by (by rewrite clear_error_meta).
      f_equal. f_equal. rewrite untrack_untracked.
      - apply clear_error_cleared, clear_error_lookup.
      - rewrite clear_error_validation. simpl. set_solver.
      - rewrite clear_error_validation. simpl. apply lookup_delete_eq. }
  destruct (decide (key ∈ Store.pending (Store.validation s))) as [Hp|Hp].
  { pose proof (validateField_pending key s Hok Hp) as E. fold res in E.
    clearbody res. subst res. cbn [fst snd] in *.
    by apply validateField_pending. }
  destruct (decide (default [] (Store.validators s !! key) = [])) as [Hr|Hr].
  { pose proof (validateField_no_rules key s Hok Hp Hr) as E. fold res in E.
    clearbody res. subst res. cbn [fst snd] in *.
    rewrite validateField_no_rules;
      rewrite ?clear_error_meta, ?clear_error_validation, ?clear_error_validators;
      try done.
    f_equal. f_equal. apply clear_error_cleared, clear_error_lookup. }
  destruct (strict_eq (Store.lastValidated_get s key)
              (obj_get (Store.values s) key)) eqn:He.
  { pose proof (validateField_cached key s Hok Hp Hr He) as E. fold res in E.
    clearbody res. subst res. cbn [fst snd] in *.
    by apply validateField_cached. }
  assert (E : res = api.run_rules key (obj_get (Store.values s) key) (Store.values s)
                      (default [] (Store.validators s !! key))
                      (Store.lastValidated_set key (obj_get (Store.values s) key) s)).
  { unfold res, api.validateField. rewrite Hok. simpl.
    rewrite bool_decide_false by done.
    destruct (Store.validators s !! key) as [[|]|]; [done | | done].
    by rewrite He. }
  pose proof (run_rules_spec key (obj_get (Store.values s) key) (Store.values s)
                (default [] (Store.validators s !! key))
                (Store.lastValidated_set key (obj_get (Store.values s) key) s))
    as (_ & _ & _ & Hl & _ & H6).
  cbv zeta in Hl, H6. rewrite <- E in Hl, H6. rewrite Hd in H6.
  destruct H6 as [Hpend Herr]. simpl in Hpend, Hl.
  clearbody res. rewrite validateField_cached.
  - by rewrite H.
  - by rewrite Hmeta.
  - by rewrite Hpend.
  - by rewrite Hvs.
  - unfold Store.lastValidated_get. rewrite Hl, lookup_insert_eq, Hval. exact Hv.
Qed.

Lemma X12_cached_witness :
  api.validateField "f" (api.validateField "f" undefined_store).1.2
  = ((api.validateField "f" undefined_store).1.1,
     (api.validateField "f" undefined_store).1.2, None).
Proof.
  apply (X12_validateField_repeated_is_cached "f" undefined_store); reflexivity.
Defined.

(** X13.  When the promise of an asynchronous validator resolves with
    nothing done to the store in between, the field stops being pending,
    and the message becomes the field's error; but when the validated
    value is not equal to itself for [===] ([NaN]), the result is taken
    for stale and the errors stay as they were before the validation. *)
Theorem X13_prompt_async_result_is_applied
    (key : string) (s : Store.t) (d : api.Dispatch) (msg : option string) :
  let res := api.validateField key s in
  res.2 = Some d →
  let s2 := api.resolved d msg res.1.2 in
  (key ∉ Store.pending (Store.validation s2))
  ∧ (if strict_eq (api.getValue s key) (api.getValue s key)
     then api.getError s2 key = msg
     else Store.errors s2 = Store.errors s).
Proof.
  intros res Hd s2.
  destruct (validateField_spec key s) as (_ & Hmeta & _ & _ & H).
  fold res in Hmeta, H. rewrite Hd in H.
  destruct H as (_ & Hok & _ & Hl & He).
  assert (Hres : api.validateField key s = (res.1.1, res.1.2, Some d)).
  { rewrite <- Hd. unfold res. by destruct (api.validateField key s) as [[? ?] ?]. }
  apply validateField_dispatch in Hres as (Hk & Hval & _).
  unfold s2, api.resolved. rewrite Hk, Hmeta, Hok, Hl, Hval.
  unfold api.getValue. cbn [negb].
  destruct (strict_eq _ _); cbn [negb].
  - case_bool_decide as Hn; simpl.
    + split; [set_solver|]. unfold api.getError, Store.error_or_null. simpl.
      by rewrite lookup_insert_eq.
    + split; [set_solver|]. unfold api.getError, Store.error_or_null. simpl.
      simpl in Hn. by rewrite Hn.
  - simpl. split; [set_solver | done].
Qed.

Lemma X13_prompt_witness :
  ("email" ∉ Store.pending (Store.validation
     (api.resolved (api.mkDispatch "email" (VString "a") 0) (Some "taken")
        (api.validateField "email" email_store).1.2)))
  ∧ api.getError
      (api.resolved (api.mkDispatch "email" (VString "a") 0) (Some "taken")
         (api.validateField "email" email_store).1.2) "email"
    = Some "taken".
Proof.
  apply (X13_prompt_async_result_is_applied "email" email_store
           (api.mkDispatch "email" (VString "a") 0) (Some "taken")).
  reflexivity.
Defined.



(** X15.  An asynchronous result is dropped when, after the validation
    started, the form was reset, the field unregistered, its validators
    replaced, or the field hidden or excluded from validation through
    [setMeta]: whatever other calls come before and after, as long as the
    field is not validated again, the late result changes no error and
    notifies nobody. *)
Theorem X15_late_result_after_invalidation_is_dropped
    (s : Store.t) (key : string) (ret : option string) (s1 : Store.t)
    (d : api.Dispatch) (before : list StoreOp) (op : StoreOp)
    (after : list StoreOp) (msg : option string) :
  lastValidated_consistent s →
  api.validateField key s = (ret, s1, Some d) →
  invalidates key op = true →
  (∀ op', op' ∈ after → op' ≠ OpValidateField key) →
  let s2 := apply_ops (apply_op (apply_ops s1 before) op) after in
  let s3 := api.resolved d msg s2 in
  Store.errors s3 = Store.errors s2
  ∧ Store.notified s3 = Store.notified s2
  ∧ key ∉ Store.pending (Store.validation s3).
Proof.
  intros Hc Hv Hop Hafter s2 s3.
  destruct (dispatch_value_defined key s ret s1 d Hc Hv) as [Hk Hdef].
  assert (Hl : Store.lastValidatedValue (Store.validation s2) !! key = None).
  { apply apply_ops_keeps_unvalidated; [done|]. by apply invalidates_unvalidated. }
  unfold s3. rewrite resolved_unvalidated by (done || by rewrite Hk).
  rewrite Hk. simpl. split_and!; [done | done | set_solver].
Qed.

Lemma X15_late_result_witness :
  let s2 := apply_ops
              (apply_op (apply_ops (api.validateField "email" email_store).1.2 [])
                 (OpReset None)) [] in
  let s3 := api.resolved (api.mkDispatch "email" (VString "a") 0) (Some "taken") s2 in
  Store.errors s3 = Store.errors s2
  ∧ Store.notified s3 = Store.notified s2
  ∧ "email" ∉ Store.pending (Store.validation s3).
Proof.
  apply (X15_late_result_after_invalidation_is_dropped email_store "email" None
           (api.validateField "email" email_store).1.2
           (api.mkDispatch "email" (VString "a") 0) [] (OpReset None) []
           (Some "taken")).
  - apply consistent_setValidators, consistent_register, consistent_createFormStore.
  - reflexivity.
  - reflexivity.
  - intros op' H. by apply elem_of_nil in H.
Defined.

(** The [NaN] case of the property above, on a store whose field ["n"]
    holds [NaN]: the message does not arrive. *)
Example nan_result_is_dropped :
  api.getError
    (api.resolved (api.mkDispatch "n" (VNumber PrimFloat.nan) 0) (Some "taken")
       (api.validateField "n" nan_store).1.2) "n"
  = None.
Proof. reflexivity. Qed.

(** ** [validateAll] *)

Section ValidateAllFacts.
Import Store.

Lemma validateField_keeps_pending key s :
  pending_validatable s → pending_validatable (api.validateField key s).1.2.
Proof.
  intros (k & Hk & Hok).
  destruct (validateField_spec key s) as (_ & Hmeta & _ & _ & _).
  cbv zeta in Hmeta. exists k. rewrite Hmeta. split; [|done].
  unfold api.validateField.
  destruct (isEffectivelyValidatable key (meta s)) eqn:Hv; cbn [negb fst snd].
  2:{ rewrite clear_error_validation. simpl.
      assert (k ≠ key) by congruence. set_solver. }
  destruct (bool_decide (key ∈ pending (validation s))); [done|].
  destruct (validators s !! key) as [[|rule rules]|]; cbn [fst snd];
    rewrite ?clear_error_validation; try done.
  destruct (strict_eq _ _); [done|].
  pose proof (run_rules_spec key (obj_get (values s) key) (values s)
                (rule :: rules)
                (lastValidated_set key (obj_get (values s) key) s))
    as (_ & _ & _ & _ & _ & H6).
  cbv zeta in H6.
  destruct (api.run_rules _ _ _ _ _) as [[r s'] d]. cbn [fst snd] in *.
  destruct d as [d|].
  - destruct H6 as (_ & -> & _). set_solver.
  - destruct H6 as [-> _]. done.
Qed.

Lemma validateAll_loop keys :
  ∀ acc,
    let acc' := foldl validateAll_step acc keys in
    values acc'.1.2 = values acc.1.2
    ∧ meta acc'.1.2 = meta acc.1.2
    ∧ (pending_validatable acc.1.2 → pending_validatable acc'.1.2)
    ∧ (acc'.1.1 = true → pending (validation acc'.1.2) = ∅ →
       acc.1.1 = true ∧ acc'.2 = acc.2
       ∧ ∀ k, k ∈ keys ∨ api.truthy_message (error_or_null acc.1.2 k) = false →
              api.truthy_message (error_or_null acc'.1.2 k) = false).
Proof.
  induction keys as [|key rest IH]; intros acc; simpl.
  - split_and!; try done. intros Hok _. split_and!; try done.
    intros k [Hk|Hk]; [by apply elem_of_nil in Hk | done].
  - destruct (IH (validateAll_step acc key)) as (Hv & Hm & Hp & H).
    cbv zeta in *. set (acc' := foldl validateAll_step _ rest) in *.
    destruct (validateField_spec key acc.1.2) as (Fv & Fm & _ & Fe & Fd).
    cbv zeta in *.
    split_and!.
    + by rewrite Hv.
    + by rewrite Hm.
    + intros Hpv. apply Hp. by apply validateField_keeps_pending.
    + intros Hok Hpend. destruct (H Hok Hpend) as (Hok1 & Hds & Hk).
      unfold validateAll_step in Hok1, Hds, Hk. cbn [fst snd] in Hok1, Hds, Hk.
      destruct (api.truthy_message (api.validateField key acc.1.2).1.1) eqn:Ht;
        [done|].
      destruct ((api.validateField key acc.1.2).2) as [d|] eqn:Hd.
      { exfalso. destruct Fd as (_ & Hval & Hin & _).
        destruct Hp as (k & Hk1 & _).
        - exists key. unfold validateAll_step. cbn [fst snd]. by rewrite Fm.
        - rewrite Hpend in Hk1. by apply elem_of_empty in Hk1. }
      simpl in Hds. rewrite app_nil_r in Hds. split_and!; try done.
      intros k Hcase. apply Hk.
      destruct (decide (k = key)) as [->|Hne].
      * right. by rewrite Fd.
      * destruct Hcase as [Hin|Hf].
        -- apply elem_of_cons in Hin as [?|?]; [done | by left].
        -- right. unfold error_or_null. by rewrite Fe.
Qed.

End ValidateAllFacts.

(** X16.  [validateAll] returns [true] only if, when it ends, no
    validation is pending, it started no asynchronous validator, and no
    registered field has a non-empty error. *)
Theorem X16_validateAll_true_means_no_error_and_nothing_pending (s : Store.t) :
  let res := api.validateAll s in
  res.1.1 = true →
  api.isValidating res.1.2 = false
  ∧ res.2 = []
  ∧ ∀ key, key ∈ obj_keys (Store.values s) →
           api.truthy_message (api.getError res.1.2 key) = false.
Proof.
  intros res. unfold res, api.validateAll. cbv zeta.
  change (foldl _ (true, s, []) (obj_keys (Store.values s)))
    with (foldl validateAll_step (true, s, []) (obj_keys (Store.values s))).
  destruct (validateAll_loop (obj_keys (Store.values s)) (true, s, []))
    as (_ & _ & _ & H).
  cbv zeta in H. set (acc := foldl validateAll_step _ _) in *.
  destruct (api.isValidating acc.1.2) eqn:Hv; cbn [fst snd]; [done|].
  intros Hok. unfold api.isValidating in Hv.
  apply negb_false_iff, bool_decide_eq_true in Hv.
  destruct (H Hok Hv) as (_ & Hds & Hk).
  split_and!; [|done|].
  - unfold api.isValidating. by rewrite bool_decide_true.
  - intros key Hin. apply Hk. by left.
Qed.

Lemma X16_validateAll_witness :
  api.isValidating (api.validateAll undefined_store).1.2 = false
  ∧ (api.validateAll undefined_store).2 = []
  ∧ ∀ key, key ∈ obj_keys (Store.values undefined_store) →
           api.truthy_message
             (api.getError (api.validateAll undefined_store).1.2 key) = false.
Proof.
  apply (X16_validateAll_true_means_no_error_and_nothing_pending undefined_store).
  reflexivity.
Defined.

(** ** Values, registration and meta in the store *)

Section StoreRoundTrips.
Import Store.

Lemma has_key_elem {A} (o : JsObject A) k :
  api.has_key o k = true ↔ k ∈ obj_keys o.
Proof.
  unfold api.has_key. destruct (obj_lookup o k) eqn:E.
  - split; [intros _; by eapply obj_lookup_Some_key | done].
  - split; [done|]. intros H. by apply obj_lookup_None in E.
Qed.

Lemma has_key_set {A} (o : JsObject A) k v : api.has_key (obj_set o k v) k = true.
Proof. unfold api.has_key. by rewrite obj_lookup_set_eq. Qed.

Lemma obj_lookup_delete_eq {A} (o : JsObject A) k :
  obj_lookup (obj_delete o k) k = None.
Proof.
  induction o as [|[k0 v0] o IH]; simpl; [done|].
  destruct (String.eqb k0 k) eqn:E; simpl; [done|]. by rewrite E.
Qed.

Lemma register_registered key v s :
  api.has_key (values s) key = true → api.register key v s = s.
Proof. intros H. unfold api.register. by rewrite H. Qed.

Lemma setValue_spec key value s :
  values (api.setValue key value s) = obj_set (values s) key value
  ∧ meta (api.setValue key value s) = meta s
  ∧ (∀ k, k ≠ key → errors (api.setValue key value s) !! k = errors s !! k)
  ∧ api.truthy_message (error_or_null (api.setValue key value s) key) = false.
Proof.
  unfold api.setValue, error_or_null. simpl.
  destruct (errors s !! key) as [[msg|]|] eqn:E; simpl; rewrite ?E; try done.
  destruct (String.eqb msg "") eqn:Em; simpl.
  - rewrite E. simpl. by rewrite Em.
  - rewrite lookup_insert_eq. split_and!; try done.
    intros k Hk. by rewrite lookup_insert_ne.
Qed.

Lemma blocked_by_ancestor path anc (m : gmap string FieldMeta) :
  String.prefix "." path = false →
  Bridge.isChildOf anc path = true →
  meta_blocks (m !! anc) →
  isEffectivelyValidatable path m = false.
Proof.
  intros Hdot Hc Hb. apply not_true_is_false. intros Hv.
  unfold isEffectivelyValidatable in Hv.
  pose proof (proj1 (validatable_from_spec _ _ _) Hv) as H.
  apply isChildOf_spec in Hc as [<-|[r Hr]].
  - destruct (decide (path = "")) as [->|Hne].
    + by apply (H [""] [] eq_refl).
    + apply (H (split_dot path) []); [by rewrite app_nil_r | apply split_dot_nonempty|].
      rewrite path_after_join, join_split; [done|]. by apply split_dot_hd.
  - assert (Hne : path ≠ "") by (rewrite Hr; by destruct anc).
    pose proof (split_dot_hd path Hdot Hne) as Hhd.
    rewrite Hr, split_dot_append in H, Hhd.
    pose proof (split_dot_nonempty anc) as Ha.
    apply (H (split_dot anc) (split_dot r) eq_refl Ha).
    rewrite path_after_join, join_split; [done|].
    by destruct (split_dot anc).
Qed.

Lemma setMeta_blocks name next s :
  blocks_validation next →
  meta_blocks (meta (metaApi.setMeta name next s) !! name)
  ∧ errors (metaApi.setMeta name next s) !! name = Some None
  ∧ name ∉ pending (validation (metaApi.setMeta name next s)).
Proof.
  intros Hb. split.
  { rewrite setMeta_meta, lookup_insert_eq. unfold meta_blocks.
    destruct Hb as [Hb|Hb]; [left|right]; cbn -[spread];
      [by apply spread_visible | by apply spread_validate]. }
  unfold metaApi.setMeta. set (merged := spread _ next).
  assert (Hm : bool_decide (visible merged = Some false)
               || bool_decide (validate merged = Some false) = true).
  { apply orb_true_iff. destruct Hb as [Hb|Hb]; [left|right];
      apply bool_decide_eq_true.
    - by apply spread_visible.
    - by apply spread_validate. }
  rewrite Hm.
  repeat (match goal with |- context [if ?c then _ else _] => destruct c end;
          simpl; rewrite ?clear_error_validation, ?clear_error_lookup; simpl);
    (split; [done | set_solver]).
Qed.

End StoreRoundTrips.

(** X17.  For a field not named ["__proto__"]: [setValue] then [getValue]
    gives the value back; the field's error is cleared; the values and
    errors of the other fields and all meta stay; the field is a key of
    the values afterwards and it is the only key that may be new.  A
    [register] that comes after a [setValue] of the same field is ignored:
    it neither stores its initial value nor creates the field's meta and
    error entries. *)
Theorem X17_setValue_round_trip (key : string) (value : jsval) (s : Store.t) :
  key ≠ "__proto__" →
  let s' := api.setValue key value s in
  api.getValue s' key = value
  ∧ api.truthy_message (api.getError s' key) = false
  ∧ (∀ k, k ≠ key →
       api.getValue s' k = api.getValue s k ∧ api.getError s' k = api.getError s k)
  ∧ Store.meta s' = Store.meta s
  ∧ (∀ k, k ∈ obj_keys (api.getValues s')
          ↔ k = key ∨ k ∈ obj_keys (api.getValues s))
  ∧ ∀ initialValue, api.register key initialValue s' = s'.
Proof.
  intros _ s'. destruct (setValue_spec key value s) as (Hv & Hm & He & Ht).
  fold s' in Hv, Hm, He, Ht. unfold api.getValue, api.getValues, api.getError.
  rewrite Hv. split_and!; try done.
  - unfold obj_get. by rewrite obj_lookup_set_eq.
  - intros k Hk. split.
    + by apply obj_get_set_ne.
    + unfold Store.error_or_null. by rewrite He.
  - intros k. apply obj_keys_set_elem.
  - intros v0. unfold api.register. by rewrite Hv, has_key_set.
Qed.

Lemma X17_setValue_witness :
  let s' := api.setValue "email" (VString "b") email_store in
  api.getValue s' "email" = VString "b"
  ∧ api.truthy_message (api.getError s' "email") = false
  ∧ (∀ k, k ≠ "email" →
       api.getValue s' k = api.getValue email_store k
       ∧ api.getError s' k = api.getError email_store k)
  ∧ Store.meta s' = Store.meta email_store
  ∧ (∀ k, k ∈ obj_keys (api.getValues s')
          ↔ k = "email" ∨ k ∈ obj_keys (api.getValues email_store))
  ∧ ∀ initialValue, api.register "email" initialValue s' = s'.
Proof.
  apply (X17_setValue_round_trip "email" (VString "b") email_store).
  discriminate.
Defined.

(** X18.  [unregister] removes the field from the values, errors, meta,
    validators, pending set and last-validated record, and leaves the
    entries of every other field as they were. *)
Theorem X18_unregister_removes_the_field_only (key : string) (s : Store.t) :
  let s' := api.unregister key s in
  (api.has_key (Store.values s') key = false
   ∧ Store.errors s' !! key = None
   ∧ metaApi.getMeta s' key = None
   ∧ Store.validators s' !! key = None
   ∧ (key ∉ Store.pending (Store.validation s'))
   ∧ Store.lastValidatedValue (Store.validation s') !! key = None)
  ∧ ∀ k, k ≠ key →
      obj_lookup (Store.values s') k = obj_lookup (Store.values s) k
      ∧ Store.errors s' !! k = Store.errors s !! k
      ∧ metaApi.getMeta s' k = metaApi.getMeta s k
      ∧ Store.validators s' !! k = Store.validators s !! k
      ∧ (k ∈ Store.pending (Store.validation s')
         ↔ k ∈ Store.pending (Store.validation s))
      ∧ Store.lastValidatedValue (Store.validation s') !! k
        = Store.lastValidatedValue (Store.validation s) !! k.
Proof.
  intros s'. unfold s', api.unregister, metaApi.getMeta, api.has_key.
  destruct (_ || _ || _); simpl;
    rewrite obj_lookup_delete_eq, !lookup_delete_eq;
    (split; [split_and!; try done; set_solver|]);
    intros k Hk; rewrite obj_lookup_delete_ne, !lookup_delete_ne by done;
    split_and!; try done; set_solver.
Qed.

(** X19.  In a store in which nothing was stored under ["__proto__"], and
    for a field whose name is not one every object inherits from
    [Object.prototype] (for those [key in store.values] holds from the
    start, and [register] does nothing): [register] of a field that has no
    value stores the initial value, makes the field a key of the values
    and adds no other key, keeps a meta the field has already (a condition
    may have hidden it before it mounted) and otherwise gives it the
    default meta; registering the field again changes nothing. *)
Theorem X19_register_keeps_what_exists
    (key : string) (initialValue : jsval) (s : Store.t) :
  no_proto_entry s →
  key ∉ Object_prototype_names →
  api.has_key (Store.values s) key = false →
  let s' := api.register key initialValue s in
  api.getValue s' key = initialValue
  ∧ (∀ k, k ∈ obj_keys (api.getValues s')
          ↔ k = key ∨ k ∈ obj_keys (api.getValues s))
  ∧ metaApi.getMeta s' key = Some (default defaultMeta (metaApi.getMeta s key))
  ∧ api.getError s' key = api.getError s key
  ∧ ∀ v, api.register key v s' = s'.
Proof.
  intros _ _ Hk s'. unfold s', api.register. rewrite Hk. cbn [negb].
  unfold api.getValue, api.getValues, metaApi.getMeta, api.getError,
    Store.error_or_null.
  assert (Hn : key ∉ obj_keys (Store.values s)).
  { intros Hin. apply has_key_elem in Hin. congruence. }
  split_and!.
  - simpl. repeat case_match; simpl; unfold obj_get; by rewrite obj_lookup_set_eq.
  - intros k. simpl. repeat case_match; simpl; apply obj_keys_set_elem.
  - simpl. destruct (Store.errors s !! key) as [[?|]|] eqn:E1;
      destruct (Store.meta s !! key) eqn:E2; simpl;
      rewrite ?E1, ?E2; simpl; rewrite ?E1, ?E2, ?lookup_insert_eq; done.
  - simpl. destruct (Store.errors s !! key) as [[?|]|] eqn:E1;
      destruct (Store.meta s !! key) eqn:E2; simpl;
      rewrite ?E1, ?E2; simpl; rewrite ?E1, ?E2, ?lookup_insert_eq; done.
  - intros v. apply register_registered. simpl.
    destruct (Store.errors s !! key) as [[?|]|] eqn:E1;
      destruct (Store.meta s !! key) eqn:E2; simpl;
      rewrite ?E1, ?E2; simpl; rewrite ?E1, ?E2; apply has_key_set.
Qed.

Lemma X19_register_witness :
  let s' := api.register "email" (VString "a") Store.createFormStore in
  api.getValue s' "email" = VString "a"
  ∧ (∀ k, k ∈ obj_keys (api.getValues s')
          ↔ k = "email" ∨ k ∈ obj_keys (api.getValues Store.createFormStore))
  ∧ metaApi.getMeta s' "email"
    = Some (default defaultMeta (metaApi.getMeta Store.createFormStore "email"))
  ∧ api.getError s' "email" = api.getError Store.createFormStore "email"
  ∧ ∀ v, api.register "email" v s' = s'.
Proof.
  apply (X19_register_keeps_what_exists "email" (VString "a") Store.createFormStore).
  - split; [apply not_elem_of_nil | reflexivity].
  - intros Hin. vm_compute in Hin. set_solver.
  - reflexivity.
Defined.

(** X20.  Once [setMeta] has hidden a field or turned its validation off,
    the field has no error and is not pending, and neither the field nor
    any path under it is validated: [validateField] returns [null] for
    them and starts no validator.  This holds for paths that do not start
    with ["."]. *)
Theorem X20_hidden_field_and_descendants_are_not_validated
    (name : string) (next : FieldMeta) (s : Store.t) (child : string) :
  blocks_validation next →
  Bridge.isChildOf name child = true →
  String.prefix "." child = false →
  let s' := metaApi.setMeta name next s in
  api.getError s' name = None
  ∧ (name ∉ Store.pending (Store.validation s'))
  ∧ (api.validateField child s').1.1 = None
  ∧ (api.validateField child s').2 = None
  ∧ api.getError (api.validateField child s').1.2 child = None.
Proof.
  intros Hb Hc Hdot s'.
  destruct (setMeta_blocks name next s Hb) as (Hm & He & Hp). fold s' in Hm, He, Hp.
  pose proof (blocked_by_ancestor child name (Store.meta s') Hdot Hc Hm) as Hv.
  rewrite (validateField_blocked child s' Hv). cbn [fst snd].
  unfold api.getError, Store.error_or_null. rewrite He, clear_error_lookup.
  done.
Qed.

Lemma X20_hidden_witness :
  let s' := metaApi.setMeta "a" Bridge.hidden abc_store in
  api.getError s' "a" = None
  ∧ ("a" ∉ Store.pending (Store.validation s'))
  ∧ (api.validateField "a.b" s').1.1 = None
  ∧ (api.validateField "a.b" s').2 = None
  ∧ api.getError (api.validateField "a.b" s').1.2 "a.b" = None.
Proof.
  apply (X20_hidden_field_and_descendants_are_not_validated
           "a" Bridge.hidden abc_store "a.b").
  - by left.
  - reflexivity.
  - reflexivity.
Defined.

(** ** What a pass leaves alone *)

Section PassInvariants.
Import Store.

Lemma walk_loop_inv (I : Store.t → Prop) cm visit :
  (∀ f s, I s → I (visit f s)) →
  ∀ fuel stack s s',
    Bridge.walk_loop fuel cm visit stack s = Some s' → I s → I s'.
Proof.
  intros Hvisit. induction fuel as [|fuel IH]; intros stack s s'; simpl.
  - destruct stack; [by intros [= <-] | done].
  - destruct stack as [|cur rest]; [by intros [= <-]|].
    intros Hw Hs. eapply IH; [exact Hw|]. by apply Hvisit.
Qed.

Lemma cascade_root_inv (I : Store.t → Prop) :
  (∀ f s, I s → I (Bridge.setMetaIfChanged f Bridge.hidden s)) →
  (∀ f s, I s → I (Bridge.setMetaIfChanged f Bridge.shown s)) →
  ∀ fuel root b s b' s',
    Bridge.cascade_root fuel root (b, s) = Some (b', s') → I s → I s'.
Proof.
  intros Hh Hs fuel root b s b' s'.
  unfold Bridge.cascade_root, Bridge.walkSubtree. cbn [fst snd].
  case_bool_decide; [|case_bool_decide].
  - destruct (Bridge.walk_loop _ _ _ _ _) as [s1|] eqn:Hw; [|done].
    intros [= <- <-]. by apply (walk_loop_inv I _ _ Hh _ _ _ _ Hw).
  - destruct (Bridge.walk_loop _ _ _ _ _) as [s1|] eqn:Hw; [|done].
    intros [= <- <-]. by apply (walk_loop_inv I _ _ Hs _ _ _ _ Hw).
  - by intros [= <- <-].
Qed.

Lemma cascade_inv (I : Store.t → Prop) :
  (∀ f s, I s → I (Bridge.setMetaIfChanged f Bridge.hidden s)) →
  (∀ f s, I s → I (Bridge.setMetaIfChanged f Bridge.shown s)) →
  ∀ fuel roots b s b' s',
    Bridge.cascade fuel roots (b, s) = Some (b', s') → I s → I s'.
Proof.
  intros Hh Hs fuel. induction roots as [|root rest IH]; intros b s b' s'; simpl.
  - by intros [= <- <-].
  - destruct (Bridge.cascade_root fuel root (b, s)) as [[b1 s1]|] eqn:Hr; [|done].
    intros Hc HI. eapply IH; [exact Hc|].
    by apply (cascade_root_inv I Hh Hs _ _ _ _ _ _ Hr).
Qed.

Lemma baseline_inv (I : Store.t → Prop) conditions :
  (∀ f s, I s → I (Bridge.setMetaIfChanged f Bridge.hidden s)) →
  ∀ s, I s → I (Bridge.baseline conditions s).
Proof.
  intros Hh. unfold Bridge.baseline.
  induction (Bridge.showControlledFields conditions) as [|g l IH]; intros s;
    simpl; [done|].
  intros HI. apply IH. by apply Hh.
Qed.

Lemma spread_enabled a p x : enabled p = Some x → enabled (spread a p) = Some x.
Proof. unfold spread; simpl. by intros ->. Qed.

Lemma setMetaIfChanged_enabled name patch s x :
  enabled patch = Some x →
  meta (Bridge.setMetaIfChanged name patch s) !! name ≫= enabled = Some x.
Proof.
  intros Hp. rewrite setMetaIfChanged_lookup.
  destruct (Bridge.metaShallowEqual _ _) eqn:E; simpl.
  - unfold metaApi.getMeta in E. destruct (meta s !! name) as [m|] eqn:Hm.
    + apply metaShallowEqual_Some in E. rewrite E. simpl.
      by apply spread_enabled.
    + unfold Bridge.metaShallowEqual, merged_meta, spread in E. simpl in E.
      rewrite Hp in E.
      rewrite (bool_decide_eq_false_2 (None = Some x)) in E by done.
      by rewrite andb_false_r in E.
  - by apply spread_enabled.
Qed.

Lemma setMetaIfChanged_keeps_enabled name patch s k :
  enabled patch = None →
  (is_disabled (meta (Bridge.setMetaIfChanged name patch s) !! k)
   ↔ is_disabled (meta s !! k))
  ∧ ∀ x, meta s !! k ≫= enabled = Some x →
         meta (Bridge.setMetaIfChanged name patch s) !! k ≫= enabled = Some x.
Proof.
  intros Hp. unfold is_disabled.
  destruct (decide (name = k)) as [->|Hne].
  2:{ by rewrite setMetaIfChanged_lookup_ne. }
  rewrite setMetaIfChanged_lookup.
  destruct (Bridge.metaShallowEqual _ _); [done|].
  destruct (meta s !! k) as [m|]; simpl; unfold spread; simpl; rewrite Hp; done.
Qed.

Lemma run_inv fuel conditions b s b' s' :
  Bridge.running b = false →
  Bridge.run fuel conditions (b, s) = Some (b', s') →
  ∃ b2 s3,
    Bridge.cascade fuel (pass_roots conditions s)
      (Bridge.mk (Bridge.cachedFieldKeys b) (Bridge.childrenMap b)
         (Bridge.scheduled b) true, after_meta conditions s) = Some (b2, s3)
    ∧ s' = Bridge.apply_values (value_patch conditions s) s3.
Proof.
  intros Hrun. unfold Bridge.run. rewrite Hrun.
  fold (meta_patch conditions s). fold (pass_roots conditions s).
  fold (after_meta conditions s).
  destruct (Bridge.cascade _ _ _) as [[b2 s3]|]; [|done].
  intros [= <- <-]. by exists b2, s3.
Qed.

Lemma apply_meta_enabled mp s k e x :
  obj_lookup mp k = Some e → Engine.e_enabled e = Some x →
  meta (Bridge.apply_meta mp s) !! k ≫= enabled = Some x.
Proof.
  intros Hl He. pose proof (obj_lookup_Some_key _ _ _ Hl) as Hin.
  unfold Bridge.apply_meta. revert s Hin.
  assert (Hstep : ∀ key s,
    (key = k ∨ meta s !! k ≫= enabled = Some x) →
    meta (Bridge.setMetaIfChanged key
            (Bridge.patch_of (default Engine.empty_entry (obj_lookup mp key))) s)
      !! k ≫= enabled = Some x).
  { intros key s Hc. destruct (decide (key = k)) as [->|Hne].
    - apply setMetaIfChanged_enabled. by rewrite Hl.
    - destruct Hc as [?|Hc]; [done|]. by rewrite setMetaIfChanged_lookup_ne. }
  assert (Hkeep : ∀ l s, meta s !! k ≫= enabled = Some x →
    meta (foldl (λ s key, Bridge.setMetaIfChanged key
                   (Bridge.patch_of (default Engine.empty_entry (obj_lookup mp key))) s)
            s l) !! k ≫= enabled = Some x).
  { induction l as [|g l IH]; intros s Hs; simpl; [done|].
    apply IH, Hstep. by right. }
  induction (obj_keys mp) as [|g l IH]; intros s Hin; simpl.
  - by apply elem_of_nil in Hin.
  - apply elem_of_cons in Hin as [<-|Hin].
    + apply Hkeep, Hstep. by left.
    + by apply IH.
Qed.

Lemma apply_meta_keeps_enabled mp s k :
  obj_lookup mp k ≫= Engine.e_enabled = None →
  is_disabled (meta (Bridge.apply_meta mp s) !! k) ↔ is_disabled (meta s !! k).
Proof.
  intros Hn. unfold Bridge.apply_meta. revert s.
  induction (obj_keys mp) as [|g l IH]; intros s; simpl; [done|].
  rewrite IH. destruct (decide (g = k)) as [->|Hne].
  - apply setMetaIfChanged_keeps_enabled.
    destruct (obj_lookup mp k) as [e|]; simpl in *; done.
  - unfold is_disabled. by rewrite setMetaIfChanged_lookup_ne.
Qed.

End PassInvariants.

(** X21.  A pass writes a field's [enabled] flag only from an [enable] or
    [disable] effect on that very field: when the pass's patch holds one,
    the flag ends as the patch says; otherwise the field is disabled after
    the pass exactly when it was before.  So disabling is not cascaded to
    the fields under a disabled one, and it is not taken back when the
    rule that disabled the field stops holding. *)
Theorem X21_pass_changes_enabled_only_by_own_effect
    (conditions : list ConditionRule) (b : Bridge.t) (s : Store.t) (k : string) :
  Bridge.running b = false → cache_ok b →
  ∃ n, ∀ fuel, (n ≤ fuel)%nat →
    ∃ b' s',
      Bridge.run fuel conditions (b, s) = Some (b', s')
      ∧ match patch_enabled conditions s k with
        | Some x => metaApi.getMeta s' k ≫= enabled = Some x
        | None => is_disabled (metaApi.getMeta s' k)
                  ↔ is_disabled (metaApi.getMeta s k)
        end.
Proof.
  intros Hrun Hok. destruct (run_completes conditions b s Hrun Hok) as [n Hn].
  exists n. intros fuel Hle. destruct (Hn fuel Hle) as (b2 & s3 & Hc & Hr).
  eexists _, _. split; [exact Hr|].
  unfold metaApi.getMeta. rewrite apply_values_meta.
  unfold patch_enabled.
  destruct (obj_lookup (meta_patch conditions s) k ≫= Engine.e_enabled)
    as [x|] eqn:Hp.
  - assert (Hkeep : ∀ patch, enabled patch = None → ∀ f s0,
              Store.meta s0 !! k ≫= enabled = Some x →
              Store.meta (Bridge.setMetaIfChanged f patch s0) !! k ≫= enabled
              = Some x).
    { intros patch Hn0 f s0 H0. by apply setMetaIfChanged_keeps_enabled. }
    apply (cascade_inv (λ s0, Store.meta s0 !! k ≫= enabled = Some x)
             (Hkeep Bridge.hidden eq_refl) (Hkeep Bridge.shown eq_refl)
             _ _ _ _ _ _ Hc).
    destruct (obj_lookup (meta_patch conditions s) k) as [e|] eqn:Hl; [|done].
    by apply (apply_meta_enabled _ _ _ e).
  - assert (Hkeep : ∀ patch, enabled patch = None → ∀ f s0,
              (is_disabled (Store.meta s0 !! k) ↔ is_disabled (Store.meta s !! k)) →
              (is_disabled (Store.meta (Bridge.setMetaIfChanged f patch s0) !! k)
               ↔ is_disabled (Store.meta s !! k))).
    { intros patch Hn0 f s0 H0. rewrite <- H0.
      by apply setMetaIfChanged_keeps_enabled. }
    apply (cascade_inv (λ s0, is_disabled (Store.meta s0 !! k)
                              ↔ is_disabled (Store.meta s !! k))
             (Hkeep Bridge.hidden eq_refl) (Hkeep Bridge.shown eq_refl)
             _ _ _ _ _ _ Hc).
    unfold after_meta. rewrite apply_meta_keeps_enabled by done.
    by apply (baseline_inv (λ s0, is_disabled (Store.meta s0 !! k)
                                  ↔ is_disabled (Store.meta s !! k)) _
                (Hkeep Bridge.hidden eq_refl)).
Qed.

Lemma X21_enabled_witness :
  ∃ n, ∀ fuel, (n ≤ fuel)%nat →
    ∃ b' s',
      Bridge.run fuel hide_a_rules (Bridge.mounted, abc_store) = Some (b', s')
      ∧ (is_disabled (metaApi.getMeta s' "a.b")
         ↔ is_disabled (metaApi.getMeta abc_store "a.b")).
Proof.
  apply (X21_pass_changes_enabled_only_by_own_effect
           hide_a_rules Bridge.mounted abc_store "a.b"); reflexivity.
Defined.

Section PassFrame.
Import Store.

Lemma cascade_unreached fuel k :
  ∀ roots b s b' s',
    cache_ok b →
    Bridge.cascade fuel roots (b, s) = Some (b', s') →
    (∀ r, r ∈ roots →
          ¬ reaches (Bridge.buildChildrenMap (obj_keys (values s))) r k) →
    meta s' !! k = meta s !! k.
Proof.
  induction roots as [|root rest IH]; intros b s b' s' Hok; simpl.
  - by intros [= <- <-].
  - destruct (Bridge.cascade_root fuel root (b, s)) as [[b1 s1]|] eqn:Hr; [|done].
    intros Hc Hun.
    destruct (cascade_root_effect _ _ _ _ _ _ Hok Hr)
      as ((Hok1 & Hv & _) & Hd & _).
    rewrite (IH b1 s1 b' s' Hok1 Hc).
    + destruct (Hd k) as [?|[(_ & _ & Hreach)|(_ & _ & Hreach)]]; [done| |];
        destruct (Hun root ltac:(left) Hreach).
    + intros r Hin. rewrite Hv. apply Hun. by right.
Qed.

Lemma apply_values_spec dv s k :
  match obj_lookup dv k with
  | Some v =>
      api.getValue (Bridge.apply_values dv s) k = v
      ∨ (strict_eq (api.getValue s k) v = true
         ∧ api.getValue (Bridge.apply_values dv s) k = api.getValue s k)
  | None => api.getValue (Bridge.apply_values dv s) k = api.getValue s k
  end.
Proof.
  set (step := λ (s : t) key,
         let prev := api.getValue s key in
         let next := obj_get dv key in
         if negb (strict_eq prev next) then api.setValue key next s else s).
  assert (Hne : ∀ key s0, key ≠ k → api.getValue (step s0 key) k = api.getValue s0 k).
  { intros key s0 Hk. unfold step. cbv zeta. destruct (negb _); [|done].
    unfold api.getValue. destruct (setValue_spec key (obj_get dv key) s0) as [-> _].
    by apply obj_get_set_ne. }
  destruct (obj_lookup dv k) as [v|] eqn:Hl.
  - pose proof (obj_lookup_Some_key _ _ _ Hl) as Hin.
    set (J := λ s0 : t,
           api.getValue s0 k = v
           ∨ (strict_eq (api.getValue s k) v = true
              ∧ api.getValue s0 k = api.getValue s k)).
    assert (Hown : ∀ s0, api.getValue s0 k = api.getValue s k ∨ J s0 → J (step s0 k)).
    { intros s0 Hc. unfold step. cbv zeta.
      assert (Hv : obj_get dv k = v) by (unfold obj_get; by rewrite Hl).
      rewrite Hv. destruct (strict_eq (api.getValue s0 k) v) eqn:E; simpl.
      - destruct Hc as [Hc|Hc]; [|done]. right. by rewrite <- Hc.
      - left. unfold api.getValue.
        destruct (setValue_spec k v s0) as [-> _].
        unfold obj_get. by rewrite obj_lookup_set_eq. }
    assert (Hkeep : ∀ l s0, J s0 → J (foldl step s0 l)).
    { induction l as [|g l IH]; intros s0 HJ; simpl; [done|].
      apply IH. destruct (decide (g = k)) as [->|Hg]; [apply Hown; by right|].
      unfold J. by rewrite Hne. }
    change (J (foldl step s (obj_keys dv))).
    assert (Hgo : ∀ l s0, k ∈ l → api.getValue s0 k = api.getValue s k →
                          J (foldl step s0 l)).
    { induction l as [|g l IH]; intros s0 Hk H0; simpl.
      - by apply elem_of_nil in Hk.
      - destruct (decide (g = k)) as [->|Hg].
        + apply Hkeep, Hown. by left.
        + apply elem_of_cons in Hk as [?|Hk]; [done|].
          apply IH; [done|]. by rewrite Hne. }
    by apply Hgo.
  - apply obj_lookup_None in Hl.
    change (api.getValue (foldl step s (obj_keys dv)) k = api.getValue s k).
    revert s. induction (obj_keys dv) as [|g l IH]; intros s; simpl; [done|].
    apply not_elem_of_cons in Hl as [Hg Hl]. rewrite IH by done.
    by apply Hne.
Qed.

End PassFrame.

(** X22.  A pass changes the meta of a field only if the field is a
    cascade root (the target of a [show] effect or a key of the pass's
    meta patch) or is linked to one through registered parents: the meta
    of every other field is after the pass what it was before. *)
Theorem X22_pass_leaves_unreached_fields_alone
    (conditions : list ConditionRule) (b : Bridge.t) (s : Store.t) (k : string) :
  Bridge.running b = false → cache_ok b →
  (∀ r, r ∈ pass_roots conditions s →
        ¬ descends (obj_keys (Store.values s)) r k) →
  ∃ n, ∀ fuel, (n ≤ fuel)%nat →
    ∃ b' s',
      Bridge.run fuel conditions (b, s) = Some (b', s')
      ∧ metaApi.getMeta s' k = metaApi.getMeta s k.
Proof.
  intros Hrun Hok Hun. destruct (run_completes conditions b s Hrun Hok) as [n Hn].
  exists n. intros fuel Hle. destruct (Hn fuel Hle) as (b2 & s3 & Hc & Hr).
  eexists _, _. split; [exact Hr|].
  unfold metaApi.getMeta. rewrite apply_values_meta.
  assert (Hok1 : cache_ok (Bridge.mk (Bridge.cachedFieldKeys b)
                             (Bridge.childrenMap b) (Bridge.scheduled b) true))
    by exact Hok.
  rewrite (cascade_unreached _ k _ _ _ _ _ Hok1 Hc).
  - apply after_meta_frame. intros Hin. apply (Hun k Hin). constructor.
  - intros r Hin. rewrite after_meta_values, reaches_descends. by apply Hun.
Qed.

Lemma X22_unreached_witness :
  ∃ n, ∀ fuel, (n ≤ fuel)%nat →
    ∃ b' s',
      Bridge.run fuel shipping_rules (Bridge.mounted, shipping_store) = Some (b', s')
      ∧ metaApi.getMeta s' "country" = metaApi.getMeta shipping_store "country".
Proof.
  apply (X22_pass_leaves_unreached_fields_alone
           shipping_rules Bridge.mounted shipping_store "country");
    [reflexivity | reflexivity |].
  intros r Hin Hd. inversion Hd as [Heq|d _ Hp _ Heq].
  - subst r. vm_compute in Hin. set_solver.
  - by vm_compute in Hp.
Defined.

(** X23.  A pass writes values only from its value patch: a field the
    patch has no entry for keeps its value; a field it has an entry for
    ends with the patch's value, or keeps a value that is already [===]
    to it. *)
Theorem X23_pass_writes_only_the_value_patch
    (conditions : list ConditionRule) (b : Bridge.t) (s : Store.t) (k : string) :
  Bridge.running b = false → cache_ok b →
  ∃ n, ∀ fuel, (n ≤ fuel)%nat →
    ∃ b' s',
      Bridge.run fuel conditions (b, s) = Some (b', s')
      ∧ match obj_lookup (value_patch conditions s) k with
        | Some v =>
            api.getValue s' k = v
            ∨ (strict_eq (api.getValue s k) v = true
               ∧ api.getValue s' k = api.getValue s k)
        | None => api.getValue s' k = api.getValue s k
        end.
Proof.
  intros Hrun Hok. destruct (run_completes conditions b s Hrun Hok) as [n Hn].
  exists n. intros fuel Hle. destruct (Hn fuel Hle) as (b2 & s3 & Hc & Hr).
  eexists _, _. split; [exact Hr|].
  assert (Hok1 : cache_ok (Bridge.mk (Bridge.cachedFieldKeys b)
                             (Bridge.childrenMap b) (Bridge.scheduled b) true))
    by exact Hok.
  destruct (cascade_frame _ _ _ _ _ _ Hok1 Hc) as (_ & Hv & _).
  rewrite after_meta_values in Hv.
  pose proof (apply_values_spec (value_patch conditions s) s3 k) as H.
  unfold api.getValue in *. rewrite Hv in H. exact H.
Qed.

Lemma X23_values_witness :
  ∃ n, ∀ fuel, (n ≤ fuel)%nat →
    ∃ b' s',
      Bridge.run fuel shipping_rules (Bridge.mounted, shipping_store) = Some (b', s')
      ∧ api.getValue s' "country" = api.getValue shipping_store "country".
Proof.
  apply (X23_pass_writes_only_the_value_patch
           shipping_rules Bridge.mounted shipping_store "country"); reflexivity.
Defined.

(** ** The dependency graph *)

Lemma add_edge_elem (map : JsObject (list string)) k x k' x' :
  x' ∈ Graph.neighbours (Graph.add_edge map k x) k'
  ↔ (k' = k ∧ x' = x) ∨ x' ∈ Graph.neighbours map k'.
Proof.
  unfold Graph.neighbours, Graph.add_edge.
  destruct (decide (k' = k)) as [->|Hne].
  - rewrite obj_lookup_set_eq. simpl. rewrite set_add_elem.
    destruct (obj_lookup map k) as [l|] eqn:E.
    + rewrite E. simpl. naive_solver.
    + rewrite obj_lookup_set_eq. simpl. naive_solver.
  - rewrite obj_lookup_set_ne by done.
    destruct (obj_lookup map k) as [l|] eqn:E.
    + naive_solver.
    + rewrite obj_lookup_set_ne by done. naive_solver.
Qed.

Lemma add_edge_NoDup (map : JsObject (list string)) k x k' :
  NoDup (Graph.neighbours map k') →
  NoDup (Graph.neighbours (Graph.add_edge map k x) k').
Proof.
  unfold Graph.neighbours, Graph.add_edge. intros Hnd.
  destruct (decide (k' = k)) as [->|Hne].
  - rewrite obj_lookup_set_eq. simpl. apply set_add_NoDup.
    destruct (obj_lookup map k) as [l|] eqn:E.
    + by rewrite E.
    + rewrite obj_lookup_set_eq. constructor.
  - rewrite obj_lookup_set_ne by done.
    destruct (obj_lookup map k) as [l|] eqn:E; [done|].
    by rewrite obj_lookup_set_ne.
Qed.

(** X24.  After any sequence of [linkDependency] calls on a new graph,
    [forward] and [reverse] mirror each other and hold exactly the linked
    pairs: [to] is among the fields [from] affects, and [from] among the
    dependencies of [to], exactly when [(from, to)] was linked; and no set
    lists a field twice. *)
Theorem X24_graph_maps_mirror_the_links
    (links : list (string * string)) (from to : string) :
  (to ∈ Graph.neighbours (Graph.forward (linked links)) from
   ↔ (from, to) ∈ links)
  ∧ (from ∈ Graph.neighbours (Graph.reverse (linked links)) to
     ↔ (from, to) ∈ links)
  ∧ NoDup (Graph.neighbours (Graph.forward (linked links)) from)
  ∧ NoDup (Graph.neighbours (Graph.reverse (linked links)) to).
Proof.
  unfold linked. induction links as [|[f t] links IH] using rev_ind.
  - simpl. unfold Graph.neighbours. simpl.
    split_and!; try constructor; try (intros H; by apply elem_of_nil in H).
  - rewrite foldl_app. simpl. destruct IH as (IH1 & IH2 & IH3 & IH4).
    rewrite !add_edge_elem, IH1, IH2, !elem_of_app, !list_elem_of_singleton.
    split_and!.
    + naive_solver.
    + naive_solver.
    + by apply add_edge_NoDup.
    + by apply add_edge_NoDup.
Qed.

(** ** The notifier's listener maps *)

Section NotifierFacts.
Import Notifier.

Lemma members_alter_eq f sets loc :
  (loc < List.length sets)%nat →
  members (alter f loc sets) loc = f (members sets loc).
Proof.
  intros Hlt. unfold members. rewrite list_lookup_alter_eq.
  destruct (lookup_lt_is_Some_2 sets loc Hlt) as [l ->]. done.
Qed.

Lemma members_alter_ne f sets loc loc' :
  loc ≠ loc' → members (alter f loc sets) loc' = members sets loc'.
Proof. intros Hne. unfold members. by rewrite list_lookup_alter_ne. Qed.

Lemma members_app_l sets more loc :
  (loc < List.length sets)%nat → members (sets ++ more) loc = members sets loc.
Proof. intros Hlt. unfold members. by rewrite lookup_app_l. Qed.

Lemma members_new sets : members (sets ++ [[]]) (List.length sets) = [].
Proof.
  unfold members. rewrite lookup_app_r by lia. by rewrite Nat.sub_diag.
Qed.

Lemma remove_absent fn set : fn ∉ set → remove fn set = set.
Proof.
  unfold remove. induction set as [|g set IH]; [done|].
  intros [Hg Hs]%not_elem_of_cons.
  rewrite filter_cons, decide_True by done. by rewrite IH.
Qed.

Lemma remove_added fn set : fn ∉ set → remove fn (add fn set) = set.
Proof.
  intros Hn. unfold add. rewrite bool_decide_false by done.
  unfold remove. rewrite filter_app, filter_cons, filter_nil.
  rewrite decide_False by (by intros H; apply H).
  rewrite app_nil_r. by apply remove_absent.
Qed.

Lemma twice_altered {A} (f g : A → A) loc (sets : list A) :
  alter f loc (alter g loc sets) = alter (f ∘ g) loc sets.
Proof.
  revert loc. induction sets as [|x sets IH]; intros [|loc]; simpl; try done.
  f_equal. apply IH.
Qed.

End NotifierFacts.

(** X25.  Subscribing a listener that is not subscribed yet puts it last
    among the listeners of the name and changes no other name's
    listeners; the function [subscribe] returns, called next, gives every
    name the listeners it had before. *)
Theorem X25_subscribe_then_unsubscribe_restores_the_listeners
    (map : Notifier.ListenerMap) (name : string) (fn : Notifier.Listener) :
  listeners_wf map →
  fn ∉ Notifier.listeners map name →
  let um := Notifier.subscribe name fn map in
  Notifier.listeners um.2 name = Notifier.listeners map name ++ [fn]
  ∧ (∀ name', name' ≠ name →
       Notifier.listeners um.2 name' = Notifier.listeners map name')
  ∧ ∀ name', Notifier.listeners (Notifier.unsubscribe um.1 um.2) name'
             = Notifier.listeners map name'.
Proof.
  intros Hwf Hfn um. unfold um, Notifier.subscribe, Notifier.listeners in *.
  destruct (Notifier.entries map !! name) as [set|] eqn:He.
  - destruct (Hwf name set He) as [Hlt Hinj]. cbn [fst snd].
    assert (Hother : ∀ name' set', name' ≠ name →
              Notifier.entries map !! name' = Some set' → set ≠ set').
    { intros name' set' Hne He' <-. by apply Hne, Hinj. }
    split_and!.
    + simpl. rewrite lookup_insert_eq, members_alter_eq by done.
      unfold Notifier.add. by rewrite bool_decide_false.
    + intros name' Hne. simpl. rewrite lookup_insert_ne by done.
      destruct (Notifier.entries map !! name') as [set'|] eqn:He'; [|done].
      apply members_alter_ne. by apply (Hother name').
    + intros name'. unfold Notifier.unsubscribe. cbn [Notifier.u_set
        Notifier.u_name Notifier.u_fn Notifier.sets Notifier.entries].
      rewrite twice_altered, members_alter_eq by done.
      cbn [compose]. rewrite remove_added by done.
      case_bool_decide as Hempty; simpl.
      * destruct (decide (name' = name)) as [->|Hne].
        -- rewrite lookup_delete_eq, He. by rewrite Hempty.
        -- rewrite lookup_delete_ne, lookup_insert_ne by done.
           destruct (Notifier.entries map !! name') as [set'|] eqn:He'; [|done].
           apply members_alter_ne. by apply (Hother name').
      * destruct (decide (name' = name)) as [->|Hne].
        -- rewrite lookup_insert_eq, He, members_alter_eq by done.
           cbn [compose]. by apply remove_added.
        -- rewrite lookup_insert_ne by done.
           destruct (Notifier.entries map !! name') as [set'|] eqn:He'; [|done].
           apply members_alter_ne. by apply (Hother name').
  - cbn [fst snd].
    assert (Hlen : (List.length (Notifier.sets map)
                    < List.length (Notifier.sets map ++ [[]]))%nat).
    { rewrite length_app. simpl. lia. }
    assert (Hold : ∀ f name' set', Notifier.entries map !! name' = Some set' →
              Notifier.members
                (alter f (List.length (Notifier.sets map))
                   (Notifier.sets map ++ [[]])) set'
              = Notifier.members (Notifier.sets map) set').
    { intros f name' set' He'. destruct (Hwf name' set' He') as [Hlt _].
      rewrite members_alter_ne by lia. by apply members_app_l. }
    split_and!.
    + simpl. rewrite lookup_insert_eq, members_alter_eq, members_new by done.
      done.
    + intros name' Hne. simpl. rewrite lookup_insert_ne by done.
      destruct (Notifier.entries map !! name') as [set'|] eqn:He'; [|done].
      by apply (Hold _ name').
    + intros name'. unfold Notifier.unsubscribe. cbn [Notifier.u_set
        Notifier.u_name Notifier.u_fn Notifier.sets Notifier.entries].
      rewrite twice_altered, members_alter_eq, members_new by done.
      cbn [compose]. rewrite remove_added by apply not_elem_of_nil.
      rewrite bool_decide_true by done. simpl.
      destruct (decide (name' = name)) as [->|Hne].
      * by rewrite lookup_delete_eq, He.
      * rewrite lookup_delete_ne, lookup_insert_ne by done.
        destruct (Notifier.entries map !! name') as [set'|] eqn:He'; [|done].
        by apply (Hold _ name').
Qed.

Lemma X25_subscribe_witness :
  let um := Notifier.subscribe "email" 7 Notifier.empty in
  Notifier.listeners um.2 "email" = Notifier.listeners Notifier.empty "email" ++ [7]
  ∧ (∀ name', name' ≠ "email" →
       Notifier.listeners um.2 name' = Notifier.listeners Notifier.empty name')
  ∧ ∀ name', Notifier.listeners (Notifier.unsubscribe um.1 um.2) name'
             = Notifier.listeners Notifier.empty name'.
Proof.
  apply (X25_subscribe_then_unsubscribe_restores_the_listeners
           Notifier.empty "email" 7).
  - intros name set H. simpl in H. by rewrite lookup_empty in H.
  - apply not_elem_of_nil.
Defined.

(** X26.  The function [subscribe] returns keeps the set it added the
    listener to.  When the name's entry has been deleted in between (as
    [unregister] does) and another listener has subscribed to the name
    since, calling the old function empties the old set and then deletes
    the name's new entry: the new listener is no longer called, though it
    never unsubscribed. *)
Theorem X26_stale_unsubscribe_drops_the_new_listeners
    (map : Notifier.ListenerMap) (name : string) (fn1 fn2 : Notifier.Listener) :
  Notifier.entries map !! name = None →
  let um1 := Notifier.subscribe name fn1 map in
  let map2 := Notifier.map_delete name um1.2 in
  let um3 := Notifier.subscribe name fn2 map2 in
  Notifier.listeners um3.2 name = [fn2]
  ∧ Notifier.listeners (Notifier.unsubscribe um1.1 um3.2) name = [].
Proof.
  intros He um1 map2 um3.
  unfold um3, map2, um1, Notifier.subscribe, Notifier.map_delete. rewrite He.
  cbn [fst snd Notifier.entries Notifier.sets]. rewrite lookup_delete_eq.
  cbn [fst snd Notifier.entries Notifier.sets].
  set (sets := Notifier.sets map). set (n := List.length sets).
  assert (Hs1 : alter (Notifier.add fn1) n (sets ++ [[]]) = sets ++ [[fn1]]).
  { unfold n. rewrite alter_app_r_alt by lia. by rewrite Nat.sub_diag. }
  rewrite Hs1.
  assert (Hn1 : List.length (sets ++ [[fn1]]) = S n).
  { rewrite length_app. simpl. unfold n. lia. }
  rewrite Hn1.
  assert (Hs2 : alter (Notifier.add fn2) (S n) ((sets ++ [[fn1]]) ++ [[]])
                = sets ++ [[fn1]; [fn2]]).
  { rewrite alter_app_r_alt by lia. rewrite Hn1, Nat.sub_diag. simpl.
    by rewrite <- (assoc_L (++)). }
  rewrite Hs2. split.
  - unfold Notifier.listeners. simpl. rewrite lookup_insert_eq.
    unfold Notifier.members. rewrite lookup_app_r by (unfold n; lia).
    replace (S n - List.length sets)%nat with 1%nat by (unfold n; lia). done.
  - unfold Notifier.unsubscribe. cbn [Notifier.u_set Notifier.u_name
      Notifier.u_fn Notifier.sets Notifier.entries].
    assert (Hs3 : alter (Notifier.remove fn1) n (sets ++ [[fn1]; [fn2]])
                  = sets ++ [[]; [fn2]]).
    { unfold n. rewrite alter_app_r_alt by lia. rewrite Nat.sub_diag. simpl.
      unfold Notifier.remove. rewrite filter_cons, filter_nil.
      by rewrite decide_False by (by intros H; apply H). }
    rewrite Hs3.
    assert (Hm : Notifier.members (sets ++ [[]; [fn2]]) n = []).
    { unfold Notifier.members, n. rewrite lookup_app_r by lia.
      by rewrite Nat.sub_diag. }
    rewrite Hm, bool_decide_true by done.
    unfold Notifier.listeners. simpl. by rewrite lookup_delete_eq.
Qed.

Lemma X26_stale_witness :
  let um1 := Notifier.subscribe "email" 1 Notifier.empty in
  let map2 := Notifier.map_delete "email" um1.2 in
  let um3 := Notifier.subscribe "email" 2 map2 in
  Notifier.listeners um3.2 "email" = [2]
  ∧ Notifier.listeners (Notifier.unsubscribe um1.1 um3.2) "email" = [].
Proof.
  apply (X26_stale_unsubscribe_drops_the_new_listeners Notifier.empty "email" 1 2).
  reflexivity.
Defined.

(** ** The notifications of a pass *)

Section PassNotifications.
Import Store.

Lemma clear_error_grows k s : notified s `prefix_of` notified (clear_error k s).
Proof.
  unfold clear_error. case_bool_decide; simpl; [|done]. by eexists.
Qed.

Lemma setMeta_grows name next s :
  notified s `prefix_of` notified (metaApi.setMeta name next s).
Proof.
  unfold metaApi.setMeta.
  repeat (match goal with |- context [if ?c then _ else _] => destruct c end;
          simpl);
    try (etrans; [|by eexists]);
    try (etrans; [|apply clear_error_grows]); done.
Qed.

Lemma setMetaIfChanged_grows name patch s :
  notified s `prefix_of` notified (Bridge.setMetaIfChanged name patch s).
Proof.
  unfold Bridge.setMetaIfChanged. destruct (Bridge.metaShallowEqual _ _); [done|].
  apply setMeta_grows.
Qed.

Lemma setValue_grows key v s :
  notified s `prefix_of` notified (api.setValue key v s).
Proof.
  unfold api.setValue. repeat (case_match; simpl);
    try (by eexists); by exists [notifyError key; notifyValue key];
    rewrite <- (assoc_L (++)).
Qed.

Lemma notified_since_grows s n s1 s2 :
  notified s1 `prefix_of` notified s2 →
  notified_since s n s1 → notified_since s n s2.
Proof.
  intros [more Hm] (calls & Hc & Hin). exists (calls ++ more). split.
  - by rewrite Hm, Hc, (assoc_L (++)).
  - apply elem_of_app. by left.
Qed.

Lemma notify_notifies s n s0 :
  notified s `prefix_of` notified s0 → notified_since s n (notify n s0).
Proof.
  intros [more Hm]. exists (more ++ [n]). split.
  - simpl. by rewrite Hm, (assoc_L (++)).
  - apply elem_of_app. right. by apply list_elem_of_singleton.
Qed.

Lemma hiding_notifies f s :
  meta s !! f ≫= visible ≠ Some false →
  notified_since s (notifyMeta f) (Bridge.setMetaIfChanged f Bridge.hidden s).
Proof.
  intros Hv. unfold Bridge.setMetaIfChanged.
  destruct (Bridge.metaShallowEqual _ _) eqn:E.
  { exfalso. apply Hv. unfold Bridge.metaShallowEqual in E.
    apply andb_true_iff in E as [E _]. apply andb_true_iff in E as [E _].
    apply bool_decide_eq_true in E. unfold metaApi.getMeta in E. by rewrite E. }
  unfold metaApi.setMeta. cbv zeta.
  set (prev := default defaultMeta (meta s !! f)).
  assert (Hp : visible prev ≠ visible (spread prev Bridge.hidden)).
  { unfold prev. destruct (meta s !! f) as [m|]; simpl in *; done. }
  rewrite (bool_decide_true _ Hp). cbn [orb].
  apply notify_notifies.
  repeat (match goal with |- context [if ?c then _ else _] => destruct c end;
          simpl);
    try (etrans; [|apply clear_error_grows]); done.
Qed.

Lemma baseline_notifies f conditions :
  f ∈ Bridge.showControlledFields conditions →
  ∀ s, meta s !! f ≫= visible ≠ Some false →
       notified_since s (notifyMeta f) (Bridge.baseline conditions s).
Proof.
  intros Hin. unfold Bridge.baseline.
  assert (Hgrow : ∀ l s0,
    notified s0 `prefix_of`
      notified (foldl (λ s1 field, Bridge.setMetaIfChanged field Bridge.hidden s1)
                  s0 l)).
  { induction l as [|g l IH]; intros s0; simpl; [done|].
    etrans; [apply (setMetaIfChanged_grows g Bridge.hidden)|apply IH]. }
  induction (Bridge.showControlledFields conditions) as [|g l IH]; intros s Hv;
    simpl.
  - by apply elem_of_nil in Hin.
  - destruct (decide (g = f)) as [->|Hne].
    + eapply notified_since_grows; [apply Hgrow|]. by apply hiding_notifies.
    + apply elem_of_cons in Hin as [?|Hin]; [done|].
      destruct (IH Hin (Bridge.setMetaIfChanged g Bridge.hidden s))
        as (calls & Hc & Hcin).
      { by rewrite setMetaIfChanged_lookup_ne. }
      destruct (setMetaIfChanged_grows g Bridge.hidden s) as [more Hm].
      exists (more ++ calls). split.
      * by rewrite Hc, Hm, (assoc_L (++)).
      * apply elem_of_app. by right.
Qed.

Lemma apply_meta_inv (I : Store.t → Prop) mp :
  (∀ f patch s, I s → I (Bridge.setMetaIfChanged f patch s)) →
  ∀ s, I s → I (Bridge.apply_meta mp s).
Proof.
  intros Hstep. unfold Bridge.apply_meta.
  induction (obj_keys mp) as [|g l IH]; intros s; simpl; [done|].
  intros HI. apply IH. by apply Hstep.
Qed.

Lemma apply_values_inv (I : Store.t → Prop) dv :
  (∀ k v s, I s → I (api.setValue k v s)) →
  ∀ s, I s → I (Bridge.apply_values dv s).
Proof.
  intros Hstep. unfold Bridge.apply_values.
  induction (obj_keys dv) as [|g l IH]; intros s; simpl; [done|].
  intros HI. apply IH. destruct (negb _); [by apply Hstep | done].
Qed.

End PassNotifications.

(** X27.  Every pass notifies the meta listeners of each field that is
    the target of a [show] effect and is not hidden when the pass starts:
    the baseline hides the field first, whatever the rules then decide,
    so the listeners are called even by a pass that leaves the field
    visible in the end. *)
Theorem X27_pass_notifies_visible_show_targets
    (conditions : list ConditionRule) (b : Bridge.t) (s : Store.t) (f : string) :
  Bridge.running b = false → cache_ok b →
  f ∈ Bridge.showControlledFields conditions →
  metaApi.getMeta s f ≫= visible ≠ Some false →
  ∃ n, ∀ fuel, (n ≤ fuel)%nat →
    ∃ b' s',
      Bridge.run fuel conditions (b, s) = Some (b', s')
      ∧ notified_since s (Store.notifyMeta f) s'.
Proof.
  intros Hrun Hok Hin Hv.
  destruct (run_completes conditions b s Hrun Hok) as [n Hn].
  exists n. intros fuel Hle. destruct (Hn fuel Hle) as (b2 & s3 & Hc & Hr).
  eexists _, _. split; [exact Hr|].
  assert (Hmeta : ∀ g patch s0,
    notified_since s (Store.notifyMeta f) s0 →
    notified_since s (Store.notifyMeta f) (Bridge.setMetaIfChanged g patch s0)).
  { intros g patch s0. apply notified_since_grows, setMetaIfChanged_grows. }
  apply apply_values_inv.
  { intros k v s0. apply notified_since_grows, setValue_grows. }
  apply (cascade_inv (notified_since s (Store.notifyMeta f))
           (λ g, Hmeta g Bridge.hidden) (λ g, Hmeta g Bridge.shown)
           _ _ _ _ _ _ Hc).
  unfold after_meta. apply apply_meta_inv; [exact Hmeta|].
  by apply baseline_notifies.
Qed.

Lemma X27_notifies_witness :
  ∃ n, ∀ fuel, (n ≤ fuel)%nat →
    ∃ b' s',
      Bridge.run fuel show_a_rules (Bridge.mounted, abc_store) = Some (b', s')
      ∧ notified_since abc_store (Store.notifyMeta "a") s'.
Proof.
  apply (X27_pass_notifies_visible_show_targets
           show_a_rules Bridge.mounted abc_store "a").
  - reflexivity.
  - reflexivity.
  - vm_compute. set_solver.
  - by vm_compute.
Defined.

(** ** A rule and its negation *)

(** X28.  Of a rule and the rule [else()] pairs it with (the predicate
    inverted by [invertWhen]), the evaluator applies exactly one, whatever
    their priorities and so in whatever order the sort puts them: the
    result is the patch of the first rule's effects when its predicate
    holds, and the patch of the second rule's effects when it does not. *)
Theorem X28_rule_and_negation_apply_exactly_one
    (values : FieldValueMap) (w : FieldValueMap → bool)
    (thenEffects elseEffects : list ConditionEffect)
    (p1 p2 : option float) :
  Engine.evaluateConditions values
    [ mkRule w thenEffects p1; mkRule (Dsl.invertWhen w) elseEffects p2 ]
  = effects_patch values (if w values then thenEffects else elseEffects).
Proof.
  unfold Engine.evaluateConditions, Engine.sort, effects_patch. simpl.
  destruct (PrimFloat.ltb 0 _); simpl;
    unfold Engine.applyRule, Dsl.invertWhen; simpl;
    by destruct (w values).
Qed.

(** ** The bridge as a global listener *)

Section GlobalSubscription.
Import Store.

Lemma apply_meta_visible mp s k e x :
  obj_lookup mp k = Some e → Engine.e_visible e = Some x →
  meta (Bridge.apply_meta mp s) !! k ≫= visible = Some x.
Proof.
  intros Hl He. pose proof (obj_lookup_Some_key _ _ _ Hl) as Hin.
  unfold Bridge.apply_meta. revert s Hin.
  assert (Hstep : ∀ key s,
    (key = k ∨ meta s !! k ≫= visible = Some x) →
    meta (Bridge.setMetaIfChanged key
            (Bridge.patch_of (default Engine.empty_entry (obj_lookup mp key))) s)
      !! k ≫= visible = Some x).
  { intros key s Hc. destruct (decide (key = k)) as [->|Hne].
    - apply setMetaIfChanged_visible. by rewrite Hl.
    - destruct Hc as [?|Hc]; [done|]. by rewrite setMetaIfChanged_lookup_ne. }
  assert (Hkeep : ∀ l s, meta s !! k ≫= visible = Some x →
    meta (foldl (λ s key, Bridge.setMetaIfChanged key
                   (Bridge.patch_of (default Engine.empty_entry (obj_lookup mp key))) s)
            s l) !! k ≫= visible = Some x).
  { induction l as [|g l IH]; intros s Hs; simpl; [done|].
    apply IH, Hstep. by right. }
  induction (obj_keys mp) as [|g l IH]; intros s Hin; simpl.
  - by apply elem_of_nil in Hin.
  - apply elem_of_cons in Hin as [<-|Hin].
    + apply Hkeep, Hstep. by left.
    + by apply IH.
Qed.

Lemma cascade_keeps_top_visible fuel f :
  parentPath f = "" →
  ∀ roots b s b' s',
    cache_ok b →
    Bridge.cascade fuel roots (b, s) = Some (b', s') →
    meta s !! f ≫= visible = Some true →
    meta s' !! f ≫= visible = Some true.
Proof.
  intros Hp. induction roots as [|root rest IH]; intros b s b' s' Hok; simpl.
  - by intros [= <- <-].
  - destruct (Bridge.cascade_root fuel root (b, s)) as [[b1 s1]|] eqn:Hr; [|done].
    intros Hc Hv.
    destruct (cascade_root_effect _ _ _ _ _ _ Hok Hr) as ((Hok1 & _ & _) & Hd & _).
    apply (IH b1 s1 b' s' Hok1 Hc).
    destruct (Hd f) as [->|[(_ & Hroot & Hreach)|([Hs _] & _)]]; [done| |done].
    apply reaches_descends in Hreach.
    inversion Hreach as [Heq|? _ Hne _]; [|done].
    subst root. congruence.
Qed.

Lemma notify_global_spec calls b :
  Bridge.cachedFieldKeys (Bridge.notify_global calls b) = Bridge.cachedFieldKeys b
  ∧ Bridge.childrenMap (Bridge.notify_global calls b) = Bridge.childrenMap b
  ∧ Bridge.running (Bridge.notify_global calls b) = Bridge.running b
  ∧ Bridge.scheduled (Bridge.notify_global calls b)
    = (Bridge.scheduled b || bool_decide (calls ≠ [])).
Proof.
  unfold Bridge.notify_global. revert b.
  induction calls as [|c calls IH]; intros b; simpl.
  - by rewrite orb_false_r.
  - destruct (IH (Bridge.scheduleRun b)) as (-> & -> & -> & ->).
    unfold Bridge.scheduleRun. destruct (Bridge.scheduled b) eqn:E; simpl;
      rewrite ?E; done.
Qed.

End GlobalSubscription.

(** X29.  A bridge whose predicates read no field subscribes
    [scheduleRun] as a global listener.  If the rules show a top-level
    field whatever the values, and that field is not hidden when the
    queued microtask runs, then the pass of the microtask notifies (its
    baseline hides the field before the rules show it again), so
    [scheduleRun] queues a microtask again, and the bridge is left in a
    state in which all of this holds once more: the passes never stop. *)
Theorem X29_global_listener_pass_schedules_itself_again
    (conditions : list ConditionRule) (b : Bridge.t) (s : Store.t) (f : string) :
  Bridge.running b = false → cache_ok b →
  f ∈ Bridge.showControlledFields conditions →
  always_shows conditions f →
  parentPath f = "" →
  metaApi.getMeta s f ≫= visible ≠ Some false →
  ∃ n, ∀ fuel, (n ≤ fuel)%nat →
    ∃ b' s',
      Bridge.microtask_global fuel conditions (b, s) = Some (b', s')
      ∧ Bridge.scheduled b' = true
      ∧ Bridge.running b' = false
      ∧ cache_ok b'
      ∧ metaApi.getMeta s' f ≫= visible ≠ Some false.
Proof.
  intros Hrun Hok Hin Hshow Hp Hv.
  set (b0 := Bridge.mk (Bridge.cachedFieldKeys b) (Bridge.childrenMap b) false
               (Bridge.running b)).
  assert (Hok0 : cache_ok b0) by exact Hok.
  assert (Hrun0 : Bridge.running b0 = false) by exact Hrun.
  destruct (run_completes conditions b0 s Hrun0 Hok0) as [n Hn].
  exists n. intros fuel Hle. destruct (Hn fuel Hle) as (b2 & s3 & Hc & Hr).
  unfold Bridge.microtask_global, Bridge.microtask. cbn [fst snd].
  fold b0. rewrite Hr.
  set (s' := Bridge.apply_values _ s3).
  set (b1 := Bridge.mk (Bridge.cachedFieldKeys b2) (Bridge.childrenMap b2)
               (Bridge.scheduled b2) false).
  assert (Hok1 : cache_ok (Bridge.mk (Bridge.cachedFieldKeys b0)
                             (Bridge.childrenMap b0) (Bridge.scheduled b0) true))
    by exact Hok.
  destruct (cascade_frame _ _ _ _ _ _ Hok1 Hc) as (Hok2 & _ & _).
  assert (Hmeta : ∀ g patch s0,
    notified_since s (Store.notifyMeta f) s0 →
    notified_since s (Store.notifyMeta f) (Bridge.setMetaIfChanged g patch s0)).
  { intros g patch s0. apply notified_since_grows, setMetaIfChanged_grows. }
  assert (Hcalls : notified_since s (Store.notifyMeta f) s').
  { apply apply_values_inv.
    { intros k v s0. apply notified_since_grows, setValue_grows. }
    apply (cascade_inv (notified_since s (Store.notifyMeta f))
             (λ g, Hmeta g Bridge.hidden) (λ g, Hmeta g Bridge.shown)
             _ _ _ _ _ _ Hc).
    unfold after_meta. apply apply_meta_inv; [exact Hmeta|].
    by apply baseline_notifies. }
  destruct Hcalls as (calls & Hn' & Hcin).
  rewrite Hn', drop_app_length.
  destruct (notify_global_spec calls b1) as (Hk & Hm & Hr1 & Hs).
  eexists _, s'. split; [done|]. split_and!.
  - rewrite Hs. rewrite (bool_decide_true (calls ≠ [])).
    + apply orb_true_r.
    + intros ->. by apply elem_of_nil in Hcin.
  - by rewrite Hr1.
  - unfold cache_ok. rewrite Hk, Hm. exact Hok2.
  - unfold metaApi.getMeta, s'. rewrite apply_values_meta.
    rewrite (cascade_keeps_top_visible fuel f Hp _ _ _ _ _ Hok1 Hc); [done|].
    unfold after_meta. specialize (Hshow (api.getValues s)).
    fold (meta_patch conditions s) in Hshow.
    destruct (obj_lookup (meta_patch conditions s) f) as [e|] eqn:Hl; [|done].
    by apply (apply_meta_visible _ _ _ e).
Qed.

Lemma X29_global_witness :
  ∃ n, ∀ fuel, (n ≤ fuel)%nat →
    ∃ b' s',
      Bridge.microtask_global fuel show_a_rules (Bridge.mounted, abc_store)
      = Some (b', s')
      ∧ Bridge.scheduled b' = true
      ∧ Bridge.running b' = false
      ∧ cache_ok b'
      ∧ metaApi.getMeta s' "a" ≫= visible ≠ Some false.
Proof.
  apply (X29_global_listener_pass_schedules_itself_again
           show_a_rules Bridge.mounted abc_store "a").
  - reflexivity.
  - reflexivity.
  - vm_compute. set_solver.
  - intros values. reflexivity.
  - reflexivity.
  - by vm_compute.
Defined.

(** ** Which listeners a pass calls *)

Section PassCalls.
Import Store.

Lemma calls_since_more s s1 s2 (P : Notification → Prop) more :
  calls_since s s1 P → notified s2 = notified s1 ++ more → Forall P more →
  calls_since s s2 P.
Proof.
  intros (calls & Hc & Hall) Hm Hmore. exists (calls ++ more). split.
  - by rewrite Hm, Hc, (assoc_L (++)).
  - by apply Forall_app.
Qed.

Lemma clear_error_calls k s :
  ∃ more, notified (clear_error k s) = notified s ++ more ∧ Forall meta_call more.
Proof.
  unfold clear_error. case_bool_decide; simpl.
  - exists [notifyError k]. split; [done|]. by repeat constructor.
  - exists []. by rewrite app_nil_r.
Qed.

Lemma setMeta_calls name next s :
  ∃ more, notified (metaApi.setMeta name next s) = notified s ++ more
          ∧ Forall meta_call more.
Proof.
  unfold metaApi.setMeta. cbv zeta.
  repeat (match goal with |- context [if ?c then _ else _] => destruct c end;
          simpl);
    try (match goal with
         | |- context [clear_error ?k ?S] =>
             destruct (clear_error_calls k S) as (m & Hm & Hq);
             rewrite Hm; simpl
         end);
    first
      [ exists (m ++ [notifyMeta name]); split;
        [ by rewrite (assoc_L (++))
        | apply Forall_app; split; [done | by repeat constructor] ]
      | by exists m
      | exists [notifyMeta name]; split; [done | by repeat constructor]
      | exists []; by rewrite app_nil_r ].
Qed.

Lemma setMetaIfChanged_calls name patch s :
  ∃ more, notified (Bridge.setMetaIfChanged name patch s) = notified s ++ more
          ∧ Forall meta_call more.
Proof.
  unfold Bridge.setMetaIfChanged. destruct (Bridge.metaShallowEqual _ _).
  - exists []. by rewrite app_nil_r.
  - apply setMeta_calls.
Qed.

Lemma setValue_calls key v s :
  ∃ more, notified (api.setValue key v s) = notified s ++ more
          ∧ Forall (λ c, c = notifyError key ∨ c = notifyValue key) more.
Proof.
  unfold api.setValue. repeat (case_match; simpl).
  - exists [notifyError key; notifyValue key]. split.
    + by rewrite <- (assoc_L (++)).
    + repeat (apply Forall_cons; split; [auto|]). constructor.
  - exists [notifyValue key]. split; [done|].
    repeat (apply Forall_cons; split; [auto|]). constructor.
  - exists [notifyValue key]. split; [done|].
    repeat (apply Forall_cons; split; [auto|]). constructor.
  - exists [notifyValue key]. split; [done|].
    repeat (apply Forall_cons; split; [auto|]). constructor.
Qed.

Lemma obj_set_NoDup {A} (o : JsObject A) k v :
  NoDup (obj_keys o) → NoDup (obj_keys (obj_set o k v)).
Proof.
  intros Hnd. rewrite obj_keys_set. case_bool_decide as Hin; [done|].
  apply NoDup_app. split_and!; [done | | apply NoDup_singleton].
  intros x Hx ->%list_elem_of_singleton. done.
Qed.

Lemma value_patch_NoDup values rules :
  NoDup (obj_keys (Engine.desiredValues (Engine.evaluateConditions values rules))).
Proof.
  unfold Engine.evaluateConditions.
  assert (Heff : ∀ es acc, NoDup (obj_keys (Engine.desiredValues acc)) →
    NoDup (obj_keys (Engine.desiredValues
             (foldl (λ acc effect, Engine.applyEffect effect values acc) acc es)))).
  { induction es as [|e es IH]; intros acc Hnd; simpl; [done|].
    apply IH. destruct e; simpl; try done; by apply obj_set_NoDup. }
  assert (Hrules : ∀ rs acc, NoDup (obj_keys (Engine.desiredValues acc)) →
    NoDup (obj_keys (Engine.desiredValues (foldl (Engine.applyRule values) acc rs)))).
  { induction rs as [|r rs IH]; intros acc Hnd; simpl; [done|].
    apply IH. unfold Engine.applyRule. destruct (when r values); [|done].
    by apply Heff. }
  apply Hrules. simpl. constructor.
Qed.

Lemma apply_values_calls conditions s s3 :
  values s3 = values s →
  calls_since s s3 (pass_call conditions s) →
  calls_since s (Bridge.apply_values (value_patch conditions s) s3)
    (pass_call conditions s).
Proof.
  intros Hv Hc. unfold Bridge.apply_values.
  pose proof (value_patch_NoDup (api.getValues s) conditions) as Hnd.
  fold (value_patch conditions s) in Hnd.
  set (dv := value_patch conditions s) in *.
  set (step := λ (s0 : t) key,
         if negb (strict_eq (api.getValue s0 key) (obj_get dv key))
         then api.setValue key (obj_get dv key) s0 else s0).
  assert (Hgen : ∀ l s0,
    (∀ k, k ∈ l → k ∈ obj_keys dv) → NoDup l →
    calls_since s s0 (pass_call conditions s) →
    (∀ k, k ∈ l → api.getValue s0 k = api.getValue s k) →
    calls_since s (foldl step s0 l) (pass_call conditions s)).
  { induction l as [|key l IH]; intros s0 Hsub Hnd0 Hc0 Hcur; simpl; [done|].
    apply NoDup_cons in Hnd0 as [Hnotin Hnd0].
    apply IH; [intros k Hk; apply Hsub; by right | done | |].
    - unfold step.
      destruct (strict_eq (api.getValue s0 key) (obj_get dv key)) eqn:E; simpl;
        [done|].
      destruct (setValue_calls key (obj_get dv key) s0) as (more & Hm & Hq).
      apply (calls_since_more _ _ _ _ more Hc0 Hm).
      apply (Forall_impl _ _ _ Hq). intros c [->| ->]; simpl; [done|].
      assert (Hin : key ∈ obj_keys dv) by (apply Hsub; left).
      fold dv. destruct (obj_lookup dv key) as [v|] eqn:Hl.
      + exists v. split; [done|]. rewrite <- (Hcur key) by left.
        unfold obj_get in E. by rewrite Hl in E.
      + by apply obj_lookup_None in Hl.
    - intros k Hk. unfold step.
      destruct (strict_eq (api.getValue s0 key) (obj_get dv key)); simpl.
      + apply Hcur. by right.
      + rewrite <- (Hcur k) by (by right). unfold api.getValue.
        destruct (setValue_spec key (obj_get dv key) s0) as [-> _].
        apply obj_get_set_ne. intros ->. done. }
  apply Hgen; try done.
  intros k _. unfold api.getValue. by rewrite Hv.
Qed.

End PassCalls.

(** X30.  The only calls of the notifier a pass makes are [notifyMeta]
    and [notifyError] calls, and [notifyValue] for the fields whose value
    the pass changes: those for which the value patch holds a value that
    the store's value is not [===] to.  So a pass whose value patch the
    store already satisfies calls no value listener, and a bridge
    subscribed to its dependencies only is not scheduled again by it. *)
Theorem X30_pass_calls_value_listeners_only_for_changed_values
    (conditions : list ConditionRule) (b : Bridge.t) (s : Store.t) :
  Bridge.running b = false → cache_ok b →
  ∃ n, ∀ fuel, (n ≤ fuel)%nat →
    ∃ b' s',
      Bridge.run fuel conditions (b, s) = Some (b', s')
      ∧ calls_since s s' (pass_call conditions s).
Proof.
  intros Hrun Hok. destruct (run_completes conditions b s Hrun Hok) as [n Hn].
  exists n. intros fuel Hle. destruct (Hn fuel Hle) as (b2 & s3 & Hc & Hr).
  eexists _, _. split; [exact Hr|].
  assert (Hok1 : cache_ok (Bridge.mk (Bridge.cachedFieldKeys b)
                             (Bridge.childrenMap b) (Bridge.scheduled b) true))
    by exact Hok.
  destruct (cascade_frame _ _ _ _ _ _ Hok1 Hc) as (_ & Hv & _).
  rewrite after_meta_values in Hv.
  assert (Hmeta : ∀ g patch s0,
    calls_since s s0 (pass_call conditions s) →
    calls_since s (Bridge.setMetaIfChanged g patch s0) (pass_call conditions s)).
  { intros g patch s0 H0.
    destruct (setMetaIfChanged_calls g patch s0) as (more & Hm & Hq).
    apply (calls_since_more _ _ _ _ more H0 Hm).
    apply (Forall_impl _ _ _ Hq). by intros [k|k|k|]. }
  apply (apply_values_calls conditions s s3 Hv).
  apply (cascade_inv (λ s0, calls_since s s0 (pass_call conditions s))
           (λ g, Hmeta g Bridge.hidden) (λ g, Hmeta g Bridge.shown)
           _ _ _ _ _ _ Hc).
  unfold after_meta. apply apply_meta_inv; [exact Hmeta|].
  apply baseline_inv; [exact (λ g, Hmeta g Bridge.hidden)|].
  exists []. by rewrite app_nil_r.
Qed.

Lemma X30_calls_witness :
  ∃ n, ∀ fuel, (n ≤ fuel)%nat →
    ∃ b' s',
      Bridge.run fuel shipping_rules (Bridge.mounted, shipping_store) = Some (b', s')
      ∧ calls_since shipping_store s' (pass_call shipping_rules shipping_store).
Proof.
  apply (X30_pass_calls_value_listeners_only_for_changed_values
           shipping_rules Bridge.mounted shipping_store); reflexivity.
Defined.

(** ** The listener maps stay well formed *)

Section NotifierInvariant.
Import Notifier.

Lemma listeners_wf_empty : listeners_wf empty.
Proof. intros name set H. simpl in H. by rewrite lookup_empty in H. Qed.

Lemma listeners_wf_subscribe name fn map :
  listeners_wf map → listeners_wf (subscribe name fn map).2.
Proof.
  intros Hwf. unfold subscribe.
  destruct (entries map !! name) as [set|] eqn:He; cbn [fst snd].
  - rewrite (insert_id _ _ _ He). intros n l Hl. simpl in *.
    rewrite length_alter. by apply Hwf.
  - intros n l Hl. simpl in *. rewrite length_alter, length_app. simpl.
    destruct (decide (n = name)) as [->|Hne].
    + rewrite lookup_insert_eq in Hl. injection Hl as <-. split; [lia|].
      intros n' Hn'. destruct (decide (n' = name)) as [->|Hne']; [done|].
      rewrite lookup_insert_ne in Hn' by done.
      destruct (Hwf n' _ Hn') as [Hlt _]. lia.
    + rewrite lookup_insert_ne in Hl by done.
      destruct (Hwf n l Hl) as [Hlt Hinj]. split; [lia|].
      intros n' Hn'. destruct (decide (n' = name)) as [->|Hne'].
      * rewrite lookup_insert_eq in Hn'. injection Hn' as <-. lia.
      * rewrite lookup_insert_ne in Hn' by done. by apply Hinj.
Qed.

Lemma listeners_wf_fewer sets' entries' map :
  List.length sets' = List.length (sets map) →
  (∀ n l, entries' !! n = Some l → entries map !! n = Some l) →
  listeners_wf map → listeners_wf (mkMap sets' entries').
Proof.
  intros Hlen Hsub Hwf n l Hl. simpl in *.
  destruct (Hwf n l (Hsub _ _ Hl)) as [Hlt Hinj]. split; [by rewrite Hlen|].
  intros n' Hn'. by apply Hinj, Hsub.
Qed.

Lemma listeners_wf_unsubscribe u map :
  listeners_wf map → listeners_wf (unsubscribe u map).
Proof.
  intros Hwf. unfold unsubscribe. case_bool_decide.
  - apply (listeners_wf_fewer _ _ map); [apply length_alter | | done].
    intros n l Hl. by apply lookup_delete_Some in Hl as [_ Hl].
  - by apply (listeners_wf_fewer _ _ map); [apply length_alter | |].
Qed.

Lemma listeners_wf_map_delete key map :
  listeners_wf map → listeners_wf (map_delete key map).
Proof.
  intros Hwf. apply (listeners_wf_fewer _ _ map); [done | | done].
  intros n l Hl. by apply lookup_delete_Some in Hl as [_ Hl].
Qed.

End NotifierInvariant.
